(** * API rotation managers: shallow embedding and verified properties

    The development embeds the two rotation managers of the repository,

    - [src/services/enhanced_api_rotation_manager.py]
      (class [EnhancedAPIRotationManager], module [Enhanced] below), and
    - [src/services/openrouter_api_manager.py]
      (class [OpenRouterAPIManager], module [OpenRouter] below),

    as state-passing functions, and proves the properties of their
    specification against them.

    Conventions of the embedding.
    - A [datetime] is an integer number of seconds on an arbitrary scale
      and a [timedelta] a number of seconds; only order and addition of
      timestamps are used by the code.
    - [datetime.now()] is an explicit argument [now] of every operation that
      reads the clock.
    - A Python [dict] is a [gmap], a Python [list] a [list], a Python [int]
      an integer of [Z]; objects mutated in place are threaded through as
      the new state.
    - A raised exception is a value of [PyExc]; operations that can raise
      return a [PyResult]. *)

From Stdlib Require Import ZArith Ascii String.
From stdpp Require Import gmap strings list fin_maps pretty.

Local Open Scope string_scope.
Local Open Scope Z_scope.

(** ** Python exceptions and results *)

Inductive ExcKind :=
| APIStatusError
| GenericException
| KeyError
| IndexError
| ValueError
| UnboundLocalError
| TypeError.

Record PyExc := mkPyExc {
  exc_kind : ExcKind;
  exc_status_code : Z;      (* [e.status_code]; meaningful for [APIStatusError] *)
  exc_message : string      (* [str(e)] *)
}.

Inductive PyResult (A : Type) :=
| Ok (a : A)
| Raise (e : PyExc).
Arguments Ok {A} a.
Arguments Raise {A} e.

(** [KeyError(k)], whose text is the quoted key. *)
Definition key_error (k : string) : PyExc :=
  mkPyExc KeyError 0 ("'" +:+ k +:+ "'").

(** [timedelta] constants, in seconds. *)
Definition seconds (n : Z) : Z := n.
Definition minutes (n : Z) : Z := 60 * n.
Definition hours (n : Z) : Z := 3600 * n.

(** [os.environ]: [os.getenv k] is [env !! k]. *)
Definition getenv (env : gmap string string) (k : string) : option string :=
  env !! k.

Definition getenv_default (env : gmap string string) (k d : string) : string :=
  default d (env !! k).

(** Python truthiness of an optional string: [None] and [''] are falsy. *)
Definition truthy (o : option string) : bool :=
  match o with
  | Some s => negb (String.eqb s "")
  | None => false
  end.

(** ** The multi-service manager ([enhanced_api_rotation_manager.py]) *)

Module Enhanced.

Inductive APIStatus := ACTIVE | RATE_LIMITED | ERROR | OFFLINE.

Record APIEndpoint := mkAPIEndpoint {
  name : string;
  api_key : string;
  base_url : string;
  status : APIStatus;
  last_used : option Z;
  error_count : Z;
  rate_limit_reset : option Z;
  requests_made : Z;
  max_requests_per_minute : Z
}.

(** The dataclass defaults: [status = ACTIVE], [last_used = None],
    [error_count = 0], [rate_limit_reset = None], [requests_made = 0]. *)
Definition new_endpoint (n k u : string) (cap : Z) : APIEndpoint :=
  mkAPIEndpoint n k u ACTIVE None 0 None 0 cap.

Definition set_status (v : APIStatus) (a : APIEndpoint) : APIEndpoint :=
  mkAPIEndpoint (name a) (api_key a) (base_url a) v (last_used a)
    (error_count a) (rate_limit_reset a) (requests_made a)
    (max_requests_per_minute a).

Definition set_last_used (v : option Z) (a : APIEndpoint) : APIEndpoint :=
  mkAPIEndpoint (name a) (api_key a) (base_url a) (status a) v
    (error_count a) (rate_limit_reset a) (requests_made a)
    (max_requests_per_minute a).

Definition set_error_count (v : Z) (a : APIEndpoint) : APIEndpoint :=
  mkAPIEndpoint (name a) (api_key a) (base_url a) (status a) (last_used a)
    v (rate_limit_reset a) (requests_made a) (max_requests_per_minute a).

Definition set_rate_limit_reset (v : option Z) (a : APIEndpoint) : APIEndpoint :=
  mkAPIEndpoint (name a) (api_key a) (base_url a) (status a) (last_used a)
    (error_count a) v (requests_made a) (max_requests_per_minute a).

Definition set_requests_made (v : Z) (a : APIEndpoint) : APIEndpoint :=
  mkAPIEndpoint (name a) (api_key a) (base_url a) (status a) (last_used a)
    (error_count a) (rate_limit_reset a) v (max_requests_per_minute a).

Definition status_eqb (x y : APIStatus) : bool :=
  match x, y with
  | ACTIVE, ACTIVE | RATE_LIMITED, RATE_LIMITED
  | ERROR, ERROR | OFFLINE, OFFLINE => true
  | _, _ => false
  end.

Record EnhancedAPIRotationManager := mkManager {
  apis : gmap string (list APIEndpoint);
  current_api_index : gmap string Z;
  health_check_interval : Z;
  last_health_check : gmap string Z
}.

Definition set_apis (v : gmap string (list APIEndpoint))
    (s : EnhancedAPIRotationManager) : EnhancedAPIRotationManager :=
  mkManager v (current_api_index s) (health_check_interval s)
    (last_health_check s).

Definition set_current_api_index (v : gmap string Z)
    (s : EnhancedAPIRotationManager) : EnhancedAPIRotationManager :=
  mkManager (apis s) v (health_check_interval s) (last_health_check s).

Definition set_last_health_check (v : gmap string Z)
    (s : EnhancedAPIRotationManager) : EnhancedAPIRotationManager :=
  mkManager (apis s) (current_api_index s) (health_check_interval s) v.

(** [api.rate_limit_reset and datetime.now() > api.rate_limit_reset]:
    a [datetime] is always truthy, so the test is "set and in the past". *)
Definition reset_passed (a : APIEndpoint) (now : Z) : bool :=
  match rate_limit_reset a with
  | Some t => t <? now
  | None => false
  end.

(** [_is_api_available]: the lazy per-record evaluation.  It returns the
    verdict together with the record as the call leaves it. *)
Definition _is_api_available (api : APIEndpoint) (now : Z)
    : bool * APIEndpoint :=
  if status_eqb (status api) OFFLINE then (false, api)
  else if status_eqb (status api) RATE_LIMITED then
    if reset_passed api now
    then (true, set_requests_made 0 (set_status ACTIVE api))
    else (false, api)
  else if status_eqb (status api) ERROR && (5 <? error_count api)
  then (false, api)
  else (true, api).

(** One iteration of the loop of [_perform_health_check]. *)
Definition health_check_api (now : Z) (api : APIEndpoint) : APIEndpoint :=
  if status_eqb (status api) OFFLINE then api
  else
    let api1 :=
      if reset_passed api now
      then set_requests_made 0
             (set_rate_limit_reset None (set_status ACTIVE api))
      else api in
    if max_requests_per_minute api1 <=? requests_made api1
    then set_rate_limit_reset (Some (now + minutes 1))
           (set_status RATE_LIMITED api1)
    else api1.

(** [_perform_health_check]: the bulk sweep.  The [KeyError] of an unknown
    service is caught by the method's own [try/except] and only logged, so
    the state is then unchanged. *)
Definition _perform_health_check (s : EnhancedAPIRotationManager)
    (service : string) (now : Z) : EnhancedAPIRotationManager :=
  match apis s !! service with
  | None => s
  | Some l =>
      set_last_health_check (<[service := now]> (last_health_check s))
        (set_apis (<[service := health_check_api now <$> l]> (apis s)) s)
  end.

(** [_needs_health_check]. *)
Definition _needs_health_check (s : EnhancedAPIRotationManager)
    (service : string) (now : Z) : bool :=
  match last_health_check s !! service with
  | None => true
  | Some last_check => seconds (health_check_interval s) <? now - last_check
  end.

(** A record that the lazy evaluation accepts as it is, at any time. *)
Definition steady (api : APIEndpoint) : Prop :=
  status api = ACTIVE ∨ (status api = ERROR ∧ error_count api <= 5).


(** What [get_active_api] does to the record it returns:
    [api.last_used = datetime.now(); api.requests_made += 1]. *)
Definition note_use (now : Z) (api : APIEndpoint) : APIEndpoint :=
  set_requests_made (requests_made api + 1) (set_last_used (Some now) api).

(** The [for i in range(len(apis))] loop of [get_active_api], over the
    remaining values [rng] of [i].  The result is the index and record of
    the first available endpoint, and the list as the evaluations left
    it. *)
Fixpoint scan_apis (now start_index : Z) (rng : list nat)
    (l : list APIEndpoint) : option (Z * APIEndpoint) * list APIEndpoint :=
  match rng with
  | [] => (None, l)
  | i :: rng' =>
      let index := (start_index + Z.of_nat i) mod Z.of_nat (length l) in
      match l !! Z.to_nat index with
      | None => (None, l)
      | Some api =>
          let '(ok, api') := _is_api_available api now in
          let l' := <[Z.to_nat index := api']> l in
          if ok then (Some (index, api'), l')
          else scan_apis now start_index rng' l'
      end
  end.

(** [get_active_api]. *)
Definition get_active_api (s : EnhancedAPIRotationManager)
    (service : string) (force_check : bool) (now : Z)
    : PyResult (option APIEndpoint) * EnhancedAPIRotationManager :=
  match apis s !! service with
  | None => (Ok None, s)
  | Some [] => (Ok None, s)
  | Some _ =>
      let s1 :=
        if force_check || _needs_health_check s service now
        then _perform_health_check s service now
        else s in
      let l := default [] (apis s1 !! service) in
      match current_api_index s1 !! service with
      | None => (Raise (key_error service), s1)
      | Some start_index =>
          match scan_apis now start_index (seq 0 (length l)) l with
          | (Some (index, api), l') =>
              let api' := note_use now api in
              (Ok (Some api'),
               set_current_api_index
                 (<[service := index]> (current_api_index s1))
                 (set_apis
                    (<[service := <[Z.to_nat index := api']> l']> (apis s1))
                    s1))
          | (None, l') =>
              (Ok None, set_apis (<[service := l']> (apis s1)) s1)
          end
      end
  end.

(** The [for api in self.apis[service]: if api.name == api_name: ...; break]
    loop shared by [mark_api_error] and [mark_api_rate_limited]: the first
    record carrying the name is updated, later ones are not visited. *)
Fixpoint update_first_named (api_name : string)
    (f : APIEndpoint -> APIEndpoint) (l : list APIEndpoint)
    : list APIEndpoint :=
  match l with
  | [] => []
  | api :: l' =>
      if String.eqb (name api) api_name then f api :: l'
      else api :: update_first_named api_name f l'
  end.

(** Body of [mark_api_error] on the matching record. *)
Definition mark_error (api : APIEndpoint) : APIEndpoint :=
  let api1 := set_error_count (error_count api + 1) api in
  if 3 <? error_count api1 then set_status ERROR api1 else api1.

(** [mark_api_error]; [self.apis[service]] raises [KeyError] for an unknown
    service.  The [error] argument is not read by the method. *)
Definition mark_api_error (s : EnhancedAPIRotationManager)
    (service api_name : string)
    : PyResult unit * EnhancedAPIRotationManager :=
  match apis s !! service with
  | None => (Raise (key_error service), s)
  | Some l =>
      (Ok tt,
       set_apis
         (<[service := update_first_named api_name mark_error l]> (apis s)) s)
  end.

(** Body of [mark_api_rate_limited] on the matching record:
    [reset_time or (datetime.now() + timedelta(minutes=1))]. *)
Definition mark_rate_limited (reset_time : option Z) (now : Z)
    (api : APIEndpoint) : APIEndpoint :=
  set_rate_limit_reset (Some (default (now + minutes 1) reset_time))
    (set_status RATE_LIMITED api).

Definition mark_api_rate_limited (s : EnhancedAPIRotationManager)
    (service api_name : string) (reset_time : option Z) (now : Z)
    : PyResult unit * EnhancedAPIRotationManager :=
  match apis s !! service with
  | None => (Raise (key_error service), s)
  | Some l =>
      (Ok tt,
       set_apis
         (<[service :=
              update_first_named api_name (mark_rate_limited reset_time now) l]>
            (apis s)) s)
  end.

(** Body of the inner loop of [reset_api_errors]. *)
Definition reset_errors (api : APIEndpoint) : APIEndpoint :=
  let api1 := set_error_count 0 api in
  if status_eqb (status api1) ERROR then set_status ACTIVE api1 else api1.

(** [reset_api_errors]: [[service] if service else self.apis.keys()];
    a falsy [service] ([None] or ['']) resets every service. *)
Definition reset_api_errors (s : EnhancedAPIRotationManager)
    (service : option string)
    : PyResult unit * EnhancedAPIRotationManager :=
  if truthy service then
    let svc := default "" service in
    match apis s !! svc with
    | None => (Raise (key_error svc), s)
    | Some l => (Ok tt, set_apis (<[svc := reset_errors <$> l]> (apis s)) s)
    end
  else (Ok tt, set_apis ((fun l : list APIEndpoint => reset_errors <$> l) <$> apis s) s).

(** [key and key not in [placeholders..., None]]. *)
Definition configured (placeholders : list string) (key : option string)
    : bool :=
  match key with
  | Some k => negb (String.eqb k "") && negb (bool_decide (k ∈ placeholders))
  | None => false
  end.

(** [for i, key in enumerate(keys, 1): if ...: apis.append(APIEndpoint(
    name=f"{prefix}_{i}", api_key=key, base_url=url,
    max_requests_per_minute=cap))]. *)
Definition load_endpoints (prefix url : string) (cap : Z)
    (placeholders : list string) (keys : list (option string))
    : list APIEndpoint :=
  omap id
    (imap (fun (i : nat) (key : option string) =>
             if configured placeholders key
             then Some (new_endpoint (prefix +:+ "_" +:+ pretty (S i))
                          (default "" key) url cap)
             else None)
          keys).

(** [_load_api_configurations], starting from the seven empty pools that
    [__init__] installs.  Nothing in its body raises, so its [try/except]
    never fires. *)
Definition _load_api_configurations (env : gmap string string)
    : gmap string (list APIEndpoint) * gmap string Z :=
  let pools : gmap string (list APIEndpoint) :=
    <["youtube" :=
        load_endpoints "youtube" "https://www.googleapis.com/youtube/v3" 100
          ["your_youtube_key_1"] [getenv env "YOUTUBE_API_KEY"]]>
    (<["serpapi" :=
        load_endpoints "serper" "https://google.serper.dev/search" 100
          ["your_serpapi_key_1"] [getenv env "SERPER_API_KEY"]]>
    (<["exa" :=
        load_endpoints "exa" "https://api.exa.ai" 100
          ["your_exa_key_1"]
          [getenv env "EXA_API_KEY"; getenv env "EXA_API_KEY_1"]]>
    (<["tavily" :=
        load_endpoints "tavily" "https://api.tavily.com" 100
          ["your_tavily_key_1"] [getenv env "TAVILY_API_KEY"]]>
    (<["groq" :=
        load_endpoints "groq" "https://api.groq.com/openai/v1" 30
          ["your_groq_key_1"; "your_groq_key_2"]
          [getenv env "GROQ_API_KEY"; getenv env "GROQ_API_KEY_1"]]>
    (<["gemini" :=
        load_endpoints "gemini"
          "https://generativelanguage.googleapis.com/v1beta" 60
          ["your_gemini_key_1"; "your_gemini_key_2"]
          [getenv env "GEMINI_API_KEY"; getenv env "GEMINI_API_KEY_1"]]>
    (<["qwen" :=
        load_endpoints "qwen"
          (getenv_default env "OPENROUTER_BASE_URL"
             "https://openrouter.ai/api/v1") 100
          ["your_openrouter_key_1"; "your_openrouter_key_2"]
          [getenv env "OPENROUTER_API_KEY"; getenv env "OPENROUTER_API_KEY_1";
           getenv env "OPENROUTER_API_KEY_2"]]>
     ∅)))))) in
  (pools, (fun _ : list APIEndpoint => 0) <$> pools).

(** The services of the manager and, for each, the environment variables
    that [_load_api_configurations] reads its credentials from. *)
Definition services : list string :=
  ["qwen"; "gemini"; "groq"; "tavily"; "exa"; "serpapi"; "youtube"].

Definition credential_variables (service : string) : list string :=
  if String.eqb service "qwen" then
    ["OPENROUTER_API_KEY"; "OPENROUTER_API_KEY_1"; "OPENROUTER_API_KEY_2"]
  else if String.eqb service "gemini" then
    ["GEMINI_API_KEY"; "GEMINI_API_KEY_1"]
  else if String.eqb service "groq" then ["GROQ_API_KEY"; "GROQ_API_KEY_1"]
  else if String.eqb service "tavily" then ["TAVILY_API_KEY"]
  else if String.eqb service "exa" then ["EXA_API_KEY"; "EXA_API_KEY_1"]
  else if String.eqb service "serpapi" then ["SERPER_API_KEY"]
  else if String.eqb service "youtube" then ["YOUTUBE_API_KEY"]
  else [].

(** [__init__]: load the pools, then [_initialize_health_monitoring] sets
    every service's last sweep to ten minutes ago. *)
Definition __init__ (env : gmap string string) (now : Z)
    : EnhancedAPIRotationManager :=
  let '(pools, cursors) := _load_api_configurations env in
  mkManager pools cursors 300
    ((fun _ : list APIEndpoint => now - minutes 10) <$> pools).

(** *** Fallback between services *)

(** The table [fallback_order] of [get_fallback_model];
    [fallback_order.get(primary_service, [])]. *)
Definition fallback_order (primary_service : string) : list string :=
  if String.eqb primary_service "qwen" then ["gemini"; "groq"]
  else if String.eqb primary_service "gemini" then ["qwen"; "groq"]
  else if String.eqb primary_service "groq" then ["qwen"; "gemini"]
  else [].

(** The loop of [get_fallback_model] over the fallback services still to
    try.  An [APIEndpoint] object is always truthy, so [if api] tests for
    [None]. *)
Fixpoint try_fallbacks (s : EnhancedAPIRotationManager) (l : list string)
    (now : Z)
    : PyResult (option (string * APIEndpoint)) * EnhancedAPIRotationManager :=
  match l with
  | [] => (Ok None, s)
  | fallback_service :: l' =>
      match get_active_api s fallback_service false now with
      | (Raise e, s') => (Raise e, s')
      | (Ok (Some api), s') => (Ok (Some (fallback_service, api)), s')
      | (Ok None, s') => try_fallbacks s' l' now
      end
  end.

(** [get_fallback_model]; the pair [(None, None)] is [None] here. *)
Definition get_fallback_model (s : EnhancedAPIRotationManager)
    (primary_service : string) (now : Z)
    : PyResult (option (string * APIEndpoint)) * EnhancedAPIRotationManager :=
  try_fallbacks s (fallback_order primary_service) now.

(** *** Status report *)

(** [api.status.value]. *)
Definition status_value (v : APIStatus) : string :=
  match v with
  | ACTIVE => "active"
  | RATE_LIMITED => "rate_limited"
  | ERROR => "error"
  | OFFLINE => "offline"
  end.

(** One entry of the list ['apis'] of a service; [last_used] is kept as the
    timestamp that the report prints in ISO format. *)
Record APIReport := mkAPIReport {
  report_name : string;
  report_status : string;
  report_error_count : Z;
  report_requests_made : Z;
  report_last_used : option Z
}.

Record ServiceStatus := mkServiceStatus {
  total_apis : Z;
  active : Z;
  rate_limited : Z;
  error : Z;
  offline : Z;
  apis_report : list APIReport
}.

(** [service_status[api.status.value] += 1]: the counter is found by the
    text of the status. *)
Definition count_status (value : string) (st : ServiceStatus)
    : ServiceStatus :=
  if String.eqb value "active" then
    mkServiceStatus (total_apis st) (active st + 1) (rate_limited st)
      (error st) (offline st) (apis_report st)
  else if String.eqb value "rate_limited" then
    mkServiceStatus (total_apis st) (active st) (rate_limited st + 1)
      (error st) (offline st) (apis_report st)
  else if String.eqb value "error" then
    mkServiceStatus (total_apis st) (active st) (rate_limited st)
      (error st + 1) (offline st) (apis_report st)
  else if String.eqb value "offline" then
    mkServiceStatus (total_apis st) (active st) (rate_limited st)
      (error st) (offline st + 1) (apis_report st)
  else st.

(** Body of the inner loop of [get_api_status_report]. *)
Definition report_api (st : ServiceStatus) (api : APIEndpoint)
    : ServiceStatus :=
  let st1 := count_status (status_value (status api)) st in
  mkServiceStatus (total_apis st1) (active st1) (rate_limited st1)
    (error st1) (offline st1)
    (apis_report st1
     ++ [mkAPIReport (name api) (status_value (status api))
           (error_count api) (requests_made api) (last_used api)])%list.

Definition service_status (l : list APIEndpoint) : ServiceStatus :=
  foldl report_api (mkServiceStatus (Z.of_nat (length l)) 0 0 0 0 []) l.

(** [get_api_status_report]: the time of the report and the status of
    every service. *)
Definition get_api_status_report (s : EnhancedAPIRotationManager) (now : Z)
    : Z * gmap string ServiceStatus :=
  (now, service_status <$> apis s).

(** *** What a record is *)

(** The fields of a record that say which credential it is; the others are
    its health. *)
Definition identity (api : APIEndpoint) : string * string * string * Z :=
  (name api, api_key api, base_url api, max_requests_per_minute api).

(** The credentials of every pool, in order. *)
Definition credentials (s : EnhancedAPIRotationManager)
    : gmap string (list (string * string * string * Z)) :=
  (fun l : list APIEndpoint => identity <$> l) <$> apis s.

End Enhanced.

(** ** The key manager ([openrouter_api_manager.py]) *)

(** [str.lower()] and the substring test [needle in hay], on ASCII text. *)
Definition lower_ascii (c : ascii) : ascii :=
  let n := nat_of_ascii c in
  if (65 <=? n)%nat && (n <=? 90)%nat then ascii_of_nat (n + 32) else c.

Fixpoint lower (s : string) : string :=
  match s with
  | EmptyString => EmptyString
  | String c s' => String (lower_ascii c) (lower s')
  end.

Fixpoint contains (needle hay : string) : bool :=
  String.prefix needle hay
  || match hay with
     | EmptyString => false
     | String _ hay' => contains needle hay'
     end.

(** Python list indexing [l[i]]: a negative index counts from the end,
    anything outside [-len, len) raises [IndexError] (here [None]). *)
Definition py_index {A : Type} (l : list A) (i : Z) : option A :=
  if 0 <=? i then l !! Z.to_nat i
  else if - Z.of_nat (length l) <=? i then l !! Z.to_nat (Z.of_nat (length l) + i)
  else None.

Module OpenRouter.

Record KeyStats := mkKeyStats {
  requests : Z;
  errors : Z;
  last_used : option Z;
  credits_exhausted : bool;
  rate_limited : bool
}.

Record OpenRouterAPIManager := mkManager {
  base_url : string;
  api_keys : list string;
  current_key_index : Z;
  key_usage_stats : gmap string KeyStats;
  key_cooldowns : gmap string Z;
  max_retries : Z;
  retry_delay : Z
}.

Definition set_current_key_index (v : Z) (s : OpenRouterAPIManager)
    : OpenRouterAPIManager :=
  mkManager (base_url s) (api_keys s) v (key_usage_stats s) (key_cooldowns s)
    (max_retries s) (retry_delay s).

Definition set_key_usage_stats (v : gmap string KeyStats)
    (s : OpenRouterAPIManager) : OpenRouterAPIManager :=
  mkManager (base_url s) (api_keys s) (current_key_index s) v
    (key_cooldowns s) (max_retries s) (retry_delay s).

Definition set_key_cooldowns (v : gmap string Z) (s : OpenRouterAPIManager)
    : OpenRouterAPIManager :=
  mkManager (base_url s) (api_keys s) (current_key_index s)
    (key_usage_stats s) v (max_retries s) (retry_delay s).

Definition value_error (msg : string) : PyExc := mkPyExc ValueError 0 msg.
Definition index_error : PyExc :=
  mkPyExc IndexError 0 "list index out of range".

(** [_load_api_keys]: the main key, then [OPENROUTER_API_KEY_1] to
    [OPENROUTER_API_KEY_9]; no key at all raises [ValueError]. *)
Definition numbered_key_variable (i : nat) : string :=
  "OPENROUTER_API_KEY_" +:+ pretty i.

Definition key_variables : list string :=
  "OPENROUTER_API_KEY" :: (numbered_key_variable <$> seq 1 9).

Definition _load_api_keys (env : gmap string string) : PyResult (list string) :=
  let main_key := getenv env "OPENROUTER_API_KEY" in
  let keys0 := if truthy main_key then [default "" main_key] else [] in
  let keys :=
    foldl (fun (keys : list string) (i : nat) =>
             let key := getenv env (numbered_key_variable i) in
             if truthy key then (keys ++ [default "" key])%list else keys)
          keys0 (seq 1 9) in
  match keys with
  | [] => Raise (value_error
            "Nenhuma chave OpenRouter encontrada nas variáveis de ambiente")
  | _ => Ok keys
  end.

Definition new_stats : KeyStats := mkKeyStats 0 0 None false false.

(** [__init__]. *)
Definition __init__ (env : gmap string string)
    : PyResult OpenRouterAPIManager :=
  match _load_api_keys env with
  | Raise e => Raise e
  | Ok keys =>
      Ok (mkManager "https://openrouter.ai/api/v1" keys 0
            (foldl (fun (m : gmap string KeyStats) (key : string) =>
                      <[key := new_stats]> m) ∅ keys)
            ∅ 3 2)
  end.

(** [_rotate_to_next_key].  Every call site runs it on a non-empty key
    list. *)
Definition _rotate_to_next_key (s : OpenRouterAPIManager)
    : OpenRouterAPIManager :=
  set_current_key_index
    ((current_key_index s + 1) mod Z.of_nat (length (api_keys s))) s.

(** The fallback loop inside the scan:
    [for k in self.api_keys: if k not in self.key_cooldowns and not
    self.key_usage_stats[k]['credits_exhausted']: return k], ending in the
    [raise Exception(...)] that follows it.  [_notify_all_keys_exhausted],
    called just before, only writes to the log. *)
Definition all_exhausted_error : PyExc :=
  mkPyExc GenericException 0
    "Todas as chaves OpenRouter estão esgotadas ou em cooldown.".

Fixpoint first_not_exhausted (s : OpenRouterAPIManager) (l : list string)
    : PyResult string :=
  match l with
  | [] => Raise all_exhausted_error
  | k :: l' =>
      match key_cooldowns s !! k with
      | Some _ => first_not_exhausted s l'
      | None =>
          match key_usage_stats s !! k with
          | None => Raise (key_error k)
          | Some st =>
              if negb (credits_exhausted st) then Ok k
              else first_not_exhausted s l'
          end
      end
  end.

(** [min(self.api_keys, key=lambda k: self.key_usage_stats[k]['errors'])]:
    the first key with the fewest errors; [ValueError] on an empty list. *)
Fixpoint min_errors_from (stats : gmap string KeyStats) (best : string)
    (best_errors : Z) (l : list string) : PyResult string :=
  match l with
  | [] => Ok best
  | k :: l' =>
      match stats !! k with
      | None => Raise (key_error k)
      | Some st =>
          if errors st <? best_errors
          then min_errors_from stats k (errors st) l'
          else min_errors_from stats best best_errors l'
      end
  end.

Definition min_errors (stats : gmap string KeyStats) (l : list string)
    : PyResult string :=
  match l with
  | [] => Raise (value_error "min() arg is an empty sequence")
  | k :: l' =>
      match stats !! k with
      | None => Raise (key_error k)
      | Some st => min_errors_from stats k (errors st) l'
      end
  end.

(** Lines 81-84: the cooldown has expired; drop it and clear both flags. *)
Definition clear_cooldown (key : string) (st : KeyStats)
    (s : OpenRouterAPIManager) : OpenRouterAPIManager :=
  set_key_usage_stats
    (<[key := mkKeyStats (requests st) (errors st) (last_used st) false false]>
       (key_usage_stats s))
    (set_key_cooldowns (delete key (key_cooldowns s)) s).

(** The [while attempts < len(self.api_keys)] loop of
    [_get_next_available_key].  [remaining] is
    [len(self.api_keys) - attempts]: every iteration that goes round again
    adds one to [attempts], so the loop condition fails exactly when
    [remaining] is zero, where the code after the loop runs. *)
Fixpoint scan_keys (now initial_index : Z) (remaining : nat)
    (s : OpenRouterAPIManager) : PyResult string * OpenRouterAPIManager :=
  match remaining with
  | O => (min_errors (key_usage_stats s) (api_keys s), s)
  | S remaining' =>
      match py_index (api_keys s) (current_key_index s) with
      | None => (Raise index_error, s)
      | Some key =>
          match key_usage_stats s !! key with
          | None => (Raise (key_error key), s)
          | Some stats =>
              let in_cooldown :=
                match key_cooldowns s !! key with
                | Some cooldown_until => now <? cooldown_until
                | None => false
                end in
              if in_cooldown
              then scan_keys now initial_index remaining'
                     (_rotate_to_next_key s)
              else
                let '(stats1, s1) :=
                  match key_cooldowns s !! key with
                  | Some _ =>
                      (mkKeyStats (requests stats) (errors stats)
                         (last_used stats) false false,
                       clear_cooldown key stats s)
                  | None => (stats, s)
                  end in
                if negb (credits_exhausted stats1)
                   && negb (rate_limited stats1)
                then (Ok key, s1)
                else
                  let s2 := _rotate_to_next_key s1 in
                  if Nat.eqb remaining' 0
                     && (current_key_index s2 =? initial_index)
                  then (first_not_exhausted s2 (api_keys s2), s2)
                  else scan_keys now initial_index remaining' s2
          end
      end
  end.

(** [_get_next_available_key]. *)
Definition _get_next_available_key (s : OpenRouterAPIManager) (now : Z)
    : PyResult string * OpenRouterAPIManager :=
  scan_keys now (current_key_index s) (length (api_keys s)) s.

(** The three classes that the [if]/[elif]/[else] of [_handle_api_error]
    tells apart, from [str(error).lower()]. *)
Inductive ErrorClass := PaymentRequired | RateLimited | OtherError.

Definition classify (error : PyExc) : ErrorClass :=
  let error_str := lower (exc_message error) in
  if contains "402" error_str || contains "credit" error_str
     || contains "payment" error_str
  then PaymentRequired
  else if contains "429" error_str || contains "rate limit" error_str
  then RateLimited
  else OtherError.

Definition cooldown_of (c : ErrorClass) : Z :=
  match c with
  | PaymentRequired => hours 1
  | RateLimited => minutes 5
  | OtherError => seconds 30
  end.

(** [_handle_api_error]. *)
Definition _handle_api_error (s : OpenRouterAPIManager) (key : string)
    (error : PyExc) (now : Z) : PyResult unit * OpenRouterAPIManager :=
  match key_usage_stats s !! key with
  | None => (Raise (key_error key), s)
  | Some stats =>
      let stats1 :=
        mkKeyStats (requests stats) (errors stats + 1) (last_used stats)
          (credits_exhausted stats) (rate_limited stats) in
      let stats2 :=
        match classify error with
        | PaymentRequired =>
            mkKeyStats (requests stats1) (errors stats1) (last_used stats1)
              true (rate_limited stats1)
        | RateLimited =>
            mkKeyStats (requests stats1) (errors stats1) (last_used stats1)
              (credits_exhausted stats1) true
        | OtherError => stats1
        end in
      (Ok tt,
       set_key_cooldowns
         (<[key := now + cooldown_of (classify error)]> (key_cooldowns s))
         (set_key_usage_stats (<[key := stats2]> (key_usage_stats s)) s))
  end.

(** [stats.update({'credits_exhausted': False, 'rate_limited': False})]. *)
Definition reset_flags (st : KeyStats) : KeyStats :=
  mkKeyStats (requests st) (errors st) (last_used st) false false.

(** The loop [for key in self.api_keys: self.key_usage_stats[key].update(
    ...)] of the reset of all keys; a [KeyError] stops it where it is. *)
Fixpoint reset_all_flags (m : gmap string KeyStats) (l : list string)
    : option PyExc * gmap string KeyStats :=
  match l with
  | [] => (None, m)
  | key :: l' =>
      match m !! key with
      | None => (Some (key_error key), m)
      | Some st => reset_all_flags (<[key := reset_flags st]> m) l'
      end
  end.

(** [reset_key_status]; an index out of range is logged and changes
    nothing. *)
Definition reset_key_status (s : OpenRouterAPIManager) (key_index : option Z)
    : PyResult unit * OpenRouterAPIManager :=
  match key_index with
  | Some i =>
      if (0 <=? i) && (i <? Z.of_nat (length (api_keys s))) then
        match api_keys s !! Z.to_nat i with
        | None => (Ok tt, s)
        | Some key =>
            match key_usage_stats s !! key with
            | None => (Raise (key_error key), s)
            | Some st =>
                (Ok tt,
                 set_key_cooldowns (delete key (key_cooldowns s))
                   (set_key_usage_stats
                      (<[key := reset_flags st]> (key_usage_stats s)) s))
            end
        end
      else (Ok tt, s)
  | None =>
      match reset_all_flags (key_usage_stats s) (api_keys s) with
      | (Some e, m) => (Raise e, set_key_usage_stats m s)
      | (None, m) => (Ok tt, set_key_cooldowns ∅ (set_key_usage_stats m s))
      end
  end.

(** *** [chat_completion] *)

(** What [client.chat.completions.create] did on one attempt. *)
Inductive Outcome (R : Type) :=
| Response (r : R)
| Throws (e : PyExc).
Arguments Response {R} r.
Arguments Throws {R} e.

(** The world one call of [chat_completion] runs in: what the provider
    answers on attempt [i] to a request made with a given key, and the
    clock when the key of attempt [i] is selected and when its failure is
    handled.  Building the client object is taken not to fail. *)
Record World (R : Type) := mkWorld {
  provider : Z -> string -> Outcome R;
  t_select : Z -> Z;
  t_report : Z -> Z
}.
Arguments provider {R} w.
Arguments t_select {R} w.
Arguments t_report {R} w.

(** What one call of [chat_completion] leaves behind: its result, the
    manager, and the keys with which a request was sent, oldest first. *)
Record Run (R : Type) := mkRun {
  result : PyResult R;
  final : OpenRouterAPIManager;
  sent : list string
}.
Arguments result {R} r.
Arguments final {R} r.
Arguments sent {R} r.
Arguments mkRun {R} result final sent.

Definition unbound_api_key : PyExc :=
  mkPyExc UnboundLocalError 0
    "cannot access local variable 'api_key' where it is not associated with a value".

Definition raise_none : PyExc :=
  mkPyExc TypeError 0 "exceptions must derive from BaseException".

Definition is_status_error (e : PyExc) : bool :=
  match exc_kind e with
  | APIStatusError => true
  | _ => false
  end.

(** [stats['requests'] += 1; stats['last_used'] = datetime.now()]. *)
Definition note_request (key : string) (stats : KeyStats) (now : Z)
    (s : OpenRouterAPIManager) : OpenRouterAPIManager :=
  set_key_usage_stats
    (<[key :=
         mkKeyStats (requests stats + 1) (errors stats) (Some now)
           (credits_exhausted stats) (rate_limited stats)]>
       (key_usage_stats s)) s.

(** The test of the first [except] clause: an [openai.APIStatusError]
    whose [status_code] is 402. *)
Definition aborts (e : PyExc) : bool :=
  is_status_error e && (exc_status_code e =? 402).

Section chat_completion.
Context {R : Type} (w : World R).

(** The [for attempt in range(self.max_retries)] loop; [remaining] is
    [max_retries - attempt].  [api_key] and [last_error] are the local
    variables of the method, [api_key] being unbound ([None]) until a key
    has been selected.  The [time.sleep] between attempts has no effect on
    the manager. *)
Fixpoint attempts (remaining : nat) (attempt : Z) (api_key : option string)
    (last_error : option PyExc) (trace : list string)
    (s : OpenRouterAPIManager) : Run R :=
  match remaining with
  | O =>
      (* [raise last_error] after the loop *)
      mkRun (Raise (default raise_none last_error)) s trace
  | S remaining' =>
      (* the two [except] clauses: record the error against [api_key],
         propagate a 402 status error, otherwise go round again *)
      let handle (api_key : option string) (trace : list string) (e : PyExc)
          (s : OpenRouterAPIManager) : Run R :=
        match api_key with
        | None => mkRun (Raise unbound_api_key) s trace
        | Some key =>
            match _handle_api_error s key e (t_report w attempt) with
            | (Raise e', s') => mkRun (Raise e') s' trace
            | (Ok _, s') =>
                if aborts e
                then mkRun (Raise e) s' trace
                else attempts remaining' (attempt + 1) api_key (Some e)
                       trace s'
            end
        end in
      match _get_next_available_key s (t_select w attempt) with
      | (Raise e, s1) => handle api_key trace e s1
      | (Ok key, s1) =>
          match key_usage_stats s1 !! key with
          | None => handle (Some key) trace (key_error key) s1
          | Some stats =>
              let s2 := note_request key stats (t_select w attempt) s1 in
              match provider w attempt key with
              | Response r =>
                  mkRun (Ok r) (_rotate_to_next_key s2) (trace ++ [key])%list
              | Throws e => handle (Some key) (trace ++ [key])%list e s2
              end
          end
      end
  end.

(** [chat_completion]. *)
Definition chat_completion (s : OpenRouterAPIManager) : Run R :=
  attempts (Z.to_nat (max_retries s)) 0 None None [] s.
End chat_completion.

(** *** States the manager can be in *)

(** A manager as the operations keep it: some key is loaded, the cursor
    points into the key list, the statistics table has exactly the loaded
    keys, and a key flagged as out of credits or rate limited has a
    cooldown entry. *)
Record well_formed (s : OpenRouterAPIManager) : Prop := mkWellFormed {
  wf_keys : api_keys s ≠ [];
  wf_index : 0 <= current_key_index s < Z.of_nat (length (api_keys s));
  wf_stats : ∀ k, is_Some (key_usage_stats s !! k) ↔ k ∈ api_keys s;
  wf_flags : ∀ k st, key_usage_stats s !! k = Some st →
             credits_exhausted st || rate_limited st = true →
             is_Some (key_cooldowns s !! k)
}.

(** Every cooldown in the table ends at most an hour after [t]. *)
Definition cooldowns_within (t : Z) (s : OpenRouterAPIManager) : Prop :=
  ∀ k until, key_cooldowns s !! k = Some until → until <= t + hours 1.

(** [reachable t s]: the manager [s] results from construction followed by
    any sequence of the manager's operations, the last clock reading being
    [t]; the clock never goes back. *)
Inductive reachable : Z -> OpenRouterAPIManager -> Prop :=
| reach_init env s t :
    __init__ env = Ok s → reachable t s
| reach_select t s now :
    reachable t s → t <= now →
    reachable now (snd (_get_next_available_key s now))
| reach_report t s now key e :
    reachable t s → t <= now →
    reachable now (snd (_handle_api_error s key e now))
| reach_request t s now key stats :
    reachable t s → t <= now → key_usage_stats s !! key = Some stats →
    reachable now (note_request key stats now s)
| reach_rotate t s :
    reachable t s → reachable t (_rotate_to_next_key s)
| reach_reset t s key_index :
    reachable t s → reachable t (snd (reset_key_status s key_index)).

(** *** Status report *)

(** One entry of ['keys_status'].  [last_used] and [cooldown_until] are
    kept as the timestamps that the report prints in ISO format;
    [cooldown_until] is present only for a key of the cooldown table. *)
Record KeyStatus := mkKeyStatus {
  index : Z;
  key_preview : string;
  status_requests : Z;
  status_errors : Z;
  status_last_used : option Z;
  status_credits_exhausted : bool;
  status_rate_limited : bool;
  in_cooldown : bool;
  available : bool;
  cooldown_until : option Z
}.

(** Python slices a [str] by code point.  The strings of this development
    hold text as its UTF-8 bytes, which is what [os.getenv] decodes; a byte
    that starts no well-formed UTF-8 sequence is decoded (by the
    [surrogateescape] error handler of [os.environ]) to a code point of its
    own.  [characters] cuts a string into the byte sequences of its code
    points. *)
Definition byte_value (b : ascii) : Z := Z.of_N (N_of_ascii b).

Definition between (lo hi : Z) (b : ascii) : bool :=
  (lo <=? byte_value b) && (byte_value b <=? hi).

(** The number of bytes of the code point at the head of [s]: the length
    of the well-formed UTF-8 sequence that starts there (two to four bytes
    with the ranges of the Unicode Standard, which exclude over-long forms,
    surrogates and values above U+10FFFF), and 1 for any other byte. *)
Definition char_width (s : string) : nat :=
  match s with
  | EmptyString => 0%nat
  | String b0 s1 =>
      let within lo hi (i : nat) :=
        from_option (between lo hi) false (String.get i s1) in
      let tail := within 0x80 0xBF in
      if between 0xC2 0xDF b0 && tail 0%nat then 2%nat
      else if (between 0xE0 0xE0 b0 && within 0xA0 0xBF 0%nat
               || between 0xE1 0xEC b0 && tail 0%nat
               || between 0xED 0xED b0 && within 0x80 0x9F 0%nat
               || between 0xEE 0xEF b0 && tail 0%nat)
              && tail 1%nat
      then 3%nat
      else if (between 0xF0 0xF0 b0 && within 0x90 0xBF 0%nat
               || between 0xF1 0xF3 b0 && tail 0%nat
               || between 0xF4 0xF4 b0 && within 0x80 0x8F 0%nat)
              && tail 1%nat && tail 2%nat
      then 4%nat
      else 1%nat
  end.

(** The code points of [s], once the first [skip] bytes, which belong to
    the code point begun before, are passed. *)
Fixpoint characters_from (skip : nat) (s : string) : list string :=
  match s with
  | EmptyString => []
  | String _ rest =>
      match skip with
      | S k => characters_from k rest
      | O =>
          String.substring 0 (char_width s) s
          :: characters_from (char_width s - 1) rest
      end
  end.

Definition characters (s : string) : list string := characters_from 0 s.

Definition join (l : list string) : string :=
  foldr String.append EmptyString l.

(** [s[:n]] and [s[-n:]], for a positive [n]. *)
Definition first_chars (n : nat) (s : string) : string :=
  join (take n (characters s)).

Definition last_chars (n : nat) (s : string) : string :=
  join (drop (length (characters s) - n) (characters s)).

(** [f"{key[:10]}...{key[-4:]}"]. *)
Definition preview (key : string) : string :=
  first_chars 10 key +:+ "..." +:+ last_chars 4 key.

(** What is left of a string after its first [n] bytes, and the strings
    made of ASCII characters only. *)
Fixpoint string_drop (n : nat) (s : string) : string :=
  match n, s with
  | S k, String _ rest => string_drop k rest
  | _, _ => s
  end.

Fixpoint ascii_only (s : string) : bool :=
  match s with
  | EmptyString => true
  | String b rest => (byte_value b <? 0x80) && ascii_only rest
  end.

Definition key_status (s : OpenRouterAPIManager) (i : Z) (key : string)
    (stats : KeyStats) : KeyStatus :=
  let cooling := bool_decide (is_Some (key_cooldowns s !! key)) in
  mkKeyStatus i (preview key) (requests stats) (errors stats)
    (last_used stats) (credits_exhausted stats) (rate_limited stats)
    cooling
    (negb (credits_exhausted stats) && negb (rate_limited stats)
     && negb cooling)
    (key_cooldowns s !! key).

(** The loop [for i, key in enumerate(self.api_keys)] of
    [get_api_status], from index [i] on. *)
Fixpoint keys_status_from (s : OpenRouterAPIManager) (i : Z)
    (l : list string) : PyResult (list KeyStatus) :=
  match l with
  | [] => Ok []
  | key :: l' =>
      match key_usage_stats s !! key with
      | None => Raise (key_error key)
      | Some stats =>
          match keys_status_from s (i + 1) l' with
          | Raise e => Raise e
          | Ok rest => Ok (key_status s i key stats :: rest)
          end
      end
  end.

(** The part of ['summary'] that is made of integers and text; its
    ['error_rate'], a floating-point percentage computed from
    [total_errors] and [total_requests], is left out. *)
Record Summary := mkSummary {
  total_requests : Z;
  total_errors : Z;
  available_keys : Z;
  health_status : string
}.

Record StatusReport := mkStatusReport {
  total_keys : Z;
  report_current_key_index : Z;
  keys_status : list KeyStatus;
  summary : Summary
}.

(** [sum(stats['requests'] for stats in self.key_usage_stats.values())]
    and the same for the errors. *)
Definition sum_requests (m : gmap string KeyStats) : Z :=
  map_fold (fun (_ : string) (stats : KeyStats) (acc : Z) =>
              acc + requests stats) 0 m.

Definition sum_errors (m : gmap string KeyStats) : Z :=
  map_fold (fun (_ : string) (stats : KeyStats) (acc : Z) =>
              acc + errors stats) 0 m.

(** [get_api_status]. *)
Definition get_api_status (s : OpenRouterAPIManager)
    : PyResult StatusReport :=
  match keys_status_from s 0 (api_keys s) with
  | Raise e => Raise e
  | Ok statuses =>
      let n := Z.of_nat (length (filter (fun k => available k = true)
                                   statuses)) in
      Ok (mkStatusReport (Z.of_nat (length (api_keys s)))
            (current_key_index s) statuses
            (mkSummary (sum_requests (key_usage_stats s))
               (sum_errors (key_usage_stats s)) n
               (if 0 <? n then "healthy" else "degraded")))
  end.

(** A key that the scan of [_get_next_available_key] skips at [now]: it
    has a cooldown entry that has not run out. *)
Definition cooling_at (s : OpenRouterAPIManager) (now : Z) (key : string)
    : Prop :=
  ∃ until, key_cooldowns s !! key = Some until ∧ now < until.

(** The non-empty values of the key variables, in the order of
    [key_variables]. *)
Definition configured_keys (env : gmap string string) : list string :=
  omap (fun v => if truthy (getenv env v) then getenv env v else None)
    key_variables.

(** The key that the scan looks at after [j] rotations. *)
Definition key_at (s : OpenRouterAPIManager) (j : nat) : option string :=
  api_keys s
  !! Z.to_nat ((current_key_index s + Z.of_nat j)
               mod Z.of_nat (length (api_keys s))).

End OpenRouter.

(** ** Concrete managers used in the examples *)

Module Examples.

Import Enhanced.

(** A [qwen] pool of two fresh endpoints, cursor on the first, swept at
    time 0. *)
Definition endpoint_A : APIEndpoint :=
  new_endpoint "qwen_1" "sk-or-A" "https://openrouter.ai/api/v1" 100.
Definition endpoint_B : APIEndpoint :=
  new_endpoint "qwen_2" "sk-or-B" "https://openrouter.ai/api/v1" 100.

Definition two_endpoints : EnhancedAPIRotationManager :=
  Enhanced.mkManager (<["qwen" := [endpoint_A; endpoint_B]]> ∅)
    (<["qwen" := 0]> ∅) 300 (<["qwen" := 0]> ∅).

(** An endpoint that has served as many requests as its cap allows and
    has never failed. *)
Definition endpoint_at_cap : APIEndpoint :=
  set_requests_made 100 endpoint_A.

Definition one_at_cap : EnhancedAPIRotationManager :=
  Enhanced.mkManager (<["qwen" := [endpoint_at_cap]]> ∅)
    (<["qwen" := 0]> ∅) 300 (<["qwen" := 0]> ∅).

(** A rate-limited endpoint whose limit ended at time 100. *)
Definition endpoint_limited : APIEndpoint :=
  set_requests_made 7
    (set_rate_limit_reset (Some 100) (set_status RATE_LIMITED endpoint_A)).

(** An endpoint that has failed five times. *)
Definition endpoint_failing : APIEndpoint :=
  set_status ERROR (set_error_count 5 endpoint_A).

Definition one_failing : EnhancedAPIRotationManager :=
  Enhanced.mkManager (<["qwen" := [endpoint_failing]]> ∅)
    (<["qwen" := 0]> ∅) 300 (<["qwen" := 0]> ∅).

(** Pools with an endpoint taken offline. *)
Definition endpoint_offline : APIEndpoint := set_status OFFLINE endpoint_A.

Definition only_offline : EnhancedAPIRotationManager :=
  Enhanced.mkManager (<["qwen" := [endpoint_offline]]> ∅)
    (<["qwen" := 0]> ∅) 300 (<["qwen" := 0]> ∅).

Definition offline_then_B : EnhancedAPIRotationManager :=
  Enhanced.mkManager (<["qwen" := [endpoint_offline; endpoint_B]]> ∅)
    (<["qwen" := 0]> ∅) 300 (<["qwen" := 0]> ∅).

(** An endpoint taken offline that has already failed three times. *)
Definition endpoint_offline_failing : APIEndpoint :=
  set_error_count 3 endpoint_offline.

Definition offline_failing_then_B : EnhancedAPIRotationManager :=
  Enhanced.mkManager (<["qwen" := [endpoint_offline_failing; endpoint_B]]> ∅)
    (<["qwen" := 0]> ∅) 300 (<["qwen" := 0]> ∅).

(** A pool with one endpoint in each state that [reset_api_errors] has to
    tell apart. *)
Definition mixed_pool : EnhancedAPIRotationManager :=
  Enhanced.mkManager
    (<["qwen" := [endpoint_failing; endpoint_limited; endpoint_offline]]> ∅)
    (<["qwen" := 0]> ∅) 300 (<["qwen" := 0]> ∅).

(** An environment with the second EXA key only, a placeholder for Gemini
    and one Groq key. *)
Definition partial_env : gmap string string :=
  <["GROQ_API_KEY" := "gsk-1"]>
    (<["GEMINI_API_KEY" := "your_gemini_key_1"]>
       (<["EXA_API_KEY_1" := "exa-2"]> ∅)).

(** Three model services: the only [qwen] endpoint is offline, [gemini]
    has no endpoint, [groq] has a fresh one. *)
Definition endpoint_G : APIEndpoint :=
  new_endpoint "groq_1" "gsk-1" "https://api.groq.com/openai/v1" 30.

Definition three_services : EnhancedAPIRotationManager :=
  Enhanced.mkManager
    (<["groq" := [endpoint_G]]>
       (<["gemini" := []]> (<["qwen" := [endpoint_offline]]> ∅)))
    (<["groq" := 0]> (<["gemini" := 0]> (<["qwen" := 0]> ∅)))
    300
    (<["groq" := 0]> (<["gemini" := 0]> (<["qwen" := 0]> ∅))).

(** A manager built at time 0 from an environment with one OpenRouter
    key.  Its [qwen] endpoint serves a request at time 10, is reported rate
    limited until time 100 at time 20, and is then reported failing six
    times.  The errors are never reset. *)
Definition failing_after_rate_limit : EnhancedAPIRotationManager :=
  let s0 := Enhanced.__init__ (<["OPENROUTER_API_KEY" := "sk-or-A"]> ∅) 0 in
  let s1 := snd (get_active_api s0 "qwen" false 10) in
  let s2 := snd (mark_api_rate_limited s1 "qwen" "qwen_1" (Some 100) 20) in
  Nat.iter 6 (fun s => snd (mark_api_error s "qwen" "qwen_1")) s2.

(** Managers of the key manager: one and two configured keys. *)
Definition one_key_env : gmap string string :=
  <["OPENROUTER_API_KEY" := "sk-or-A"]> ∅.

Definition two_keys_env : gmap string string :=
  <["OPENROUTER_API_KEY_1" := "sk-or-B"]> one_key_env.

Definition one_key : OpenRouter.OpenRouterAPIManager :=
  OpenRouter.mkManager "https://openrouter.ai/api/v1" ["sk-or-A"] 0
    (<["sk-or-A" := OpenRouter.new_stats]> ∅) ∅ 3 2.

Definition two_keys : OpenRouter.OpenRouterAPIManager :=
  OpenRouter.mkManager "https://openrouter.ai/api/v1" ["sk-or-A"; "sk-or-B"] 0
    (<["sk-or-B" := OpenRouter.new_stats]>
       (<["sk-or-A" := OpenRouter.new_stats]> ∅)) ∅ 3 2.

(** Failures as the provider client raises them. *)
Definition timeout_error : PyExc :=
  mkPyExc GenericException 0 "Request timed out.".


Definition status_402 : PyExc :=
  mkPyExc APIStatusError 402 "Error code: 402 - Payment Required".

Definition status_429 : PyExc :=
  mkPyExc APIStatusError 429 "Error code: 429 - Rate limit exceeded".

(** The single key has failed with a timeout at time 1000: it is in
    cooldown until 1030. *)
Definition one_key_cooling : OpenRouter.OpenRouterAPIManager :=
  snd (OpenRouter._handle_api_error one_key "sk-or-A" timeout_error 1000).

(** Both keys are in cooldown at time 1000: the first after timeouts at 980
    and 1000, the second after a 402 at 990. *)
Definition two_keys_cooling : OpenRouter.OpenRouterAPIManager :=
  snd (OpenRouter._handle_api_error
         (snd (OpenRouter._handle_api_error
                 (snd (OpenRouter._handle_api_error two_keys "sk-or-A"
                         timeout_error 980))
                 "sk-or-B" status_402 990))
         "sk-or-A" timeout_error 1000).


(** A provider that always fails with the same error. *)
Definition always_failing (e : PyExc) : OpenRouter.World string :=
  OpenRouter.mkWorld string
    (fun _ _ => OpenRouter.Throws e)
    (fun attempt => 1000 + 10 * attempt)
    (fun attempt => 1005 + 10 * attempt).

(** The first of two keys has just hit a rate limit at time 1000. *)
Definition first_key_cooling : OpenRouter.OpenRouterAPIManager :=
  snd (OpenRouter._handle_api_error two_keys "sk-or-A" status_429 1000).

(** A provider that fails the first request with a timeout and answers
    every later one; attempts are ten seconds apart. *)
Definition timeout_then_answer : OpenRouter.World string :=
  OpenRouter.mkWorld string
    (fun attempt _ =>
       if attempt =? 0 then OpenRouter.Throws timeout_error
       else OpenRouter.Response "ok")
    (fun attempt => 1000 + 10 * attempt)
    (fun attempt => 1005 + 10 * attempt).

End Examples.

(** * Properties of the multi-service manager *)

Section enhanced_facts.
Import Enhanced.

Lemma steady_available api now :
  steady api → _is_api_available api now = (true, api).
Proof.
  intros [Hs | [Hs Hc]]; unfold _is_api_available; rewrite Hs; simpl; [done|].
  by apply Z.ltb_ge in Hc as ->.
Qed.

Lemma available_steady api now api' :
  _is_api_available api now = (true, api') → steady api'.
Proof.
  unfold _is_api_available, steady.
  destruct (status api) eqn:Hs; simpl; try discriminate.
  - intros [= <-]. by left.
  - destruct (reset_passed api now); [|discriminate].
    intros [= <-]. by left.
  - destruct (5 <? error_count api) eqn:Hc; [discriminate|].
    intros [= <-]. right. split; [done|]. by apply Z.ltb_ge.
Qed.

Lemma unavailable_unchanged api now api' :
  _is_api_available api now = (false, api') → api' = api.
Proof.
  unfold _is_api_available.
  repeat case_match; intros [= <-]; done.
Qed.

Lemma note_use_steady now api : steady api → steady (note_use now api).
Proof. done. Qed.

(** The scan returns the first record of its range that the lazy
    evaluation accepts; records it rejects are left as they were. *)
Lemma scan_apis_some now start rng l index api' l' :
  scan_apis now start rng l = (Some (index, api'), l') →
  ∃ i api,
    i ∈ rng ∧
    index = (start + Z.of_nat i) mod Z.of_nat (length l) ∧
    l !! Z.to_nat index = Some api ∧
    _is_api_available api now = (true, api') ∧
    l' = <[Z.to_nat index := api']> l.
Proof.
  revert l. induction rng as [|i rng IH]; intros l; simpl; [discriminate|].
  destruct (l !! _) as [api|] eqn:Hl; [|discriminate].
  destruct (_is_api_available api now) as [[] api1] eqn:Hav.
  - intros [= <- <- <-]. exists i, api. repeat split; try done. left.
  - apply unavailable_unchanged in Hav as ->.
    rewrite list_insert_id by done. intros H.
    destruct (IH _ H) as (i' & api0 & ? & ? & ? & ? & ?).
    exists i', api0. repeat split; try done. by right.
Qed.

Lemma scan_apis_none now start rng l l' :
  scan_apis now start rng l = (None, l') → l' = l.
Proof.
  revert l. induction rng as [|i rng IH]; intros l; simpl.
  - by intros [= <-].
  - destruct (l !! _) as [api|] eqn:Hl; [|by intros [= <-]].
    destruct (_is_api_available api now) as [[] api1] eqn:Hav; [discriminate|].
    apply unavailable_unchanged in Hav as ->.
    rewrite list_insert_id by done. apply IH.
Qed.

(** A steady record under the first index of the range is returned at
    once. *)
Lemma scan_apis_first now start i rng l api :
  l !! Z.to_nat ((start + Z.of_nat i) mod Z.of_nat (length l)) = Some api →
  steady api →
  scan_apis now start (i :: rng) l
  = (Some ((start + Z.of_nat i) mod Z.of_nat (length l), api), l).
Proof.
  intros Hl Hst. simpl. rewrite Hl, (steady_available _ _ Hst).
  by rewrite list_insert_id.
Qed.

Lemma get_active_api_some s service force now api s' :
  get_active_api s service force now = (Ok (Some api), s') →
  ∃ index l,
    current_api_index s' !! service = Some index ∧
    apis s' !! service = Some l ∧
    0 <= index < Z.of_nat (length l) ∧
    l !! Z.to_nat index = Some api ∧
    steady api ∧
    last_health_check s' !! service
    = last_health_check
        (if force || _needs_health_check s service now
         then _perform_health_check s service now else s) !! service.
Proof.
  unfold get_active_api.
  destruct (apis s !! service) as [[|a0 l0]|] eqn:Hs; try discriminate.
  set (s1 := if force || _needs_health_check s service now
             then _perform_health_check s service now else s).
  assert (∃ l1, apis s1 !! service = Some l1 ∧ length l1 = S (length l0))
    as (l1 & Hl1 & Hlen).
  { subst s1. destruct (force || _); [|by exists (a0 :: l0)].
    unfold _perform_health_check. rewrite Hs. simpl.
    rewrite lookup_insert_eq. eexists. split; [done|].
    simpl. f_equal. apply length_fmap. }
  rewrite Hl1. simpl.
  destruct (current_api_index s1 !! service) as [start|]; [|discriminate].
  destruct (scan_apis _ _ _ _) as [[[index api1]|] l'] eqn:Hscan;
    [|discriminate].
  intros [= <- <-].
  apply scan_apis_some in Hscan as (i & api0 & _ & Hidx & Hl & Hav & ->).
  assert (0 <= index < Z.of_nat (length l1)) as Hrange.
  { subst index. apply Z.mod_pos_bound. lia. }
  exists index, (<[Z.to_nat index := note_use now api1]>
                   (<[Z.to_nat index := api1]> l1)).
  simpl. rewrite !lookup_insert_eq, !length_insert.
  repeat split; try done; try lia.
  - apply list_lookup_insert_eq. rewrite length_insert. lia.
  - apply note_use_steady. by eapply available_steady.
Qed.



(** ** Exhausted pools *)

Lemma scan_apis_exhausted now start rng l :
  (∀ api, api ∈ l → fst (_is_api_available api now) = false) →
  scan_apis now start rng l = (None, l).
Proof.
  intros Hall. induction rng as [|i rng IH]; simpl; [done|].
  destruct (l !! _) as [api|] eqn:Hl; [|done].
  pose proof (Hall api (list_elem_of_lookup_2 _ _ _ Hl)) as Hav.
  destruct (_is_api_available api now) as [ok api'] eqn:Heq.
  simpl in Hav. subst ok.
  apply unavailable_unchanged in Heq as ->.
  by rewrite list_insert_id.
Qed.

(** When, after the sweep if one runs, the lazy evaluation rejects every
    record of the pool, [get_active_api] answers [None]. *)
Lemma get_active_api_exhausted s service force now :
  let s1 := if force || _needs_health_check s service now
            then _perform_health_check s service now else s in
  is_Some (current_api_index s1 !! service) →
  (∀ l api, apis s1 !! service = Some l → api ∈ l →
            fst (_is_api_available api now) = false) →
  fst (get_active_api s service force now) = Ok None.
Proof.
  intros s1 [start Hc] Hall. unfold get_active_api.
  destruct (apis s !! service) as [[|a0 l0]|] eqn:Hs; try done.
  fold s1. rewrite Hc.
  destruct (apis s1 !! service) as [l1|] eqn:Hl1; simpl.
  - rewrite scan_apis_exhausted; [done|]. intros api. by apply Hall.
  - done.
Qed.

(** ** The request cap *)

Lemma health_check_api_at_cap now api :
  status api ≠ OFFLINE →
  max_requests_per_minute api
  <= (if reset_passed api now then 0 else requests_made api) →
  status (health_check_api now api) = RATE_LIMITED ∧
  rate_limit_reset (health_check_api now api) = Some (now + minutes 1) ∧
  error_count (health_check_api now api) = error_count api.
Proof.
  intros Hoff Hcap. unfold health_check_api.
  destruct (status api) eqn:Hs; try done; simpl;
    destruct (reset_passed api now); simpl;
    (apply Z.leb_le in Hcap as ->); done.
Qed.

Lemma rate_limited_unavailable api now :
  status api = RATE_LIMITED →
  reset_passed api now = false →
  _is_api_available api now = (false, api).
Proof.
  intros Hs Hr. unfold _is_api_available. by rewrite Hs, Hr.
Qed.

(** C4 (counterexample).  An ACTIVE endpoint whose request counter equals
    its cap, with no reported error, is found usable by the lazy
    evaluation and is left as it was. *)
Lemma C4_counterexample_lazy_evaluation_ignores_cap :
  max_requests_per_minute Examples.endpoint_at_cap
  <= requests_made Examples.endpoint_at_cap ∧
  error_count Examples.endpoint_at_cap = 0 ∧
  _is_api_available Examples.endpoint_at_cap 50
  = (true, Examples.endpoint_at_cap) ∧
  status (snd (_is_api_available Examples.endpoint_at_cap 50)) = ACTIVE ∧
  rate_limit_reset (snd (_is_api_available Examples.endpoint_at_cap 50))
  = None.
Proof. repeat split; vm_compute; congruence. Qed.

(** C4 (amended).  The cap is enforced by the health sweep only.  When
    [_perform_health_check] visits a record that is not OFFLINE and whose
    request counter (zeroed first if its previous limit has expired) has
    reached [max_requests_per_minute], the record becomes RATE_LIMITED with
    [rate_limit_reset = now + 1 minute], whatever its error count, and the
    lazy evaluation finds it unusable until that minute has passed.  The
    lazy evaluation itself does not read the counter: a record that is
    ACTIVE, or ERROR with at most five errors, is usable and unchanged. *)
Theorem C4_sweep_rate_limits_at_cap s service now l i api :
  apis s !! service = Some l →
  l !! i = Some api →
  status api ≠ OFFLINE →
  max_requests_per_minute api
  <= (if reset_passed api now then 0 else requests_made api) →
  (∃ l' api',
     apis (_perform_health_check s service now) !! service = Some l' ∧
     l' !! i = Some api' ∧
     status api' = RATE_LIMITED ∧
     rate_limit_reset api' = Some (now + minutes 1) ∧
     error_count api' = error_count api ∧
     ∀ now', now' <= now + minutes 1 →
       _is_api_available api' now' = (false, api')) ∧
  (steady api → ∀ now', _is_api_available api now' = (true, api)).
Proof.
  intros Hl Hi Hoff Hcap. split.
  - destruct (health_check_api_at_cap now api Hoff Hcap) as (Hs & Hr & He).
    exists (health_check_api now <$> l), (health_check_api now api).
    repeat split; try done.
    + unfold _perform_health_check. rewrite Hl. simpl.
      by rewrite lookup_insert_eq.
    + by rewrite list_lookup_fmap, Hi.
    + intros now' Hnow. apply rate_limited_unavailable; [done|].
      unfold reset_passed. rewrite Hr. by apply Z.ltb_ge.
  - intros Hst now'. by apply steady_available.
Qed.

(** The statement above on a pool whose only endpoint is at its cap, swept
    at time 400. *)
Lemma C4_sweep_rate_limits_at_cap_witness :
  (∃ l' api',
     apis (_perform_health_check Examples.one_at_cap "qwen" 400) !! "qwen"
     = Some l' ∧
     l' !! 0%nat = Some api' ∧
     status api' = RATE_LIMITED ∧
     rate_limit_reset api' = Some (400 + minutes 1) ∧
     error_count api' = error_count Examples.endpoint_at_cap ∧
     ∀ now', now' <= 400 + minutes 1 →
       _is_api_available api' now' = (false, api')) ∧
  (steady Examples.endpoint_at_cap →
   ∀ now', _is_api_available Examples.endpoint_at_cap now'
           = (true, Examples.endpoint_at_cap)).
Proof.
  apply (C4_sweep_rate_limits_at_cap Examples.one_at_cap "qwen" 400
           [Examples.endpoint_at_cap] 0 Examples.endpoint_at_cap).
  - reflexivity.
  - reflexivity.
  - vm_compute. discriminate.
  - vm_compute. discriminate.
Defined.

(** ** Expiry of a rate limit *)

Lemma is_api_available_expired api now :
  status api = RATE_LIMITED →
  reset_passed api now = true →
  _is_api_available api now
  = (true, set_requests_made 0 (set_status ACTIVE api)).
Proof.
  intros Hs Hr. unfold _is_api_available. by rewrite Hs, Hr.
Qed.

(** The lazy evaluation never writes [rate_limit_reset]. *)
Lemma is_api_available_keeps_reset api now :
  rate_limit_reset (snd (_is_api_available api now)) = rate_limit_reset api.
Proof. unfold _is_api_available. by repeat case_match. Qed.

(** C5 (the code at the failing input).  A RATE_LIMITED endpoint whose
    limit ended at time 100 is evaluated at time 200: it becomes ACTIVE
    with its request counter at zero, but [rate_limit_reset] still holds
    100, whereas the health sweep on the same record clears it. *)
Theorem C5_lazy_expiry_keeps_rate_limit_reset :
  status Examples.endpoint_limited = RATE_LIMITED ∧
  rate_limit_reset Examples.endpoint_limited = Some 100 ∧
  fst (_is_api_available Examples.endpoint_limited 200) = true ∧
  status (snd (_is_api_available Examples.endpoint_limited 200)) = ACTIVE ∧
  requests_made (snd (_is_api_available Examples.endpoint_limited 200)) = 0 ∧
  rate_limit_reset (snd (_is_api_available Examples.endpoint_limited 200))
  = Some 100 ∧
  status (health_check_api 200 Examples.endpoint_limited) = ACTIVE ∧
  rate_limit_reset (health_check_api 200 Examples.endpoint_limited) = None.
Proof. repeat split; vm_compute; reflexivity. Qed.

(** ** Error counting *)

Lemma update_first_named_lookup nm f (l : list APIEndpoint) i api :
  l !! i = Some api →
  name api = nm →
  (∀ j a, (j < i)%nat → l !! j = Some a → name a ≠ nm) →
  update_first_named nm f l !! i = Some (f api).
Proof.
  revert i. induction l as [|a l IH]; intros i Hi Hn Hfirst; [done|].
  simpl. destruct i as [|i]; simpl in Hi.
  - injection Hi as ->. by apply String.eqb_eq in Hn as ->.
  - destruct (String.eqb (name a) nm) eqn:Ha.
    + apply String.eqb_eq in Ha. exfalso.
      apply (Hfirst 0%nat a); [lia|done|done].
    + simpl. apply IH; [done..|].
      intros j b Hj Hb. apply (Hfirst (S j) b); [lia|done].
Qed.

Lemma mark_error_count api :
  error_count (mark_error api) = error_count api + 1.
Proof. unfold mark_error. by case_match. Qed.

Lemma mark_error_status api :
  3 < error_count (mark_error api) → status (mark_error api) = ERROR.
Proof.
  rewrite mark_error_count. unfold mark_error. simpl.
  intros H. by apply Z.ltb_lt in H as ->.
Qed.

Lemma errored_unavailable api now :
  status api = ERROR → 5 < error_count api →
  _is_api_available api now = (false, api).
Proof.
  intros Hs Hc. unfold _is_api_available. rewrite Hs. simpl.
  by apply Z.ltb_lt in Hc as ->.
Qed.

Lemma reset_api_errors_lookup s service l :
  apis s !! service = Some l →
  ∃ s',
    reset_api_errors s (Some service) = (Ok tt, s') ∧
    apis s' !! service = Some (reset_errors <$> l).
Proof.
  intros Hl. unfold reset_api_errors.
  destruct (truthy (Some service)); simpl.
  - rewrite Hl. eexists. split; [done|]. simpl. by rewrite lookup_insert_eq.
  - eexists. split; [done|]. simpl. by rewrite lookup_fmap, Hl.
Qed.

Lemma reset_errors_restores api :
  error_count (reset_errors api) = 0 ∧
  (status api = ERROR → status (reset_errors api) = ACTIVE).
Proof.
  unfold reset_errors. simpl. split; [by case_match|].
  by intros ->.
Qed.

(** What the lazy evaluation does with an errored record.  A reported
    failure adds one to the error count of the (first) record of that name;
    once the count is past 5 the record's status is ERROR and the lazy
    evaluation rejects it at any time, so that no scan of the pool as the
    report leaves it returns it.  After [reset_api_errors] for its service
    the record's error count is zero, and the record that was ERROR is
    ACTIVE and accepted by the lazy evaluation again.  The health sweep is
    not part of this statement. *)
Lemma error_report_then_reset s service api_name l i api :
  apis s !! service = Some l →
  l !! i = Some api →
  name api = api_name →
  (∀ j a, (j < i)%nat → l !! j = Some a → name a ≠ api_name) →
  ∃ s1 l1 api1,
    mark_api_error s service api_name = (Ok tt, s1) ∧
    apis s1 !! service = Some l1 ∧
    l1 !! i = Some api1 ∧
    error_count api1 = error_count api + 1 ∧
    (5 < error_count api1 →
       status api1 = ERROR ∧
       (∀ now, _is_api_available api1 now = (false, api1)) ∧
       (∀ now start rng index a l',
          scan_apis now start rng l1 = (Some (index, a), l') →
          Z.to_nat index ≠ i)) ∧
    ∃ s2 l2 api2,
      reset_api_errors s1 (Some service) = (Ok tt, s2) ∧
      apis s2 !! service = Some l2 ∧
      l2 !! i = Some api2 ∧
      error_count api2 = 0 ∧
      (status api1 = ERROR →
         status api2 = ACTIVE ∧
         ∀ now, _is_api_available api2 now = (true, api2)).
Proof.
  intros Hl Hi Hn Hfirst.
  pose proof (update_first_named_lookup api_name mark_error l i api
                Hi Hn Hfirst) as Hi1.
  set (l1 := update_first_named api_name mark_error l) in *.
  assert (apis (set_apis (<[service := l1]> (apis s)) s) !! service = Some l1)
    as Hl1 by (simpl; by rewrite lookup_insert_eq).
  destruct (reset_api_errors_lookup _ _ _ Hl1) as (s2 & Hreset & Hl2).
  eexists _, l1, (mark_error api).
  split; [unfold mark_api_error; by rewrite Hl|].
  split; [done|]. split; [done|].
  split; [apply mark_error_count|].
  split.
  - intros Hc.
    assert (status (mark_error api) = ERROR) as Hs
      by (apply mark_error_status; lia).
    split; [done|].
    split; [intros now; by apply errored_unavailable|].
    intros now start rng index a l' Hscan Hidx.
    apply scan_apis_some in Hscan as (_ & api0 & _ & _ & Hl0 & Hav & _).
    rewrite Hidx, Hi1 in Hl0. injection Hl0 as <-.
    by rewrite (errored_unavailable _ now Hs Hc) in Hav.
  - exists s2, (reset_errors <$> l1), (reset_errors (mark_error api)).
    destruct (reset_errors_restores (mark_error api)) as [H0 Hact].
    split; [done|]. split; [done|].
    split; [by rewrite list_lookup_fmap, Hi1|].
    split; [done|].
    intros Hs. split; [by apply Hact|].
    intros now. apply steady_available. left. by apply Hact.
Qed.

(** The statement above on a pool whose only endpoint has already failed
    five times. *)
Lemma error_report_then_reset_on_failing_endpoint :
  ∃ s1 l1 api1,
    mark_api_error Examples.one_failing "qwen" "qwen_1" = (Ok tt, s1) ∧
    apis s1 !! "qwen" = Some l1 ∧
    l1 !! 0%nat = Some api1 ∧
    error_count api1 = error_count Examples.endpoint_failing + 1 ∧
    (5 < error_count api1 →
       status api1 = ERROR ∧
       (∀ now, _is_api_available api1 now = (false, api1)) ∧
       (∀ now start rng index a l',
          scan_apis now start rng l1 = (Some (index, a), l') →
          Z.to_nat index ≠ 0%nat)) ∧
    ∃ s2 l2 api2,
      reset_api_errors s1 (Some "qwen") = (Ok tt, s2) ∧
      apis s2 !! "qwen" = Some l2 ∧
      l2 !! 0%nat = Some api2 ∧
      error_count api2 = 0 ∧
      (status api1 = ERROR →
         status api2 = ACTIVE ∧
         ∀ now, _is_api_available api2 now = (true, api2)).
Proof.
  apply (error_report_then_reset Examples.one_failing "qwen" "qwen_1"
           [Examples.endpoint_failing] 0 Examples.endpoint_failing).
  - reflexivity.
  - reflexivity.
  - reflexivity.
  - intros j a Hj. lia.
Defined.

(** ** The sweep and an errored record *)

(** The expiry block of the sweep tests the time only, where the expiry of
    the lazy evaluation first tests that the status is RATE_LIMITED: any
    record that is not OFFLINE and carries a [rate_limit_reset] in the past
    leaves the sweep ACTIVE, an ERROR record with its error count as it
    was. *)
Lemma sweep_expiry_ignores_status now api t :
  status api ≠ OFFLINE →
  rate_limit_reset api = Some t →
  t < now →
  0 < max_requests_per_minute api →
  health_check_api now api
  = set_requests_made 0 (set_rate_limit_reset None (set_status ACTIVE api)) ∧
  status (health_check_api now api) = ACTIVE ∧
  error_count (health_check_api now api) = error_count api.
Proof.
  intros Hoff Ht Hnow Hcap.
  assert (health_check_api now api
          = set_requests_made 0
              (set_rate_limit_reset None (set_status ACTIVE api))) as ->.
  { unfold health_check_api, reset_passed. rewrite Ht.
    destruct (status api); try done; simpl;
      apply Z.ltb_lt in Hnow as ->; simpl;
      by destruct (Z.leb_spec (max_requests_per_minute api) 0); [lia|]. }
  done.
Qed.

(** The lazy evaluation of an ERROR record never changes it. *)
Lemma is_api_available_keeps_errored api now :
  status api = ERROR → snd (_is_api_available api now) = api.
Proof.
  intros Hs. unfold _is_api_available. rewrite Hs. simpl. by case_match.
Qed.

(** C6 (the code at the failing input).  The only [qwen] endpoint of a
    manager built at time 0 serves a request at time 10, is reported rate
    limited until time 100 and is then reported failing six times: it is
    ERROR with six errors, the lazy evaluation rejects it at any time, and
    the selection at time 200, for which no sweep is due, answers "none".
    The errors are never reset.  The selection at time 400 runs the health
    sweep, whose expiry of the old rate limit does not look at the status:
    the endpoint is made ACTIVE, its six errors still counted, and the
    selection returns it. *)
Theorem C6_sweep_revives_excluded_endpoint :
  ∃ api,
    apis Examples.failing_after_rate_limit !! "qwen" = Some [api] ∧
    name api = "qwen_1" ∧
    status api = ERROR ∧
    error_count api = 6 ∧
    rate_limit_reset api = Some 100 ∧
    (∀ now, _is_api_available api now = (false, api)) ∧
    get_active_api Examples.failing_after_rate_limit "qwen" false 200
    = (Ok None, Examples.failing_after_rate_limit) ∧
    ∃ api' s',
      get_active_api Examples.failing_after_rate_limit "qwen" false 400
      = (Ok (Some api'), s') ∧
      name api' = "qwen_1" ∧
      status api' = ACTIVE ∧
      error_count api' = 6 ∧
      apis s' !! "qwen" = Some [api'].
Proof.
  eexists. split; [vm_compute; reflexivity|].
  split; [reflexivity|]. split; [reflexivity|]. split; [reflexivity|].
  split; [reflexivity|].
  split; [intros now; by apply errored_unavailable|].
  split; [vm_compute; reflexivity|].
  eexists _, _. split; [vm_compute; reflexivity|].
  split; [reflexivity|]. split; [reflexivity|]. split; [reflexivity|].
  vm_compute. reflexivity.
Qed.

End enhanced_facts.

(** * Construction *)

Lemma omap_imap_nothing {A B : Type} (f : nat → A → option B) (l : list A) :
  (∀ i a, a ∈ l → f i a = None) → omap id (imap f l) = [].
Proof.
  revert f. induction l as [|a l IH]; intros f Hall; [done|].
  simpl. rewrite (Hall 0%nat a) by left. simpl. apply IH.
  intros i b Hb. apply Hall. by right.
Qed.

Lemma load_endpoints_nothing prefix url cap placeholders keys :
  (∀ key, key ∈ keys → truthy key = false) →
  Enhanced.load_endpoints prefix url cap placeholders keys = [].
Proof.
  intros Hall. unfold Enhanced.load_endpoints. apply omap_imap_nothing.
  intros i key Hkey.
  assert (Enhanced.configured placeholders key = false) as ->; [|done].
  pose proof (Hall key Hkey) as Hk.
  destruct key as [k|]; [|done]. simpl in *.
  by destruct (String.eqb k "").
Qed.

Example key_variables_listed :
  OpenRouter.key_variables
  = ["OPENROUTER_API_KEY"; "OPENROUTER_API_KEY_1"; "OPENROUTER_API_KEY_2";
     "OPENROUTER_API_KEY_3"; "OPENROUTER_API_KEY_4"; "OPENROUTER_API_KEY_5";
     "OPENROUTER_API_KEY_6"; "OPENROUTER_API_KEY_7"; "OPENROUTER_API_KEY_8";
     "OPENROUTER_API_KEY_9"].
Proof. vm_compute. reflexivity. Qed.

Lemma load_api_keys_nothing env :
  (∀ v, v ∈ OpenRouter.key_variables → truthy (getenv env v) = false) →
  ∃ e, OpenRouter._load_api_keys env = Raise e ∧ exc_kind e = ValueError.
Proof.
  intros Hall. unfold OpenRouter._load_api_keys.
  rewrite (Hall "OPENROUTER_API_KEY") by left.
  assert (∀ (l : list nat) keys0,
            (∀ i, i ∈ l → i ∈ seq 1 9) →
            foldl (fun (keys : list string) (i : nat) =>
                     let key := getenv env (OpenRouter.numbered_key_variable i) in
                     if truthy key then (keys ++ [default "" key])%list
                     else keys) keys0 l = keys0) as Hfold.
  { induction l as [|i l IH]; intros keys0 Hl; [done|].
    simpl. rewrite (Hall (OpenRouter.numbered_key_variable i)).
    - apply IH. intros j Hj. apply Hl. by right.
    - right. apply list_elem_of_fmap. exists i. split; [done|].
      apply Hl. left. }
  rewrite Hfold by done. eexists. split; done.
Qed.

Lemma enhanced_init_pool env now service l :
  Enhanced.apis (Enhanced.__init__ env now) !! service = Some l →
  Enhanced.current_api_index (Enhanced.__init__ env now) !! service = Some 0.
Proof.
  unfold Enhanced.__init__.
  destruct (Enhanced._load_api_configurations env) as [pools cursors] eqn:H.
  unfold Enhanced._load_api_configurations in H. injection H as <- <-.
  simpl. intros Hl. by rewrite lookup_fmap, Hl.
Qed.

Lemma enhanced_init_empty_pool env now service :
  service ∈ Enhanced.services →
  (∀ v, v ∈ Enhanced.credential_variables service →
        truthy (getenv env v) = false) →
  Enhanced.apis (Enhanced.__init__ env now) !! service = Some [].
Proof.
  intros Hin Hall.
  assert (∀ keys : list (option string), (∀ key, key ∈ keys →
                     ∃ v, v ∈ Enhanced.credential_variables service
                          ∧ key = getenv env v) →
                  ∀ key, key ∈ keys → truthy key = false) as Hkeys.
  { intros keys Hk key Hkey. destruct (Hk key Hkey) as (v & Hv & ->).
    by apply Hall. }
  unfold Enhanced.__init__, Enhanced._load_api_configurations,
    Enhanced.services in *.
  cbn [Enhanced.apis].
  repeat (apply elem_of_cons in Hin as [-> | Hin]);
    [..|by apply elem_of_nil in Hin];
    repeat (rewrite lookup_insert_ne by done); rewrite lookup_insert_eq;
    f_equal; apply load_endpoints_nothing, Hkeys;
    intros key Hkey;
    repeat (apply elem_of_cons in Hkey as [-> | Hkey]);
    try (by apply elem_of_nil in Hkey);
    eexists; (split; [|reflexivity]); vm_compute;
    repeat (first [by left | right]).
Qed.

(** C7 (counterexample).  With no OpenRouter key in the environment the
    construction of the key manager raises [ValueError]. *)
Lemma C7_counterexample_key_manager_needs_a_key :
  OpenRouter.__init__ ∅
  = Raise (OpenRouter.value_error
             "Nenhuma chave OpenRouter encontrada nas variáveis de ambiente").
Proof. vm_compute. reflexivity. Qed.

(** C7 (amended).  Construction of the multi-service manager succeeds for
    every environment: each of its seven services gets a pool and a cursor
    at 0, a service none of whose credential variables is set gets the
    empty pool, and selecting from it answers "none" and leaves the manager
    as it is.  Construction of the key manager, on the contrary, raises
    [ValueError] when none of its ten key variables is set. *)
Theorem C7_startup_without_credentials :
  (∀ env now service,
     service ∈ Enhanced.services →
     is_Some (Enhanced.apis (Enhanced.__init__ env now) !! service) ∧
     Enhanced.current_api_index (Enhanced.__init__ env now) !! service
     = Some 0 ∧
     ((∀ v, v ∈ Enhanced.credential_variables service →
            truthy (getenv env v) = false) →
      Enhanced.apis (Enhanced.__init__ env now) !! service = Some [] ∧
      ∀ force now',
        Enhanced.get_active_api (Enhanced.__init__ env now) service force now'
        = (Ok None, Enhanced.__init__ env now))) ∧
  (∀ env,
     (∀ v, v ∈ OpenRouter.key_variables → truthy (getenv env v) = false) →
     ∃ e, OpenRouter.__init__ env = Raise e ∧ exc_kind e = ValueError).
Proof.
  split.
  - intros env now service Hin.
    assert (is_Some (Enhanced.apis (Enhanced.__init__ env now) !! service))
      as [l Hl].
    { unfold Enhanced.__init__, Enhanced._load_api_configurations,
        Enhanced.services in *.
      cbn [Enhanced.apis].
      repeat (apply elem_of_cons in Hin as [-> | Hin]);
        [..|by apply elem_of_nil in Hin];
        repeat (rewrite lookup_insert_ne by done); rewrite lookup_insert_eq;
        by eexists. }
    split; [by exists l|].
    split; [by eapply enhanced_init_pool|].
    intros Hall.
    pose proof (enhanced_init_empty_pool env now service Hin Hall) as Hempty.
    split; [done|].
    intros force now'. unfold Enhanced.get_active_api. by rewrite Hempty.
  - intros env Hall.
    destruct (load_api_keys_nothing env Hall) as (e & He & Hk).
    exists e. unfold OpenRouter.__init__. by rewrite He.
Qed.

(** The statement above on the empty environment. *)
Lemma C7_startup_without_credentials_witness :
  (Enhanced.apis (Enhanced.__init__ ∅ 1000) !! "tavily" = Some [] ∧
   ∀ force now',
     Enhanced.get_active_api (Enhanced.__init__ ∅ 1000) "tavily" force now'
     = (Ok None, Enhanced.__init__ ∅ 1000)) ∧
  ∃ e, OpenRouter.__init__ ∅ = Raise e ∧ exc_kind e = ValueError.
Proof.
  destruct C7_startup_without_credentials as [Henh Hkey].
  split.
  - apply (Henh ∅ 1000 "tavily").
    + vm_compute. repeat (first [by left | right]).
    + intros v _. reflexivity.
  - apply (Hkey ∅). intros v _. reflexivity.
Defined.

(** * Properties of the key manager *)

Section openrouter_facts.
Import OpenRouter.

(** ** Well-formedness is kept by every operation *)

Lemma rotate_well_formed s :
  well_formed s → well_formed (_rotate_to_next_key s).
Proof.
  intros [Hk Hi Hs Hf]. split; try done. simpl.
  apply Z.mod_pos_bound. destruct (api_keys s); [done|simpl; lia].
Qed.

Lemma clear_cooldown_well_formed s key st :
  well_formed s → key_usage_stats s !! key = Some st →
  well_formed (clear_cooldown key st s).
Proof.
  intros [Hk Hi Hs Hf] Hst. split; try done; simpl.
  - intros k. rewrite <- Hs. destruct (decide (key = k)) as [->|Hne].
    + rewrite lookup_insert_eq, Hst. split; eauto.
    + by rewrite lookup_insert_ne.
  - intros k st'. destruct (decide (key = k)) as [->|Hne].
    + rewrite lookup_insert_eq. by intros [= <-].
    + rewrite lookup_insert_ne, lookup_delete_ne by done. apply Hf.
Qed.

Lemma note_request_well_formed s key st now :
  well_formed s → key_usage_stats s !! key = Some st →
  well_formed (note_request key st now s).
Proof.
  intros [Hk Hi Hs Hf] Hst. split; try done; simpl.
  - intros k. rewrite <- Hs. destruct (decide (key = k)) as [->|Hne].
    + rewrite lookup_insert_eq, Hst. split; eauto.
    + by rewrite lookup_insert_ne.
  - intros k st'. destruct (decide (key = k)) as [->|Hne].
    + rewrite lookup_insert_eq. intros [= <-]. simpl. by apply Hf.
    + rewrite lookup_insert_ne by done. apply Hf.
Qed.

Lemma handle_api_error_well_formed s key e now :
  well_formed s → key ∈ api_keys s →
  ∃ s',
    _handle_api_error s key e now = (Ok tt, s') ∧
    well_formed s' ∧
    api_keys s' = api_keys s ∧
    max_retries s' = max_retries s ∧
    key_cooldowns s'
    = <[key := now + cooldown_of (classify e)]> (key_cooldowns s).
Proof.
  intros [Hk Hi Hs Hf] Hin.
  destruct (proj2 (Hs key) Hin) as [st Hst].
  unfold _handle_api_error. rewrite Hst.
  eexists. split; [done|]. split; [|by repeat split].
  split; try done; simpl.
  - intros k. rewrite <- Hs. destruct (decide (key = k)) as [->|Hne].
    + rewrite lookup_insert_eq, Hst. split; eauto.
    + by rewrite lookup_insert_ne.
  - intros k st'. destruct (decide (key = k)) as [->|Hne].
    + rewrite !lookup_insert_eq. eauto.
    + rewrite !lookup_insert_ne by done. apply Hf.
Qed.

Lemma min_errors_from_ok stats best best_errors (l : list string) :
  (∀ k, k ∈ l → is_Some (stats !! k)) →
  ∃ key, min_errors_from stats best best_errors l = Ok key
         ∧ (key = best ∨ key ∈ l).
Proof.
  revert best best_errors.
  induction l as [|k l IH]; intros best best_errors Hall; simpl.
  - exists best. by split; [|left].
  - destruct (Hall k ltac:(left)) as [st ->].
    assert (∀ k', k' ∈ l → is_Some (stats !! k')) as Hall'
      by (intros k' Hk'; apply Hall; by right).
    destruct (errors st <? best_errors).
    + destruct (IH k (errors st) Hall') as (key & -> & [->|Hin]);
        eexists; (split; [done|]); right; [left|by right].
    + destruct (IH best best_errors Hall') as (key & -> & [->|Hin]);
        eexists; (split; [done|]); [by left|right; by right].
Qed.

Lemma min_errors_ok s :
  well_formed s →
  ∃ key, min_errors (key_usage_stats s) (api_keys s) = Ok key
         ∧ key ∈ api_keys s.
Proof.
  intros [Hk Hi Hs Hf]. unfold min_errors.
  destruct (api_keys s) as [|k l] eqn:Hkeys; [done|].
  destruct (proj2 (Hs k) ltac:(left)) as [st ->].
  destruct (min_errors_from_ok (key_usage_stats s) k (errors st) l)
    as (key & -> & Hin).
  - intros k' Hk'. apply Hs. by right.
  - exists key. split; [done|]. destruct Hin as [->|Hin]; [left|by right].
Qed.

Lemma py_index_in_range {A : Type} (l : list A) (i : Z) :
  0 <= i < Z.of_nat (length l) →
  ∃ x, py_index l i = Some x ∧ l !! Z.to_nat i = Some x.
Proof.
  intros Hi. unfold py_index.
  destruct (0 <=? i) eqn:H0; [|apply Z.leb_gt in H0; lia].
  destruct (lookup_lt_is_Some_2 l (Z.to_nat i)) as [x Hx]; [lia|].
  by exists x.
Qed.

(** On a well-formed manager the selection always returns one of the
    loaded keys: it raises nothing, and in particular it never reports
    exhaustion.  It only ever removes cooldown entries. *)
Lemma scan_keys_well_formed now initial_index remaining s :
  well_formed s →
  ∃ key s',
    scan_keys now initial_index remaining s = (Ok key, s') ∧
    key ∈ api_keys s ∧
    well_formed s' ∧
    api_keys s' = api_keys s ∧
    max_retries s' = max_retries s ∧
    (∀ k until, key_cooldowns s' !! k = Some until →
                key_cooldowns s !! k = Some until).
Proof.
  revert s. induction remaining as [|remaining IH]; intros s Hwf; simpl.
  - destruct (min_errors_ok s Hwf) as (key & -> & Hin).
    by exists key, s.
  - destruct (py_index_in_range (api_keys s) (current_key_index s))
      as (key & -> & Hkey); [apply Hwf|].
    assert (key ∈ api_keys s) as Hin by (by eapply list_elem_of_lookup_2).
    destruct (proj2 (wf_stats s Hwf key) Hin) as [st Hst]. rewrite Hst.
    destruct (key_cooldowns s !! key) as [until|] eqn:Hcd.
    + destruct (now <? until).
      * destruct (IH _ (rotate_well_formed s Hwf))
          as (key' & s' & -> & ? & ? & ? & ? & ?).
        by exists key', s'.
      * simpl. exists key, (clear_cooldown key st s).
        split; [done|]. split; [done|].
        split; [by apply clear_cooldown_well_formed|].
        split; [done|]. split; [done|].
        intros k T. simpl. destruct (decide (key = k)) as [->|Hne].
        -- by rewrite lookup_delete_eq.
        -- by rewrite lookup_delete_ne.
    + destruct (credits_exhausted st || rate_limited st) eqn:Hflags.
      * destruct (wf_flags s Hwf key st Hst Hflags) as [T HT]. congruence.
      * apply orb_false_elim in Hflags as [-> ->]. simpl.
        by exists key, s.
Qed.

Lemma get_next_available_key_well_formed s now :
  well_formed s →
  ∃ key s',
    _get_next_available_key s now = (Ok key, s') ∧
    key ∈ api_keys s ∧
    well_formed s' ∧
    api_keys s' = api_keys s ∧
    max_retries s' = max_retries s ∧
    (∀ k until, key_cooldowns s' !! k = Some until →
                key_cooldowns s !! k = Some until).
Proof. apply scan_keys_well_formed. Qed.

(** ** Reachable managers are well formed *)

Lemma init_stats_lookup (keys : list string) (m : gmap string KeyStats) k :
  foldl (fun (m : gmap string KeyStats) (key : string) =>
           <[key := new_stats]> m) m keys !! k
  = if decide (k ∈ keys) then Some new_stats else m !! k.
Proof.
  revert m. induction keys as [|key keys IH]; intros m; simpl.
  - destruct (decide (k ∈ [])) as [H|H]; [by apply elem_of_nil in H|done].
  - rewrite IH. destruct (decide (k ∈ keys)) as [Hin|Hnin].
    + rewrite decide_True; [done|by right].
    + destruct (decide (key = k)) as [->|Hne].
      * rewrite lookup_insert_eq, decide_True; [done|left].
      * rewrite lookup_insert_ne by done.
        rewrite decide_False; [done|].
        intros [->|?]%elem_of_cons; done.
Qed.

Lemma init_well_formed env s : __init__ env = Ok s → well_formed s.
Proof.
  unfold __init__.
  destruct (_load_api_keys env) as [keys|e] eqn:Hload; [|discriminate].
  intros [= <-].
  assert (keys ≠ []) as Hne.
  { unfold _load_api_keys in Hload.
    destruct (foldl _ _ _) as [|k ks]; [discriminate|].
    by injection Hload as <-. }
  split; simpl.
  - done.
  - destruct keys; [done|simpl; lia].
  - intros k. rewrite init_stats_lookup. case_decide; [by eauto|].
    rewrite lookup_empty. split; [by intros [? ?]|done].
  - intros k st. rewrite init_stats_lookup. case_decide.
    + by intros [= <-].
    + by rewrite lookup_empty.
Qed.

Lemma reset_flags_idemp st : reset_flags (reset_flags st) = reset_flags st.
Proof. done. Qed.

Lemma reset_all_stats (l : list string) (m : gmap string KeyStats) :
  (∀ k, k ∈ l → is_Some (m !! k)) →
  ∃ m',
    reset_all_flags m l = (None, m') ∧
    ∀ k, m' !! k
         = if decide (k ∈ l) then reset_flags <$> m !! k else m !! k.
Proof.
  revert m. induction l as [|key l IH]; intros m Hall; simpl.
  - exists m. split; [done|]. intros k.
    destruct (decide (k ∈ [])) as [H|H]; [by apply elem_of_nil in H|done].
  - destruct (Hall key ltac:(left)) as [st Hst]. rewrite Hst.
    destruct (IH (<[key := reset_flags st]> m)) as (m' & -> & Hm').
    { intros k Hk. destruct (decide (key = k)) as [->|Hne].
      - rewrite lookup_insert_eq. eauto.
      - rewrite lookup_insert_ne by done. apply Hall. by right. }
    exists m'. split; [done|]. intros k. rewrite Hm'.
    destruct (decide (key = k)) as [->|Hne].
    + rewrite lookup_insert_eq, Hst. simpl.
      rewrite (decide_True (P := k ∈ k :: l)) by left.
      by case_decide.
    + rewrite lookup_insert_ne by done.
      destruct (decide (k ∈ l)) as [Hin|Hnin].
      * rewrite decide_True; [done|by right].
      * rewrite decide_False; [done|].
        intros [->|?]%elem_of_cons; done.
Qed.

Lemma reset_key_status_well_formed s key_index :
  well_formed s →
  well_formed (snd (reset_key_status s key_index)) ∧
  ∀ k until, key_cooldowns (snd (reset_key_status s key_index)) !! k
             = Some until →
             key_cooldowns s !! k = Some until.
Proof.
  intros Hwf. unfold reset_key_status.
  destruct key_index as [i|].
  - destruct ((0 <=? i) && (i <? Z.of_nat (length (api_keys s))));
      [|by split].
    destruct (api_keys s !! Z.to_nat i) as [key|] eqn:Hkey; [|by split].
    assert (key ∈ api_keys s) as Hin by (by eapply list_elem_of_lookup_2).
    destruct (proj2 (wf_stats s Hwf key) Hin) as [st Hst]. rewrite Hst.
    split.
    + by apply (clear_cooldown_well_formed s key st).
    + intros k T. simpl. destruct (decide (key = k)) as [->|Hne].
      * by rewrite lookup_delete_eq.
      * by rewrite lookup_delete_ne.
  - destruct (reset_all_stats (api_keys s) (key_usage_stats s))
      as (m' & -> & Hm'); [intros k Hk; by apply Hwf|].
    split; [|done]. destruct Hwf as [Hk Hi Hs Hf].
    split; try done; simpl.
    + intros k. rewrite Hm'.
      destruct (decide (k ∈ api_keys s)); [|apply Hs].
      rewrite fmap_is_Some. apply Hs.
    + intros k st'. rewrite Hm'. destruct (decide (k ∈ api_keys s)) as [Hin|Hin].
      * destruct (key_usage_stats s !! k); [|done]. by intros [= <-].
      * intros Hst'. exfalso. apply Hin, Hs. eauto.
Qed.

(** Every reachable manager is well formed, and no cooldown in its table
    ends more than an hour after the last clock reading. *)
Lemma reachable_invariant t s :
  reachable t s → well_formed s ∧ cooldowns_within t s.
Proof.
  induction 1 as [env s t Hinit
                 |t s now Hr [Hwf Hcd] Hle
                 |t s now key e Hr [Hwf Hcd] Hle
                 |t s now key st Hr [Hwf Hcd] Hle Hst
                 |t s Hr [Hwf Hcd]
                 |t s key_index Hr [Hwf Hcd]].
  - split; [by eapply init_well_formed|].
    intros k T. unfold __init__ in Hinit.
    destruct (_load_api_keys env); [|discriminate].
    injection Hinit as <-. simpl. by rewrite lookup_empty.
  - destruct (get_next_available_key_well_formed s now Hwf)
      as (key & s' & -> & _ & Hwf' & _ & _ & Hsub).
    split; [done|]. intros k T HT. apply Hsub, Hcd in HT. lia.
  - destruct (key_usage_stats s !! key) as [st|] eqn:Hst.
    + destruct (handle_api_error_well_formed s key e now Hwf)
        as (s' & -> & Hwf' & _ & _ & Hcd'); [apply Hwf; eauto|].
      split; [done|]. intros k T. simpl. rewrite Hcd'.
      destruct (decide (key = k)) as [->|Hne].
      * rewrite lookup_insert_eq. intros [= <-].
        unfold cooldown_of, hours, minutes, seconds.
        destruct (classify e); lia.
      * rewrite lookup_insert_ne by done. intros HT%Hcd. lia.
    + unfold _handle_api_error. rewrite Hst. simpl.
      split; [done|]. intros k T HT%Hcd. lia.
  - split; [by apply note_request_well_formed|].
    intros k T HT%Hcd. lia.
  - split; [by apply rotate_well_formed|done].
  - destruct (reset_key_status_well_formed s key_index Hwf) as [Hwf' Hsub].
    split; [done|]. intros k T HT%Hsub. by apply (Hcd k).
Qed.

(** ** Selection when every key is cooling down *)

Example one_key_constructed : __init__ Examples.one_key_env = Ok Examples.one_key.
Proof. vm_compute. reflexivity. Qed.

Example two_keys_constructed :
  __init__ Examples.two_keys_env = Ok Examples.two_keys.
Proof. vm_compute. reflexivity. Qed.

Lemma one_key_cooling_reachable : reachable 1000 Examples.one_key_cooling.
Proof.
  apply (reach_report 1000); [|lia].
  apply (reach_init Examples.one_key_env), one_key_constructed.
Qed.

Lemma two_keys_cooling_reachable : reachable 1000 Examples.two_keys_cooling.
Proof.
  apply (reach_report 990); [|lia].
  apply (reach_report 980); [|lia].
  apply (reach_report 980); [|lia].
  apply (reach_init Examples.two_keys_env), two_keys_constructed.
Qed.

(** On a reachable manager the selection returns a key whatever the
    cooldown table and the flags say: the exhausted condition is never
    raised. *)
Lemma selection_never_signals_exhaustion t s now :
  reachable t s →
  ∃ key, fst (_get_next_available_key s now) = Ok key ∧ key ∈ api_keys s.
Proof.
  intros [Hwf _]%reachable_invariant.
  destruct (get_next_available_key_well_formed s now Hwf)
    as (key & s' & -> & Hin & _).
  by exists key.
Qed.

(** C1 (the code at the failing input).  The only key of a reachable
    manager is in cooldown until 1030; selection at time 1010 raises nothing
    and returns that key. *)
Theorem C1_all_keys_cooling_down_returns_a_key :
  reachable 1000 Examples.one_key_cooling ∧
  api_keys Examples.one_key_cooling = ["sk-or-A"] ∧
  key_cooldowns Examples.one_key_cooling !! "sk-or-A" = Some 1030 ∧
  fst (_get_next_available_key Examples.one_key_cooling 1010)
  = Ok "sk-or-A".
Proof.
  split; [apply one_key_cooling_reachable|].
  repeat split; vm_compute; reflexivity.
Qed.

(** C2 (the code at the failing input).  Both keys of a reachable manager
    are in cooldown at time 1010, the second until 4590 and flagged as out
    of credits; selection at 1010 returns the second key. *)
Theorem C2_key_in_cooldown_is_selected :
  reachable 1000 Examples.two_keys_cooling ∧
  key_cooldowns Examples.two_keys_cooling !! "sk-or-A" = Some 1030 ∧
  key_cooldowns Examples.two_keys_cooling !! "sk-or-B" = Some 4590 ∧
  (credits_exhausted <$> key_usage_stats Examples.two_keys_cooling !! "sk-or-B")
  = Some true ∧
  fst (_get_next_available_key Examples.two_keys_cooling 1010)
  = Ok "sk-or-B".
Proof.
  split; [apply two_keys_cooling_reachable|].
  repeat split; vm_compute; reflexivity.
Qed.

(** ** The retry loop *)

Section retries.
Context {R : Type} (w : World R).



End retries.




Example retries_after_rate_limit :
  result (chat_completion (Examples.always_failing Examples.status_429)
            Examples.two_keys) = Raise Examples.status_429 ∧
  sent (chat_completion (Examples.always_failing Examples.status_429)
          Examples.two_keys) = ["sk-or-A"; "sk-or-B"; "sk-or-A"].
Proof. split; vm_compute; reflexivity. Qed.

Example no_retry_after_402 :
  result (chat_completion (Examples.always_failing Examples.status_402)
            Examples.two_keys) = Raise Examples.status_402 ∧
  sent (chat_completion (Examples.always_failing Examples.status_402)
          Examples.two_keys) = ["sk-or-A"].
Proof. split; vm_compute; reflexivity. Qed.

(** ** Cooldowns set by reported failures *)

Lemma handle_api_error_cooldown s key e now st :
  key_usage_stats s !! key = Some st →
  ∃ s',
    _handle_api_error s key e now = (Ok tt, s') ∧
    key_cooldowns s' !! key = Some (now + cooldown_of (classify e)) ∧
    (∀ k, k ≠ key → key_cooldowns s' !! k = key_cooldowns s !! k) ∧
    is_Some (key_usage_stats s' !! key).
Proof.
  intros Hst. unfold _handle_api_error. rewrite Hst.
  eexists. split; [done|]. simpl. rewrite !lookup_insert_eq.
  split; [done|]. split; [|by eauto].
  intros k Hne. by rewrite lookup_insert_ne.
Qed.

(** C9.  On a reachable manager, with a clock that does not go back, a
    reported payment-required failure sets the cooldown of the key to one
    hour from now, and no cooldown that was in effect for that key ended
    later than that.  In particular, after a rate-limited failure has put
    the key in cooldown for five minutes, a payment-required failure
    reported next extends the exclusion to the hour. *)
Theorem C9_payment_required_never_shortens t s now key e st :
  reachable t s →
  t <= now →
  classify e = PaymentRequired →
  key_usage_stats s !! key = Some st →
  (∃ s',
     _handle_api_error s key e now = (Ok tt, s') ∧
     key_cooldowns s' !! key = Some (now + hours 1) ∧
     ∀ until, key_cooldowns s !! key = Some until → until <= now + hours 1) ∧
  (∀ e0 t0,
     classify e0 = RateLimited → t <= t0 → t0 <= now →
     ∃ s1 s2,
       _handle_api_error s key e0 t0 = (Ok tt, s1) ∧
       key_cooldowns s1 !! key = Some (t0 + minutes 5) ∧
       _handle_api_error s1 key e now = (Ok tt, s2) ∧
       key_cooldowns s2 !! key = Some (now + hours 1) ∧
       t0 + minutes 5 < now + hours 1).
Proof.
  intros Hr Hle He Hst. split.
  - destruct (handle_api_error_cooldown s key e now st Hst)
      as (s' & Hs' & Hcd & _).
    exists s'. rewrite He in Hcd. split; [done|]. split; [done|].
    intros T HT.
    destruct (reachable_invariant t s Hr) as [_ Hwithin].
    apply Hwithin in HT. lia.
  - intros e0 t0 He0 Ht0 Hnow.
    destruct (handle_api_error_cooldown s key e0 t0 st Hst)
      as (s1 & Hs1 & Hcd1 & _ & [st1 Hst1]).
    destruct (handle_api_error_cooldown s1 key e now st1 Hst1)
      as (s2 & Hs2 & Hcd2 & _).
    rewrite He0 in Hcd1. rewrite He in Hcd2.
    exists s1, s2. repeat split; try done.
    unfold minutes, hours. lia.
Qed.

(** The statement above on the manager whose key is in cooldown until
    1030, a 402 being reported at 1010. *)
Lemma C9_payment_required_never_shortens_witness :
  (∃ s',
     _handle_api_error Examples.one_key_cooling "sk-or-A"
       Examples.status_402 1010 = (Ok tt, s') ∧
     key_cooldowns s' !! "sk-or-A" = Some (1010 + hours 1) ∧
     ∀ until, key_cooldowns Examples.one_key_cooling !! "sk-or-A"
              = Some until → until <= 1010 + hours 1) ∧
  (∀ e0 t0,
     classify e0 = RateLimited → 1000 <= t0 → t0 <= 1010 →
     ∃ s1 s2,
       _handle_api_error Examples.one_key_cooling "sk-or-A" e0 t0
       = (Ok tt, s1) ∧
       key_cooldowns s1 !! "sk-or-A" = Some (t0 + minutes 5) ∧
       _handle_api_error s1 "sk-or-A" Examples.status_402 1010
       = (Ok tt, s2) ∧
       key_cooldowns s2 !! "sk-or-A" = Some (1010 + hours 1) ∧
       t0 + minutes 5 < 1010 + hours 1).
Proof.
  apply (C9_payment_required_never_shortens 1000 Examples.one_key_cooling
           1010 "sk-or-A" Examples.status_402
           (mkKeyStats 0 1 None false false)).
  - apply (reach_report 1000); [|lia].
    apply (reach_init Examples.one_key_env). vm_compute. reflexivity.
  - lia.
  - vm_compute. reflexivity.
  - vm_compute. reflexivity.
Defined.

(** C10.  A reported failure overwrites the cooldown of the key with
    now plus the duration of the failure's class (an hour for
    payment-required, five minutes for rate-limit, thirty seconds
    otherwise), whatever expiry was in effect.  In particular a failure of
    another kind reported after a payment-required one replaces the
    hour-long cooldown by a thirty-second one that ends strictly
    earlier. *)
Theorem C10_report_overwrites_cooldown s key e now st :
  key_usage_stats s !! key = Some st →
  cooldown_of PaymentRequired = 3600 ∧
  cooldown_of RateLimited = 300 ∧
  cooldown_of OtherError = 30 ∧
  ∃ s',
    _handle_api_error s key e now = (Ok tt, s') ∧
    key_cooldowns s' !! key = Some (now + cooldown_of (classify e)) ∧
    ∀ e' now',
      classify e = PaymentRequired →
      classify e' = OtherError →
      now <= now' → now' + 30 < now + 3600 →
      ∃ s'',
        _handle_api_error s' key e' now' = (Ok tt, s'') ∧
        key_cooldowns s' !! key = Some (now + 3600) ∧
        key_cooldowns s'' !! key = Some (now' + 30) ∧
        now' + 30 < now + 3600.
Proof.
  intros Hst. repeat (split; [done|]).
  destruct (handle_api_error_cooldown s key e now st Hst)
    as (s' & Hs' & Hcd & _ & [st' Hst']).
  exists s'. split; [done|]. split; [done|].
  intros e' now' He He' Hle Hlt.
  destruct (handle_api_error_cooldown s' key e' now' st' Hst')
    as (s'' & Hs'' & Hcd' & _).
  rewrite He in Hcd. rewrite He' in Hcd'.
  exists s''. by repeat split.
Qed.

(** The statement above for a 402 reported at time 1000 on a fresh
    manager. *)
Lemma C10_report_overwrites_cooldown_witness :
  cooldown_of PaymentRequired = 3600 ∧
  cooldown_of RateLimited = 300 ∧
  cooldown_of OtherError = 30 ∧
  ∃ s',
    _handle_api_error Examples.one_key "sk-or-A" Examples.status_402 1000
    = (Ok tt, s') ∧
    key_cooldowns s' !! "sk-or-A"
    = Some (1000 + cooldown_of (classify Examples.status_402)) ∧
    ∀ e' now',
      classify Examples.status_402 = PaymentRequired →
      classify e' = OtherError →
      1000 <= now' → now' + 30 < 1000 + 3600 →
      ∃ s'',
        _handle_api_error s' "sk-or-A" e' now' = (Ok tt, s'') ∧
        key_cooldowns s' !! "sk-or-A" = Some (1000 + 3600) ∧
        key_cooldowns s'' !! "sk-or-A" = Some (now' + 30) ∧
        now' + 30 < 1000 + 3600.
Proof.
  apply (C10_report_overwrites_cooldown Examples.one_key "sk-or-A"
           Examples.status_402 1000 new_stats).
  vm_compute. reflexivity.
Defined.

Example hour_cooldown_cut_to_thirty_seconds :
  key_cooldowns
    (snd (_handle_api_error Examples.one_key "sk-or-A" Examples.status_402
            1000)) !! "sk-or-A" = Some 4600 ∧
  key_cooldowns
    (snd (_handle_api_error
            (snd (_handle_api_error Examples.one_key "sk-or-A"
                    Examples.status_402 1000))
            "sk-or-A" Examples.timeout_error 1001)) !! "sk-or-A"
  = Some 1031.
Proof. split; vm_compute; reflexivity. Qed.

(** ** [chat_completion] keeps the manager reachable *)

(** With a clock that does not go back, the manager that a call of
    [chat_completion] leaves behind is reachable again, whatever the
    provider does. *)
Lemma attempts_reachable {R : Type} (w : World R) remaining :
  ∀ attempt api_key last_error trace s t,
    reachable t s →
    t <= t_select w attempt →
    (∀ i, attempt <= i →
          t_select w i <= t_report w i ∧ t_report w i <= t_select w (i + 1)) →
    ∃ t',
      reachable t'
        (final (attempts w remaining attempt api_key last_error trace s)).
Proof.
  induction remaining as [|remaining IH];
    intros attempt api_key last_error trace s t Hr Hle Hclock.
  - simpl. by exists t.
  - cbn [attempts].
    pose proof (reach_select t s (t_select w attempt) Hr Hle) as Hr1.
    destruct (reachable_invariant _ _ Hr) as [Hwf _].
    destruct (get_next_available_key_well_formed s (t_select w attempt) Hwf)
      as (key & s1 & Hsel & Hin & Hwf1 & Hk1 & _).
    rewrite Hsel in *. simpl in Hr1.
    assert (key ∈ api_keys s1) as Hin1 by (by rewrite Hk1).
    destruct (proj2 (wf_stats s1 Hwf1 key) Hin1) as [st Hst]. rewrite Hst.
    pose proof (reach_request _ s1 (t_select w attempt) key st Hr1
                  (Z.le_refl _) Hst) as Hr2.
    destruct (Hclock attempt (Z.le_refl _)) as [Hsr Hrs].
    destruct (provider w attempt key) as [r|e].
    + simpl. exists (t_select w attempt). by apply reach_rotate.
    + pose proof (reach_report _ _ (t_report w attempt) key e Hr2 Hsr) as Hr3.
      destruct (_handle_api_error _ key e (t_report w attempt))
        as [[[]|e'] s3]; simpl in Hr3; [|by eauto].
      destruct (aborts e); [by eauto|].
      apply (IH _ _ _ _ _ (t_report w attempt)); [done|done|].
      intros i Hi. apply Hclock. lia.
Qed.

Lemma chat_completion_reachable {R : Type} (w : World R) s t :
  reachable t s →
  t <= t_select w 0 →
  (∀ i, 0 <= i →
        t_select w i <= t_report w i ∧ t_report w i <= t_select w (i + 1)) →
  ∃ t', reachable t' (final (chat_completion w s)).
Proof. intros. by eapply attempts_reachable. Qed.

(** ** Rotation after a successful request *)


End openrouter_facts.

(** * Where the next scan starts *)




(** * Further properties of the multi-service manager *)

Section enhanced_selection.
Import Enhanced.

(** ** The scan in detail *)

(** Over the range [a, a + m) of offsets the scan stops at the first
    offset whose record is available. *)
Lemma scan_apis_seq now start (m : nat) :
  ∀ (a : nat) l index api' l',
    scan_apis now start (seq a m) l = (Some (index, api'), l') →
    ∃ i : nat,
      (a <= i < a + m)%nat ∧
      index = (start + Z.of_nat i) mod Z.of_nat (length l) ∧
      ∀ (j : nat) api,
        (a <= j < i)%nat →
        l !! Z.to_nat ((start + Z.of_nat j) mod Z.of_nat (length l))
        = Some api →
        fst (_is_api_available api now) = false.
Proof.
  induction m as [|m IH]; intros a l index api' l'; simpl; [discriminate|].
  destruct (l !! _) as [api|] eqn:Hl; [|discriminate].
  destruct (_is_api_available api now) as [[] api1] eqn:Hav.
  - intros [= <- <- <-]. exists a. split; [lia|]. split; [done|].
    intros j b Hj. lia.
  - pose proof Hav as Hsame. apply unavailable_unchanged in Hsame as ->.
    rewrite list_insert_id by done. intros Hscan.
    destruct (IH _ _ _ _ _ Hscan) as (i & Hi & Hidx & Hbefore).
    exists i. split; [lia|]. split; [done|].
    intros j b Hj Hb. destruct (decide (j = a)) as [->|Hne].
    + rewrite Hl in Hb. injection Hb as <-. by rewrite Hav.
    + apply (Hbefore j b); [lia|done].
Qed.

(** A scan that finds nothing has rejected the record under every offset
    of its range. *)
Lemma scan_apis_none_all now start rng l l' :
  l ≠ [] →
  scan_apis now start rng l = (None, l') →
  ∀ (i : nat) api,
    i ∈ rng →
    l !! Z.to_nat ((start + Z.of_nat i) mod Z.of_nat (length l)) = Some api →
    fst (_is_api_available api now) = false.
Proof.
  intros Hne. induction rng as [|i0 rng IH]; simpl.
  - intros _ i api Hi. by apply elem_of_nil in Hi.
  - destruct (l !! _) as [api0|] eqn:Hl.
    + destruct (_is_api_available api0 now) as [[] api1] eqn:Hav;
        [discriminate|].
      pose proof Hav as Hsame. apply unavailable_unchanged in Hsame as ->.
      rewrite list_insert_id by done. intros Hscan i api Hi Hapi.
      apply elem_of_cons in Hi as [->|Hi].
      * rewrite Hl in Hapi. injection Hapi as <-. by rewrite Hav.
      * by apply (IH Hscan i api).
    + exfalso. apply lookup_ge_None in Hl.
      assert (0 < Z.of_nat (length l)) as Hpos
        by (destruct l; [done|simpl; lia]).
      pose proof (Z.mod_pos_bound (start + Z.of_nat i0) _ Hpos). lia.
Qed.

(** The offsets [0 .. n-1] from any start reach every position of the
    pool. *)
Lemma offsets_cover (start : Z) (n k : nat) :
  (k < n)%nat →
  ∃ i : nat, i ∈ seq 0 n ∧
             Z.to_nat ((start + Z.of_nat i) mod Z.of_nat n) = k.
Proof.
  intros Hk.
  assert (0 < Z.of_nat n) as Hpos by lia.
  pose proof (Z.mod_pos_bound (Z.of_nat k - start) _ Hpos) as Hb.
  exists (Z.to_nat ((Z.of_nat k - start) mod Z.of_nat n)). split.
  - apply elem_of_seq. lia.
  - rewrite Z2Nat.id by lia. rewrite Z.add_mod_idemp_r by lia.
    replace (start + (Z.of_nat k - start)) with (Z.of_nat k) by lia.
    rewrite Z.mod_small by lia. lia.
Qed.

(** ** What a selection returns *)

(** The manager on which the scan of [get_active_api] runs: the one the
    sweep leaves when a sweep is forced or due. *)
Lemma swept_pool s service force now a0 l0 :
  apis s !! service = Some (a0 :: l0) →
  ∃ l1,
    apis (if force || _needs_health_check s service now
          then _perform_health_check s service now else s) !! service
    = Some l1 ∧
    length l1 = S (length l0).
Proof.
  intros Hs. destruct (force || _); [|by exists (a0 :: l0)].
  unfold _perform_health_check. rewrite Hs. simpl.
  rewrite lookup_insert_eq. eexists. split; [done|].
  simpl. f_equal. apply length_fmap.
Qed.

Lemma get_active_api_none_rejects s service force now s' l api :
  get_active_api s service force now = (Ok None, s') →
  apis s' !! service = Some l →
  api ∈ l →
  fst (_is_api_available api now) = false.
Proof.
  unfold get_active_api.
  destruct (apis s !! service) as [[|a0 l0]|] eqn:Hs.
  - intros [= <-]. rewrite Hs. intros [= <-] Hin.
    by apply elem_of_nil in Hin.
  - destruct (swept_pool s service force now a0 l0 Hs) as (l1 & Hl1 & Hlen).
    set (s1 := if force || _needs_health_check s service now
               then _perform_health_check s service now else s) in *.
    rewrite Hl1. simpl.
    destruct (current_api_index s1 !! service) as [start|]; [|discriminate].
    destruct (scan_apis _ _ _ _) as [[[index api1]|] l'] eqn:Hscan;
      [discriminate|].
    intros [= <-]. simpl. rewrite lookup_insert_eq. intros [= <-] Hin.
    pose proof (scan_apis_none _ _ _ _ _ Hscan) as ->.
    apply list_elem_of_lookup in Hin as [k Hk].
    destruct (offsets_cover start (length l1) k) as (i & Hi & Hik);
      [by eapply lookup_lt_Some|].
    apply (scan_apis_none_all now start (seq 0 (length l1)) l1 l1)
      with (i := i); [by destruct l1|done|done|].
    by rewrite Hik.
  - intros [= <-]. by rewrite Hs.
Qed.

(** The record that [get_active_api] returns is the first available one
    in the order of the pool, starting from the cursor and wrapping round;
    the cursor is left on it. *)
Theorem get_active_api_first_available s service force now api s' :
  get_active_api s service force now = (Ok (Some api), s') →
  ∃ l1 start (i : nat),
    apis (if force || _needs_health_check s service now
          then _perform_health_check s service now else s) !! service
    = Some l1 ∧
    current_api_index
      (if force || _needs_health_check s service now
       then _perform_health_check s service now else s) !! service
    = Some start ∧
    (i < length l1)%nat ∧
    current_api_index s' !! service
    = Some ((start + Z.of_nat i) mod Z.of_nat (length l1)) ∧
    (∃ api1,
       l1 !! Z.to_nat ((start + Z.of_nat i) mod Z.of_nat (length l1))
       = Some api1 ∧
       fst (_is_api_available api1 now) = true ∧
       api = note_use now (snd (_is_api_available api1 now))) ∧
    ∀ (j : nat) other,
      (j < i)%nat →
      l1 !! Z.to_nat ((start + Z.of_nat j) mod Z.of_nat (length l1))
      = Some other →
      fst (_is_api_available other now) = false.
Proof.
  unfold get_active_api.
  destruct (apis s !! service) as [[|a0 l0]|] eqn:Hs; try discriminate.
  destruct (swept_pool s service force now a0 l0 Hs) as (l1 & Hl1 & Hlen).
  set (s1 := if force || _needs_health_check s service now
             then _perform_health_check s service now else s) in *.
  rewrite Hl1. simpl.
  destruct (current_api_index s1 !! service) as [start|]; [|discriminate].
  destruct (scan_apis _ _ _ _) as [[[index api1']|] l'] eqn:Hscan;
    [|discriminate].
  intros [= <- <-].
  destruct (scan_apis_seq _ _ _ _ _ _ _ _ Hscan) as (i & Hi & Hidx & Hbefore).
  apply scan_apis_some in Hscan as (_ & api0 & _ & _ & Hl & Hav & _).
  exists l1, start, i. split; [done|]. split; [done|]. split; [lia|].
  split; [simpl; by rewrite lookup_insert_eq, Hidx|].
  split.
  - exists api0. rewrite <- Hidx. split; [done|]. by rewrite Hav.
  - intros j other Hj. apply Hbefore. lia.
Qed.

(** [get_active_api] answers "none" exactly when the lazy evaluation
    rejects every record of the pool, as the sweep (if one ran) left it: a
    usable record is never overlooked, and nothing is returned from a pool
    without one. *)
Theorem get_active_api_none_exhausted s service force now :
  is_Some (current_api_index (snd (get_active_api s service force now))
           !! service) →
  fst (get_active_api s service force now) = Ok None
  ↔ ∀ l api,
      apis (snd (get_active_api s service force now)) !! service = Some l →
      api ∈ l →
      fst (_is_api_available api now) = false.
Proof.
  remember (snd (get_active_api s service force now)) as s' eqn:Hs'.
  symmetry in Hs'. intros Hcur. split.
  - intros Hnone l api Hl Hin.
    apply (get_active_api_none_rejects s service force now s' l api);
      [|done|done].
    destruct (get_active_api s service force now). simpl in *. congruence.
  - intros Hall. subst s'.
    destruct (get_active_api s service force now) as [[[api|]|e] s'] eqn:Hget;
      simpl in *; [|done|].
    + exfalso.
      destruct (get_active_api_some _ _ _ _ _ _ Hget)
        as (index & l & _ & Hl & _ & Hi & Hst & _).
      pose proof (Hall l api Hl (list_elem_of_lookup_2 _ _ _ Hi)) as Hrej.
      by rewrite (steady_available api now Hst) in Hrej.
    + exfalso. revert Hget. unfold get_active_api.
      destruct (apis s !! service) as [[|a0 l0]|]; try discriminate.
      set (s1 := if force || _needs_health_check s service now
                 then _perform_health_check s service now else s).
      destruct (current_api_index s1 !! service) as [start|] eqn:Hstart.
      * destruct (scan_apis _ _ _ _) as [[[index api1]|] l'];
          discriminate.
      * intros [= <- <-]. rewrite Hstart in Hcur. by destruct Hcur.
Qed.

Lemma get_active_api_none_exhausted_witness :
  fst (get_active_api Examples.only_offline "qwen" false 10) = Ok None
  ↔ ∀ l api,
      apis (snd (get_active_api Examples.only_offline "qwen" false 10))
      !! "qwen" = Some l →
      api ∈ l → fst (_is_api_available api 10) = false.
Proof.
  apply (get_active_api_none_exhausted Examples.only_offline "qwen" false 10).
  vm_compute. eauto.
Defined.

Lemma get_active_api_first_available_witness :
  ∃ api s',
    get_active_api Examples.offline_then_B "qwen" false 10
    = (Ok (Some api), s') ∧
    ∃ l1 start (i : nat),
      apis (if false || _needs_health_check Examples.offline_then_B "qwen" 10
            then _perform_health_check Examples.offline_then_B "qwen" 10
            else Examples.offline_then_B) !! "qwen"
      = Some l1 ∧
      current_api_index
        (if false || _needs_health_check Examples.offline_then_B "qwen" 10
         then _perform_health_check Examples.offline_then_B "qwen" 10
         else Examples.offline_then_B) !! "qwen"
      = Some start ∧
      (i < length l1)%nat ∧
      current_api_index s' !! "qwen"
      = Some ((start + Z.of_nat i) mod Z.of_nat (length l1)) ∧
      (∃ api1,
         l1 !! Z.to_nat ((start + Z.of_nat i) mod Z.of_nat (length l1))
         = Some api1 ∧
         fst (_is_api_available api1 10) = true ∧
         api = note_use 10 (snd (_is_api_available api1 10))) ∧
      ∀ (j : nat) other,
        (j < i)%nat →
        l1 !! Z.to_nat ((start + Z.of_nat j) mod Z.of_nat (length l1))
        = Some other →
        fst (_is_api_available other 10) = false.
Proof.
  do 2 eexists. split; [vm_compute; reflexivity|].
  apply (get_active_api_first_available Examples.offline_then_B "qwen"
           false 10).
  vm_compute; reflexivity.
Defined.

Example offline_endpoint_is_skipped :
  ∃ api s',
    get_active_api Examples.offline_then_B "qwen" false 10
    = (Ok (Some api), s') ∧
    name api = "qwen_2" ∧
    current_api_index s' !! "qwen" = Some 1.
Proof. do 2 eexists. repeat split; vm_compute; reflexivity. Qed.

Lemma get_active_api_last_used s service force now api s' :
  get_active_api s service force now = (Ok (Some api), s') →
  last_used api = Some now.
Proof.
  unfold get_active_api.
  destruct (apis s !! service) as [[|a0 l0]|]; try discriminate.
  destruct (current_api_index _ !! service) as [start|]; [|discriminate].
  destruct (scan_apis _ _ _ _) as [[[index api1]|] l']; [|discriminate].
  by intros [= <- <-].
Qed.

(** The record returned is ACTIVE, or ERROR with at most five errors, never
    OFFLINE or RATE_LIMITED; it carries the time of the call as its last
    use, and it is the record that the pool now holds under the cursor. *)
Theorem get_active_api_returns_usable s service force now api s' :
  get_active_api s service force now = (Ok (Some api), s') →
  (status api = ACTIVE ∨ (status api = ERROR ∧ error_count api <= 5)) ∧
  last_used api = Some now ∧
  ∃ index l,
    current_api_index s' !! service = Some index ∧
    apis s' !! service = Some l ∧
    l !! Z.to_nat index = Some api.
Proof.
  intros H.
  destruct (get_active_api_some _ _ _ _ _ _ H)
    as (index & l & Hc & Hl & _ & Hi & Hst & _).
  split; [done|]. split; [|by exists index, l].
  by eapply get_active_api_last_used.
Qed.

Lemma get_active_api_returns_usable_witness :
  ∃ api s',
    get_active_api Examples.offline_then_B "qwen" false 10
    = (Ok (Some api), s') ∧
    (status api = ACTIVE ∨ (status api = ERROR ∧ error_count api <= 5)) ∧
    last_used api = Some 10 ∧
    ∃ index l,
      current_api_index s' !! "qwen" = Some index ∧
      apis s' !! "qwen" = Some l ∧
      l !! Z.to_nat index = Some api.
Proof.
  do 2 eexists. split; [vm_compute; reflexivity|].
  apply (get_active_api_returns_usable Examples.offline_then_B "qwen"
           false 10).
  vm_compute; reflexivity.
Defined.

(** ** Records are never created, removed or re-keyed *)

Lemma identity_is_api_available api now :
  identity (snd (_is_api_available api now)) = identity api.
Proof. unfold _is_api_available. by repeat case_match. Qed.

Lemma identity_health_check_api now api :
  identity (health_check_api now api) = identity api.
Proof. unfold health_check_api. by repeat case_match. Qed.

Lemma identity_mark_error api : identity (mark_error api) = identity api.
Proof. unfold mark_error. by case_match. Qed.

Lemma identity_reset_errors api : identity (reset_errors api) = identity api.
Proof. unfold reset_errors. by case_match. Qed.

Lemma identity_update_first_named nm f (l : list APIEndpoint) :
  (∀ api, identity (f api) = identity api) →
  identity <$> update_first_named nm f l = identity <$> l.
Proof.
  intros Hf. induction l as [|a l IH]; [done|]. cbn [update_first_named].
  destruct (String.eqb (name a) nm); rewrite !fmap_cons;
    [by rewrite Hf|by rewrite IH].
Qed.

Lemma credentials_set_pool s s' service l l' :
  apis s !! service = Some l →
  apis s' = <[service := l']> (apis s) →
  identity <$> l' = identity <$> l →
  credentials s' = credentials s.
Proof.
  intros Hl Hs' Hid. unfold credentials. rewrite Hs'. apply map_eq. intros k.
  rewrite !lookup_fmap. destruct (decide (service = k)) as [->|Hne].
  - by rewrite lookup_insert_eq, Hl; simpl; rewrite Hid.
  - by rewrite lookup_insert_ne.
Qed.

Lemma credentials_sweep s service now :
  credentials (_perform_health_check s service now) = credentials s.
Proof.
  unfold _perform_health_check.
  destruct (apis s !! service) as [l|] eqn:Hl; [|done].
  apply (credentials_set_pool s _ service l (health_check_api now <$> l));
    [done|done|].
  rewrite <- list_fmap_compose. apply list_fmap_ext.
  intros i a _. apply identity_health_check_api.
Qed.

Lemma credentials_get_active_api s service force now :
  credentials (snd (get_active_api s service force now)) = credentials s.
Proof.
  unfold get_active_api.
  destruct (apis s !! service) as [[|a0 l0]|] eqn:Hs; try done.
  destruct (swept_pool s service force now a0 l0 Hs) as (l1 & Hl1 & Hlen).
  assert (credentials
            (if force || _needs_health_check s service now
             then _perform_health_check s service now else s)
          = credentials s) as Hswept
    by (destruct (force || _); [apply credentials_sweep|done]).
  set (s1 := if force || _needs_health_check s service now
             then _perform_health_check s service now else s) in *.
  rewrite Hl1. simpl.
  destruct (current_api_index s1 !! service) as [start|]; [|done].
  destruct (scan_apis _ _ _ _) as [[[index api1]|] l'] eqn:Hscan; simpl.
  - rewrite <- Hswept.
    apply scan_apis_some in Hscan as (_ & api0 & _ & _ & Hl & Hav & ->).
    eapply (credentials_set_pool s1 _ service l1); [done|done|].
    rewrite list_insert_insert_eq, list_fmap_insert.
    apply list_insert_id. rewrite list_lookup_fmap, Hl. simpl. f_equal.
    pose proof (identity_is_api_available api0 now) as Hid.
    by rewrite Hav in Hid.
  - rewrite <- Hswept. apply scan_apis_none in Hscan as ->.
    by eapply (credentials_set_pool s1 _ service l1).
Qed.

Lemma credentials_try_fallbacks l now :
  ∀ s, credentials (snd (try_fallbacks s l now)) = credentials s.
Proof.
  induction l as [|svc l IH]; intros s; [done|]. simpl.
  pose proof (credentials_get_active_api s svc false now) as Hget.
  destruct (get_active_api s svc false now) as [[[api|]|e] s1]; simpl in *;
    [done| |done].
  by rewrite IH.
Qed.

(** No operation of the manager adds, removes, reorders or re-keys a
    record: the name, secret, base URL and request cap of every record of
    every pool are the same after it as before. *)
Theorem credentials_never_change s service api_name now :
  (∀ force,
     credentials (snd (get_active_api s service force now)) = credentials s) ∧
  credentials (_perform_health_check s service now) = credentials s ∧
  credentials (snd (mark_api_error s service api_name)) = credentials s ∧
  (∀ reset_time,
     credentials (snd (mark_api_rate_limited s service api_name reset_time
                         now)) = credentials s) ∧
  (∀ which, credentials (snd (reset_api_errors s which)) = credentials s) ∧
  credentials (snd (get_fallback_model s service now)) = credentials s.
Proof.
  split; [intros force; apply credentials_get_active_api|].
  split; [apply credentials_sweep|].
  split.
  { unfold mark_api_error.
    destruct (apis s !! service) as [l|] eqn:Hl; [|done]. simpl.
    eapply (credentials_set_pool s _ service l); [done|done|].
    apply identity_update_first_named, identity_mark_error. }
  split.
  { intros reset_time. unfold mark_api_rate_limited.
    destruct (apis s !! service) as [l|] eqn:Hl; [|done]. simpl.
    eapply (credentials_set_pool s _ service l); [done|done|].
    by apply identity_update_first_named. }
  split; [|apply credentials_try_fallbacks].
  intros which. unfold reset_api_errors.
  destruct (truthy which).
  - destruct (apis s !! default "" which) as [l|] eqn:Hl; [|done]. simpl.
    eapply (credentials_set_pool s _ _ l); [done|done|].
    rewrite <- list_fmap_compose. apply list_fmap_ext.
    intros i a _. apply identity_reset_errors.
  - simpl. unfold credentials. simpl. apply map_eq. intros k.
    rewrite !lookup_fmap. destruct (apis s !! k) as [l|]; [|done]. simpl.
    f_equal. rewrite <- list_fmap_compose. apply list_fmap_ext.
    intros i a _. apply identity_reset_errors.
Qed.

(** ** Reports about one record *)

Lemma update_first_named_insert nm f (l : list APIEndpoint) (i : nat) api :
  l !! i = Some api →
  name api = nm →
  (∀ (j : nat) a, (j < i)%nat → l !! j = Some a → name a ≠ nm) →
  update_first_named nm f l = <[i := f api]> l.
Proof.
  revert i. induction l as [|a l IH]; intros i Hi Hn Hfirst; [done|].
  simpl. destruct i as [|i]; simpl in Hi.
  - injection Hi as ->. by apply String.eqb_eq in Hn as ->.
  - destruct (String.eqb (name a) nm) eqn:Ha.
    + apply String.eqb_eq in Ha. exfalso.
      apply (Hfirst 0%nat a); [lia|done|done].
    + simpl. f_equal. apply IH; [done..|].
      intros j b Hj Hb. apply (Hfirst (S j) b); [lia|done].
Qed.

Lemma update_first_named_absent nm f (l : list APIEndpoint) :
  (∀ a, a ∈ l → name a ≠ nm) → update_first_named nm f l = l.
Proof.
  induction l as [|a l IH]; intros Hall; [done|]. simpl.
  destruct (String.eqb (name a) nm) eqn:Ha.
  - apply String.eqb_eq in Ha. exfalso. apply (Hall a); [left|done].
  - f_equal. apply IH. intros b Hb. apply Hall. by right.
Qed.

Lemma set_apis_same s l service :
  apis s !! service = Some l →
  set_apis (<[service := l]> (apis s)) s = s.
Proof. intros Hl. destruct s. unfold set_apis. simpl in *. by rewrite insert_id. Qed.

(** [mark_api_error] touches one record only, the first of that name in
    the pool of the service: its error count goes up by one, and its status
    becomes ERROR when the new count exceeds 3, whatever the status was
    (OFFLINE and RATE_LIMITED included).  Its other fields, the other
    records, the other pools, the cursors and the sweep times stay as they
    were. *)
Theorem mark_api_error_touches_one_record s service api_name l (i : nat) api :
  apis s !! service = Some l →
  l !! i = Some api →
  name api = api_name →
  (∀ (j : nat) a, (j < i)%nat → l !! j = Some a → name a ≠ api_name) →
  ∃ s',
    mark_api_error s service api_name = (Ok tt, s') ∧
    apis s'
    = <[service :=
          <[i := mkAPIEndpoint (name api) (api_key api) (base_url api)
                   (if 3 <? error_count api + 1 then ERROR else status api)
                   (last_used api) (error_count api + 1)
                   (rate_limit_reset api) (requests_made api)
                   (max_requests_per_minute api)]> l]> (apis s) ∧
    current_api_index s' = current_api_index s ∧
    last_health_check s' = last_health_check s ∧
    health_check_interval s' = health_check_interval s.
Proof.
  intros Hl Hi Hn Hfirst. unfold mark_api_error. rewrite Hl.
  eexists. split; [done|]. simpl. split; [|done].
  rewrite (update_first_named_insert api_name mark_error l i api) by done.
  do 2 f_equal. unfold mark_error. simpl. by destruct (3 <? _).
Qed.

Lemma mark_api_error_touches_one_record_witness :
  ∃ s',
    mark_api_error Examples.offline_failing_then_B "qwen" "qwen_1"
    = (Ok tt, s') ∧
    apis s'
    = <["qwen" :=
          <[0%nat :=
              mkAPIEndpoint (name Examples.endpoint_offline_failing)
                (api_key Examples.endpoint_offline_failing)
                (base_url Examples.endpoint_offline_failing)
                (if 3 <? error_count Examples.endpoint_offline_failing + 1
                 then ERROR else status Examples.endpoint_offline_failing)
                (last_used Examples.endpoint_offline_failing)
                (error_count Examples.endpoint_offline_failing + 1)
                (rate_limit_reset Examples.endpoint_offline_failing)
                (requests_made Examples.endpoint_offline_failing)
                (max_requests_per_minute Examples.endpoint_offline_failing)]>
            [Examples.endpoint_offline_failing; Examples.endpoint_B]]>
        (apis Examples.offline_failing_then_B) ∧
    current_api_index s' = current_api_index Examples.offline_failing_then_B ∧
    last_health_check s' = last_health_check Examples.offline_failing_then_B ∧
    health_check_interval s'
    = health_check_interval Examples.offline_failing_then_B.
Proof.
  apply (mark_api_error_touches_one_record Examples.offline_failing_then_B
           "qwen" "qwen_1"
           [Examples.endpoint_offline_failing; Examples.endpoint_B] 0
           Examples.endpoint_offline_failing).
  - reflexivity.
  - reflexivity.
  - reflexivity.
  - intros j a Hj. lia.
Defined.

(** An OFFLINE endpoint that has failed three times is reported failing
    once more: it becomes ERROR and the next selection returns it. *)
Example offline_endpoint_revived_by_error_report :
  fst (get_active_api Examples.offline_failing_then_B "qwen" false 10)
  = Ok (Some (note_use 10 Examples.endpoint_B)) ∧
  ∃ s' api s'',
    mark_api_error Examples.offline_failing_then_B "qwen" "qwen_1"
    = (Ok tt, s') ∧
    get_active_api s' "qwen" false 10 = (Ok (Some api), s'') ∧
    name api = "qwen_1" ∧ status api = ERROR ∧ error_count api = 4.
Proof.
  split; [vm_compute; reflexivity|].
  do 3 eexists. repeat split; vm_compute; reflexivity.
Qed.

(** [mark_api_rate_limited] puts the first record of that name in the
    RATE_LIMITED status until [reset_time], or for one minute when no time
    is given.  The lazy evaluation rejects the record up to and including
    that time; evaluated after it, the record is usable again, ACTIVE with
    its request counter at zero and its error count untouched. *)
Theorem mark_api_rate_limited_round_trip
    s service api_name reset_time now l (i : nat) api :
  apis s !! service = Some l →
  l !! i = Some api →
  name api = api_name →
  (∀ (j : nat) a, (j < i)%nat → l !! j = Some a → name a ≠ api_name) →
  ∃ s' api',
    mark_api_rate_limited s service api_name reset_time now = (Ok tt, s') ∧
    apis s' = <[service := <[i := api']> l]> (apis s) ∧
    status api' = RATE_LIMITED ∧
    rate_limit_reset api' = Some (default (now + minutes 1) reset_time) ∧
    (∀ now', now' <= default (now + minutes 1) reset_time →
             _is_api_available api' now' = (false, api')) ∧
    (∀ now', default (now + minutes 1) reset_time < now' →
             ∃ api'',
               _is_api_available api' now' = (true, api'') ∧
               status api'' = ACTIVE ∧
               requests_made api'' = 0 ∧
               error_count api'' = error_count api).
Proof.
  intros Hl Hi Hn Hfirst. unfold mark_api_rate_limited. rewrite Hl.
  exists (set_apis
            (<[service :=
                 update_first_named api_name
                   (mark_rate_limited reset_time now) l]> (apis s)) s),
         (mark_rate_limited reset_time now api).
  split; [done|]. split.
  { simpl. by rewrite (update_first_named_insert api_name _ l i api). }
  split; [done|]. split; [done|]. split.
  - intros now' Hle. apply rate_limited_unavailable; [done|].
    unfold reset_passed. simpl. by apply Z.ltb_ge.
  - intros now' Hlt. eexists. split.
    + apply is_api_available_expired; [done|].
      unfold reset_passed. simpl. by apply Z.ltb_lt.
    + done.
Qed.

Lemma mark_api_rate_limited_round_trip_witness :
  ∃ s' api',
    mark_api_rate_limited Examples.two_endpoints "qwen" "qwen_2" None 1000
    = (Ok tt, s') ∧
    apis s'
    = <["qwen" := <[1%nat := api']> [Examples.endpoint_A; Examples.endpoint_B]]>
        (apis Examples.two_endpoints) ∧
    status api' = RATE_LIMITED ∧
    rate_limit_reset api' = Some (default (1000 + minutes 1) None) ∧
    (∀ now', now' <= default (1000 + minutes 1) None →
             _is_api_available api' now' = (false, api')) ∧
    (∀ now', default (1000 + minutes 1) None < now' →
             ∃ api'',
               _is_api_available api' now' = (true, api'') ∧
               status api'' = ACTIVE ∧
               requests_made api'' = 0 ∧
               error_count api'' = error_count Examples.endpoint_B).
Proof.
  apply (mark_api_rate_limited_round_trip Examples.two_endpoints "qwen"
           "qwen_2" None 1000 [Examples.endpoint_A; Examples.endpoint_B] 1
           Examples.endpoint_B).
  - reflexivity.
  - reflexivity.
  - reflexivity.
  - intros j a Hj Ha. destruct j as [|[|j]]; [|lia|lia].
    injection Ha as <-. vm_compute. discriminate.
Defined.

(** ** Unknown services and names *)

(** For a service that the manager does not know, the two reports and the
    reset of that service raise [KeyError], and selection answers "none";
    none of them changes the manager.  A sweep of such a service changes
    nothing either. *)
Theorem unknown_service_changes_nothing
    s service api_name reset_time force now :
  apis s !! service = None →
  mark_api_error s service api_name = (Raise (key_error service), s) ∧
  mark_api_rate_limited s service api_name reset_time now
  = (Raise (key_error service), s) ∧
  (service ≠ "" →
   reset_api_errors s (Some service) = (Raise (key_error service), s)) ∧
  get_active_api s service force now = (Ok None, s) ∧
  _perform_health_check s service now = s.
Proof.
  intros Hs.
  unfold mark_api_error, mark_api_rate_limited, reset_api_errors,
    get_active_api, _perform_health_check.
  rewrite Hs. repeat split; try done.
  intros Hne. simpl.
  destruct (String.eqb service "") eqn:He;
    [by apply String.eqb_eq in He|].
  simpl. by rewrite Hs.
Qed.

Lemma unknown_service_changes_nothing_witness :
  mark_api_error Examples.two_endpoints "groq" "groq_1"
  = (Raise (key_error "groq"), Examples.two_endpoints) ∧
  mark_api_rate_limited Examples.two_endpoints "groq" "groq_1" None 10
  = (Raise (key_error "groq"), Examples.two_endpoints) ∧
  ("groq" ≠ "" →
   reset_api_errors Examples.two_endpoints (Some "groq")
   = (Raise (key_error "groq"), Examples.two_endpoints)) ∧
  get_active_api Examples.two_endpoints "groq" true 10
  = (Ok None, Examples.two_endpoints) ∧
  _perform_health_check Examples.two_endpoints "groq" 10
  = Examples.two_endpoints.
Proof.
  apply (unknown_service_changes_nothing Examples.two_endpoints "groq"
           "groq_1" None true 10).
  reflexivity.
Defined.

(** A report that names no record of the pool leaves the manager exactly
    as it was. *)
Theorem unknown_name_changes_nothing s service api_name reset_time now l :
  apis s !! service = Some l →
  (∀ a, a ∈ l → name a ≠ api_name) →
  mark_api_error s service api_name = (Ok tt, s) ∧
  mark_api_rate_limited s service api_name reset_time now = (Ok tt, s).
Proof.
  intros Hl Hall. unfold mark_api_error, mark_api_rate_limited.
  rewrite Hl, !update_first_named_absent by done.
  by rewrite set_apis_same.
Qed.

Lemma unknown_name_changes_nothing_witness :
  mark_api_error Examples.two_endpoints "qwen" "qwen_7"
  = (Ok tt, Examples.two_endpoints) ∧
  mark_api_rate_limited Examples.two_endpoints "qwen" "qwen_7" None 10
  = (Ok tt, Examples.two_endpoints).
Proof.
  apply (unknown_name_changes_nothing Examples.two_endpoints "qwen" "qwen_7"
           None 10 [Examples.endpoint_A; Examples.endpoint_B]).
  - reflexivity.
  - intros a Ha.
    repeat (apply elem_of_cons in Ha as [->|Ha]);
      [vm_compute; discriminate..|by apply elem_of_nil in Ha].
Defined.

(** ** Reset of the error counters *)

(** [reset_api_errors] with no service (or the empty name) resets every
    pool: afterwards no record has errors counted or the ERROR status.  A
    record that was not ERROR keeps its status, so the reset revives
    neither an OFFLINE nor a RATE_LIMITED record; rate-limit times, request
    counters and last-use times are never touched. *)
Theorem reset_api_errors_all s which :
  truthy which = false →
  ∃ s',
    reset_api_errors s which = (Ok tt, s') ∧
    ∀ service l,
      apis s !! service = Some l →
      ∃ l',
        apis s' !! service = Some l' ∧
        length l' = length l ∧
        ∀ (i : nat) api,
          l !! i = Some api →
          ∃ api',
            l' !! i = Some api' ∧
            error_count api' = 0 ∧
            status api' ≠ ERROR ∧
            (status api ≠ ERROR → status api' = status api) ∧
            rate_limit_reset api' = rate_limit_reset api ∧
            requests_made api' = requests_made api ∧
            last_used api' = last_used api.
Proof.
  intros Hwhich. unfold reset_api_errors. rewrite Hwhich.
  eexists. split; [done|]. intros service l Hl.
  exists (reset_errors <$> l). simpl. rewrite lookup_fmap, Hl.
  split; [done|]. split; [apply length_fmap|].
  intros i api Hi. exists (reset_errors api).
  rewrite list_lookup_fmap, Hi. split; [done|].
  unfold reset_errors. simpl.
  destruct (status api) eqn:Hst; simpl; rewrite ?Hst; by repeat split.
Qed.

Lemma reset_api_errors_all_witness :
  ∃ s',
    reset_api_errors Examples.mixed_pool None = (Ok tt, s') ∧
    ∀ service l,
      apis Examples.mixed_pool !! service = Some l →
      ∃ l',
        apis s' !! service = Some l' ∧
        length l' = length l ∧
        ∀ (i : nat) api,
          l !! i = Some api →
          ∃ api',
            l' !! i = Some api' ∧
            error_count api' = 0 ∧
            status api' ≠ ERROR ∧
            (status api ≠ ERROR → status api' = status api) ∧
            rate_limit_reset api' = rate_limit_reset api ∧
            requests_made api' = requests_made api ∧
            last_used api' = last_used api.
Proof.
  apply (reset_api_errors_all Examples.mixed_pool None). reflexivity.
Defined.

Example reset_revives_only_the_errored :
  (fun l : list APIEndpoint => status <$> l)
    <$> apis (snd (reset_api_errors Examples.mixed_pool None)) !! "qwen"
  = Some [ACTIVE; RATE_LIMITED; OFFLINE].
Proof. vm_compute. reflexivity. Qed.

(** ** The health sweep *)

Lemma health_check_api_idemp now api :
  health_check_api now (health_check_api now api) = health_check_api now api.
Proof.
  destruct api as [n k u st lu ec rl rm cap].
  unfold health_check_api, reset_passed; simpl.
  destruct st; simpl; try done;
    destruct rl as [t|]; simpl;
    try (destruct (t <? now) eqn:Ht; simpl);
    try (destruct (cap <=? 0) eqn:Hc0; simpl);
    try (destruct (cap <=? rm) eqn:Hc; simpl);
    rewrite ?Ht, ?Hc0, ?Hc; simpl;
    try (replace (now + minutes 1 <? now) with false
           by (symmetry; apply Z.ltb_ge; unfold minutes; lia); simpl);
    rewrite ?Hc0, ?Hc; done.
Qed.

(** After a sweep of a known service at [now], no sweep of it is due until
    more than the check interval has passed, and a second sweep at the same
    time changes nothing.  The sweep leaves OFFLINE records exactly as they
    were. *)
Theorem sweep_settles s service now l :
  apis s !! service = Some l →
  (∀ now', now' <= now + health_check_interval s →
           _needs_health_check (_perform_health_check s service now)
             service now' = false) ∧
  _perform_health_check (_perform_health_check s service now) service now
  = _perform_health_check s service now ∧
  ∀ (i : nat) api,
    l !! i = Some api → status api = OFFLINE →
    apis (_perform_health_check s service now) !! service
    ≫= (fun l' => l' !! i) = Some api.
Proof.
  intros Hl. destruct s as [pools cursors interval checks]. simpl in Hl.
  unfold _perform_health_check, _needs_health_check,
    set_last_health_check, set_apis.
  cbn [apis current_api_index health_check_interval last_health_check].
  rewrite Hl.
  cbn [apis current_api_index health_check_interval last_health_check].
  rewrite !lookup_insert_eq. split; [|split].
  - intros now' Hle. apply Z.ltb_ge. unfold seconds. lia.
  - rewrite !insert_insert_eq, <- list_fmap_compose. f_equal. f_equal.
    apply list_fmap_ext. intros i a _. apply health_check_api_idemp.
  - intros i api Hi Hoff. simpl. rewrite list_lookup_fmap, Hi. simpl.
    f_equal. unfold health_check_api. by rewrite Hoff.
Qed.

Lemma sweep_settles_witness :
  (∀ now', now' <= 400 + health_check_interval Examples.mixed_pool →
           _needs_health_check
             (_perform_health_check Examples.mixed_pool "qwen" 400)
             "qwen" now' = false) ∧
  _perform_health_check
    (_perform_health_check Examples.mixed_pool "qwen" 400) "qwen" 400
  = _perform_health_check Examples.mixed_pool "qwen" 400 ∧
  ∀ (i : nat) api,
    [Examples.endpoint_failing; Examples.endpoint_limited;
     Examples.endpoint_offline] !! i = Some api →
    status api = OFFLINE →
    apis (_perform_health_check Examples.mixed_pool "qwen" 400) !! "qwen"
    ≫= (fun l' => l' !! i) = Some api.
Proof.
  apply (sweep_settles Examples.mixed_pool "qwen" 400). reflexivity.
Defined.

(** ** The status report *)

Lemma count_status_value v st :
  count_status (status_value v) st
  = mkServiceStatus (total_apis st)
      (active st + (if status_eqb v ACTIVE then 1 else 0))
      (rate_limited st + (if status_eqb v RATE_LIMITED then 1 else 0))
      (error st + (if status_eqb v ERROR then 1 else 0))
      (offline st + (if status_eqb v OFFLINE then 1 else 0))
      (apis_report st).
Proof.
  destruct st as [t a r e o rep].
  destruct v; unfold count_status; simpl; by rewrite ?Z.add_0_r.
Qed.

Lemma filter_status_cons v api (l : list APIEndpoint) :
  Z.of_nat (length (filter (fun a => status_eqb (status a) v = true)
                      (api :: l)))
  = (if status_eqb (status api) v then 1 else 0)
    + Z.of_nat (length (filter (fun a => status_eqb (status a) v = true) l)).
Proof.
  rewrite filter_cons. destruct (status_eqb (status api) v) eqn:Hv.
  - rewrite decide_True by done. simpl. lia.
  - rewrite decide_False by (by intros ?). simpl. lia.
Qed.

Lemma service_status_from (l : list APIEndpoint) :
  ∀ st,
    total_apis (foldl report_api st l) = total_apis st ∧
    active (foldl report_api st l)
    = active st
      + Z.of_nat (length (filter (fun a => status_eqb (status a) ACTIVE = true)
                            l)) ∧
    rate_limited (foldl report_api st l)
    = rate_limited st
      + Z.of_nat (length (filter (fun a => status_eqb (status a) RATE_LIMITED
                                           = true) l)) ∧
    error (foldl report_api st l)
    = error st
      + Z.of_nat (length (filter (fun a => status_eqb (status a) ERROR = true)
                            l)) ∧
    offline (foldl report_api st l)
    = offline st
      + Z.of_nat (length (filter (fun a => status_eqb (status a) OFFLINE
                                           = true) l)) ∧
    active (foldl report_api st l) + rate_limited (foldl report_api st l)
    + error (foldl report_api st l) + offline (foldl report_api st l)
    = active st + rate_limited st + error st + offline st
      + Z.of_nat (length l) ∧
    apis_report (foldl report_api st l)
    = (apis_report st
       ++ ((fun api => mkAPIReport (name api) (status_value (status api))
                         (error_count api) (requests_made api)
                         (last_used api)) <$> l))%list.
Proof.
  induction l as [|api l IH]; intros st.
  - simpl. rewrite !Z.add_0_r, app_nil_r. by repeat split.
  - cbn [foldl]. destruct (IH (report_api st api))
      as (Ht & Ha & Hr & He & Ho & Hsum & Hrep).
    rewrite Ht, Ha, Hr, He, Ho, Hrep, !filter_status_cons.
    unfold report_api. rewrite count_status_value. cbn -[Z.add Z.of_nat].
    rewrite <- app_assoc.
    repeat split; try done; try lia.
    destruct (status api); simpl; rewrite Nat2Z.inj_succ; lia.
Qed.

(** In the status report every record of a pool is counted under exactly
    one of the four statuses, the one it has in store: each counter is the
    number of records of that status, the four add up to [total_apis], and
    the list of entries follows the pool, record by record. *)
Theorem status_report_counts s now service l :
  apis s !! service = Some l →
  ∃ r,
    snd (get_api_status_report s now) !! service = Some r ∧
    total_apis r = Z.of_nat (length l) ∧
    active r
    = Z.of_nat (length (filter (fun a => status_eqb (status a) ACTIVE = true)
                          l)) ∧
    rate_limited r
    = Z.of_nat (length (filter (fun a => status_eqb (status a) RATE_LIMITED
                                         = true) l)) ∧
    error r
    = Z.of_nat (length (filter (fun a => status_eqb (status a) ERROR = true)
                          l)) ∧
    offline r
    = Z.of_nat (length (filter (fun a => status_eqb (status a) OFFLINE = true)
                          l)) ∧
    active r + rate_limited r + error r + offline r = total_apis r ∧
    apis_report r
    = (fun api => mkAPIReport (name api) (status_value (status api))
                    (error_count api) (requests_made api) (last_used api))
        <$> l.
Proof.
  intros Hl. exists (service_status l).
  unfold get_api_status_report. simpl. rewrite lookup_fmap, Hl.
  split; [done|]. unfold service_status.
  destruct (service_status_from l
              (mkServiceStatus (Z.of_nat (length l)) 0 0 0 0 []))
    as (Ht & Ha & Hr & He & Ho & Hsum & Hrep).
  rewrite Ht, Ha, Hr, He, Ho, Hrep in *. simpl in *.
  repeat split; done.
Qed.

Lemma status_report_counts_witness :
  ∃ r,
    snd (get_api_status_report Examples.mixed_pool 10) !! "qwen" = Some r ∧
    total_apis r
    = Z.of_nat (length [Examples.endpoint_failing; Examples.endpoint_limited;
                        Examples.endpoint_offline]) ∧
    active r
    = Z.of_nat (length (filter (fun a => status_eqb (status a) ACTIVE = true)
                          [Examples.endpoint_failing;
                           Examples.endpoint_limited;
                           Examples.endpoint_offline])) ∧
    rate_limited r
    = Z.of_nat (length (filter (fun a => status_eqb (status a) RATE_LIMITED
                                         = true)
                          [Examples.endpoint_failing;
                           Examples.endpoint_limited;
                           Examples.endpoint_offline])) ∧
    error r
    = Z.of_nat (length (filter (fun a => status_eqb (status a) ERROR = true)
                          [Examples.endpoint_failing;
                           Examples.endpoint_limited;
                           Examples.endpoint_offline])) ∧
    offline r
    = Z.of_nat (length (filter (fun a => status_eqb (status a) OFFLINE = true)
                          [Examples.endpoint_failing;
                           Examples.endpoint_limited;
                           Examples.endpoint_offline])) ∧
    active r + rate_limited r + error r + offline r = total_apis r ∧
    apis_report r
    = (fun api => mkAPIReport (name api) (status_value (status api))
                    (error_count api) (requests_made api) (last_used api))
        <$> [Examples.endpoint_failing; Examples.endpoint_limited;
             Examples.endpoint_offline].
Proof.
  apply (status_report_counts Examples.mixed_pool 10 "qwen"). reflexivity.
Defined.

Example status_report_of_mixed_pool :
  (fun r => (total_apis r, active r, rate_limited r, error r, offline r))
    <$> snd (get_api_status_report Examples.mixed_pool 10) !! "qwen"
  = Some (3, 0, 1, 1, 1).
Proof. vm_compute. reflexivity. Qed.

(** ** The pools right after construction *)

Lemma omap_imap_elem {A B : Type} (f : nat → A → option B) (l : list A) b :
  b ∈ omap id (imap f l) → ∃ (i : nat) a, l !! i = Some a ∧ f i a = Some b.
Proof.
  revert f. induction l as [|a l IH]; intros f; simpl.
  - intros H. by apply elem_of_nil in H.
  - destruct (f 0%nat a) as [b0|] eqn:Hf; simpl.
    + intros [->|Hin]%elem_of_cons.
      * by exists 0%nat, a.
      * destruct (IH _ Hin) as (i & a' & Hi & Hfi). by exists (S i), a'.
    + intros Hin. destruct (IH _ Hin) as (i & a' & Hi & Hfi).
      by exists (S i), a'.
Qed.

Lemma omap_imap_names (f : nat → option string → option APIEndpoint)
    (mk : nat → string) (l : list (option string)) :
  (∀ i j, mk i = mk j → i = j) →
  (∀ i a b, f i a = Some b → name b = mk i) →
  NoDup (name <$> omap id (imap f l)).
Proof.
  revert f mk. induction l as [|a l IH]; intros f mk Hinj Hname; simpl.
  - constructor.
  - assert (NoDup (name <$> omap id (imap (f ∘ S) l))) as Htail.
    { apply (IH _ (mk ∘ S)).
      - intros i j Hij. apply Hinj in Hij. lia.
      - intros i a' b Hb. by apply Hname in Hb. }
    destruct (f 0%nat a) as [b0|] eqn:Hf; simpl; [|done].
    constructor; [|done].
    intros Hin. apply list_elem_of_fmap in Hin as (b & Hb & Hin).
    apply omap_imap_elem in Hin as (i & a' & _ & Hfi).
    apply Hname in Hf, Hfi. simpl in Hfi.
    assert (0%nat = S i) by (apply Hinj; congruence). lia.
Qed.

Lemma load_endpoints_fresh prefix url cap placeholders keys :
  NoDup (name <$> load_endpoints prefix url cap placeholders keys) ∧
  ∀ api,
    api ∈ load_endpoints prefix url cap placeholders keys →
    status api = ACTIVE ∧ error_count api = 0 ∧ requests_made api = 0 ∧
    rate_limit_reset api = None ∧ last_used api = None ∧
    api_key api ≠ "" ∧ (api_key api ∉ placeholders) ∧
    max_requests_per_minute api = cap.
Proof.
  unfold load_endpoints. split.
  - apply (omap_imap_names _ (fun i => prefix +:+ ("_" +:+ pretty (S i)))).
    + intros i j Hij. apply (inj (String.app prefix)) in Hij.
      apply (inj (String.app "_")) in Hij.
      apply (inj pretty) in Hij. lia.
    + intros i a b. destruct (configured placeholders a); [|done].
      by intros [= <-].
  - intros api (i & key & _ & Hf)%omap_imap_elem.
    destruct (configured placeholders key) eqn:Hc; [|done].
    injection Hf as <-. simpl.
    destruct key as [k|]; [|done]. simpl in *.
    apply andb_prop in Hc as [Hne Hph].
    repeat split; try done.
    + intros ->. simpl in Hne. done.
    + intros Hin. by rewrite bool_decide_eq_true_2 in Hph.
Qed.

Lemma init_pool_cases env now service l :
  apis (__init__ env now) !! service = Some l →
  ∃ prefix url cap placeholders keys,
    0 < cap ∧ l = load_endpoints prefix url cap placeholders keys.
Proof.
  unfold __init__, _load_api_configurations. cbn [apis]. intros H.
  repeat match type of H with
         | <[?k := _]> _ !! ?j = _ =>
             destruct (decide (k = j)) as [<-|?];
             [rewrite lookup_insert_eq in H; injection H as <-;
              eexists _, _, _, _, _; split; [|reflexivity]; lia
             |rewrite lookup_insert_ne in H by done]
         end.
  by rewrite lookup_empty in H.
Qed.

Lemma fresh_health_check_api now api :
  status api = ACTIVE → requests_made api = 0 → rate_limit_reset api = None →
  0 < max_requests_per_minute api →
  health_check_api now api = api.
Proof.
  intros Hs Hr Hl Hcap. unfold health_check_api, reset_passed.
  rewrite Hs, Hl, Hr. simpl. by apply Z.leb_gt in Hcap as ->.
Qed.

(** Right after construction every pool holds fresh records with distinct
    names: each is ACTIVE with no error, no request and no rate limit, and
    carries a non-empty secret and a positive cap.  A sweep is due for
    every service from the time of construction on, and the first selection
    from a pool that is not empty returns its first record and leaves the
    cursor at 0. *)
Theorem pools_after_construction env now service l :
  apis (__init__ env now) !! service = Some l →
  NoDup (name <$> l) ∧
  (∀ api,
     api ∈ l →
     status api = ACTIVE ∧ error_count api = 0 ∧ requests_made api = 0 ∧
     rate_limit_reset api = None ∧ last_used api = None ∧
     api_key api ≠ "" ∧ 0 < max_requests_per_minute api) ∧
  (∀ now', now <= now' →
           _needs_health_check (__init__ env now) service now' = true) ∧
  (∀ now' first rest,
     now <= now' → l = first :: rest →
     ∃ s',
       get_active_api (__init__ env now) service false now'
       = (Ok (Some (note_use now' first)), s') ∧
       current_api_index s' !! service = Some 0).
Proof.
  intros Hl.
  destruct (init_pool_cases env now service l Hl)
    as (prefix & url & cap & ph & keys & Hcap & ->).
  destruct (load_endpoints_fresh prefix url cap ph keys) as [Hnodup Hfresh].
  assert (∀ now', now <= now' →
            _needs_health_check (__init__ env now) service now' = true)
    as Hdue.
  { intros now' Hle. unfold _needs_health_check, __init__.
    unfold __init__ in Hl.
    destruct (_load_api_configurations env) as [pools cursors].
    simpl in *. rewrite lookup_fmap, Hl. simpl.
    apply Z.ltb_lt. unfold seconds, minutes. lia. }
  split; [done|]. split.
  { intros api Hin. destruct (Hfresh api Hin)
      as (? & ? & ? & ? & ? & ? & ? & Hmax).
    repeat split; try done. by rewrite Hmax. }
  split; [done|].
  intros now' first rest Hle Hcons.
  pose proof (enhanced_init_pool env now service _ Hl) as Hcur.
  unfold get_active_api. rewrite Hl, Hcons, (Hdue now' Hle).
  cbn [orb]. unfold _perform_health_check. rewrite Hl, Hcons.
  assert (health_check_api now' <$> first :: rest = first :: rest) as Hsame.
  { rewrite <- (list_fmap_id (first :: rest)) at 2. apply list_fmap_ext.
    intros i a Ha. apply list_elem_of_lookup_2 in Ha.
    rewrite <- Hcons in Ha.
    destruct (Hfresh a Ha) as (? & ? & ? & ? & ? & ? & ? & Hmax).
    apply fresh_health_check_api; try done. unfold id. by rewrite Hmax. }
  rewrite Hsame. cbn [apis current_api_index set_last_health_check set_apis].
  rewrite lookup_insert_eq, Hcur. cbn [default id].
  replace (seq 0 (length (first :: rest)))
    with (0%nat :: seq 1 (length rest)) by done.
  assert ((0 + Z.of_nat 0) mod Z.of_nat (length (first :: rest)) = 0)
    as Hmod by (apply Z.mod_0_l; simpl; lia).
  rewrite (scan_apis_first now' 0 0 _ (first :: rest) first);
    rewrite ?Hmod.
  - eexists. split; [done|]. simpl. by rewrite !lookup_insert_eq.
  - done.
  - left. apply (Hfresh first). rewrite Hcons. left.
Qed.

Lemma pools_after_construction_witness :
  ∃ l,
    apis (__init__ Examples.partial_env 1000) !! "exa" = Some l ∧
    NoDup (name <$> l) ∧
    (∀ api,
       api ∈ l →
       status api = ACTIVE ∧ error_count api = 0 ∧ requests_made api = 0 ∧
       rate_limit_reset api = None ∧ last_used api = None ∧
       api_key api ≠ "" ∧ 0 < max_requests_per_minute api) ∧
    (∀ now', 1000 <= now' →
             _needs_health_check (__init__ Examples.partial_env 1000)
               "exa" now' = true) ∧
    (∀ now' first rest,
       1000 <= now' → l = first :: rest →
       ∃ s',
         get_active_api (__init__ Examples.partial_env 1000) "exa" false now'
         = (Ok (Some (note_use now' first)), s') ∧
         current_api_index s' !! "exa" = Some 0).
Proof.
  eexists. split; [vm_compute; reflexivity|].
  apply (pools_after_construction Examples.partial_env 1000 "exa").
  vm_compute; reflexivity.
Defined.

(** Names follow the position of the variable, not the number of keys
    found; a placeholder value counts as no key. *)
Example pools_of_partial_env :
  (fun l : list APIEndpoint => (fun a => (name a, api_key a)) <$> l)
    <$> apis (__init__ Examples.partial_env 1000) !! "exa"
  = Some [("exa_2", "exa-2")] ∧
  apis (__init__ Examples.partial_env 1000) !! "gemini" = Some [] ∧
  (fun l : list APIEndpoint => name <$> l)
    <$> apis (__init__ Examples.partial_env 1000) !! "groq"
  = Some ["groq_1"].
Proof. repeat split; vm_compute; reflexivity. Qed.

(** ** Fallback between services *)

Lemma get_active_api_frame s service force now other :
  other ≠ service →
  apis (snd (get_active_api s service force now)) !! other = apis s !! other.
Proof.
  intros Hne. unfold get_active_api.
  destruct (apis s !! service) as [[|a0 l0]|] eqn:Hs; try done.
  assert (apis (if force || _needs_health_check s service now
                then _perform_health_check s service now else s) !! other
          = apis s !! other) as Hswept.
  { destruct (force || _); [|done].
    unfold _perform_health_check. rewrite Hs. simpl.
    by rewrite lookup_insert_ne. }
  set (s1 := if force || _needs_health_check s service now
             then _perform_health_check s service now else s) in *.
  destruct (current_api_index s1 !! service) as [start|]; [|done].
  destruct (scan_apis _ _ _ _) as [[[index api1]|] l']; simpl;
    by rewrite lookup_insert_ne.
Qed.

Lemma try_fallbacks_frame l now other :
  ∀ s, other ∉ l →
       apis (snd (try_fallbacks s l now)) !! other = apis s !! other.
Proof.
  induction l as [|svc l IH]; intros s Hnotin; [done|]. simpl.
  apply not_elem_of_cons in Hnotin as [Hne Hnotin].
  pose proof (get_active_api_frame s svc false now other Hne) as Hget.
  destruct (get_active_api s svc false now) as [[[api|]|e] s1]; simpl in *;
    [done| |done].
  by rewrite IH.
Qed.

Lemma try_fallbacks_some l now :
  ∀ s service api s',
    try_fallbacks s l now = (Ok (Some (service, api)), s') →
    service ∈ l ∧
    ∃ s0, get_active_api s0 service false now = (Ok (Some api), s').
Proof.
  induction l as [|svc l IH]; intros s service api s'; simpl;
    [discriminate|].
  destruct (get_active_api s svc false now) as [[[api0|]|e] s1] eqn:Hget;
    [|intros [Hin Hs0]%IH|discriminate].
  - intros [= <- <- <-]. split; [left|]. by exists s.
  - split; [by right|done].
Qed.

Lemma try_fallbacks_none l now :
  NoDup l →
  ∀ s s',
    try_fallbacks s l now = (Ok None, s') →
    ∀ service pool api,
      service ∈ l → apis s' !! service = Some pool → api ∈ pool →
      fst (_is_api_available api now) = false.
Proof.
  induction 1 as [|svc l Hnotin Hnodup IH]; intros s s'; simpl.
  - intros _ service pool api Hin. by apply elem_of_nil in Hin.
  - destruct (get_active_api s svc false now) as [[[api0|]|e] s1] eqn:Hget;
      try discriminate.
    intros Htry service pool api [->|Hin]%elem_of_cons Hpool Hapi.
    + pose proof (try_fallbacks_frame l now svc s1 Hnotin) as Hframe.
      rewrite Htry in Hframe. simpl in Hframe. rewrite Hframe in Hpool.
      by eapply (get_active_api_none_rejects s svc false now s1 pool).
    + by eapply (IH s1 s' Htry service pool).
Qed.

(** When [get_fallback_model] finds a fallback, the service it names is
    one of the two listed for the primary and is never the primary itself,
    and the record it returns is the usable record now under the cursor of
    that service's pool. *)
Theorem fallback_found s primary_service now service api s' :
  get_fallback_model s primary_service now = (Ok (Some (service, api)), s') →
  service ∈ fallback_order primary_service ∧
  service ≠ primary_service ∧
  (status api = ACTIVE ∨ (status api = ERROR ∧ error_count api <= 5)) ∧
  last_used api = Some now ∧
  ∃ index l,
    current_api_index s' !! service = Some index ∧
    apis s' !! service = Some l ∧
    l !! Z.to_nat index = Some api.
Proof.
  unfold get_fallback_model. intros [Hin [s0 Hget]]%try_fallbacks_some.
  split; [done|]. split.
  - intros ->. unfold fallback_order in Hin.
    repeat match type of Hin with
           | context [String.eqb ?a ?b] =>
               let Heq := fresh "Heq" in
               destruct (String.eqb a b) eqn:Heq;
               [apply String.eqb_eq in Heq; subst;
                repeat (apply elem_of_cons in Hin as [Hin|Hin];
                        [discriminate|]);
                by apply elem_of_nil in Hin
               |clear Heq]
           end.
    by apply elem_of_nil in Hin.
  - destruct (get_active_api_some _ _ _ _ _ _ Hget)
      as (index & l & Hc & Hl & _ & Hi & Hst & _).
    split; [done|]. split; [by eapply get_active_api_last_used|].
    by exists index, l.
Qed.

Lemma fallback_found_witness :
  ∃ api s',
    get_fallback_model Examples.three_services "qwen" 10
    = (Ok (Some ("groq", api)), s') ∧
    "groq" ∈ fallback_order "qwen" ∧
    "groq" ≠ "qwen" ∧
    (status api = ACTIVE ∨ (status api = ERROR ∧ error_count api <= 5)) ∧
    last_used api = Some 10 ∧
    ∃ index l,
      current_api_index s' !! "groq" = Some index ∧
      apis s' !! "groq" = Some l ∧
      l !! Z.to_nat index = Some api.
Proof.
  do 2 eexists. split; [vm_compute; reflexivity|].
  apply (fallback_found Examples.three_services "qwen" 10).
  vm_compute; reflexivity.
Defined.

(** [get_fallback_model] answers "none" for a primary service that has no
    fallback list (any service but [qwen], [gemini] and [groq]), without
    touching the manager; and when it answers "none" for one that has, no
    record of either fallback pool is usable at that time. *)
Theorem fallback_none s primary_service now :
  (primary_service ∉ ["qwen"; "gemini"; "groq"] →
   get_fallback_model s primary_service now = (Ok None, s)) ∧
  (∀ s' service pool api,
     get_fallback_model s primary_service now = (Ok None, s') →
     service ∈ fallback_order primary_service →
     apis s' !! service = Some pool → api ∈ pool →
     fst (_is_api_available api now) = false).
Proof.
  split.
  - intros Hnot. unfold get_fallback_model, fallback_order.
    repeat match goal with
           | |- context [String.eqb ?a ?b] =>
               let Heq := fresh "Heq" in
               destruct (String.eqb a b) eqn:Heq;
               [apply String.eqb_eq in Heq; subst; exfalso; apply Hnot;
                repeat (first [by left | right])
               |clear Heq]
           end.
    done.
  - intros s' service pool api Hnone Hin.
    apply (try_fallbacks_none (fallback_order primary_service) now)
      with (s := s) (s' := s'); [|done|done].
    unfold fallback_order.
    repeat match goal with
           | |- context [String.eqb ?a ?b] =>
               destruct (String.eqb a b);
               [apply NoDup_cons; split;
                [intros Hdup; apply list_elem_of_singleton in Hdup;
                 discriminate
                |apply NoDup_singleton]
               |]
           end.
    constructor.
Qed.

(** Both halves at concrete inputs.  [tavily] has no fallback list.  The
    fallbacks of [groq] are [qwen] and [gemini]: the only [qwen] endpoint
    is offline and the [gemini] pool is empty, so the answer is "none", and
    the [qwen] endpoint is indeed rejected at that time. *)
Lemma fallback_none_witness :
  get_fallback_model Examples.three_services "tavily" 10
  = (Ok None, Examples.three_services) ∧
  ∃ s',
    get_fallback_model Examples.three_services "groq" 10 = (Ok None, s') ∧
    "qwen" ∈ fallback_order "groq" ∧
    apis s' !! "qwen" = Some [Examples.endpoint_offline] ∧
    Examples.endpoint_offline ∈ [Examples.endpoint_offline] ∧
    fst (_is_api_available Examples.endpoint_offline 10) = false.
Proof.
  split.
  - apply (fallback_none Examples.three_services "tavily" 10).
    intros Hin.
    repeat (apply elem_of_cons in Hin as [Hin|Hin]; [discriminate|]).
    by apply elem_of_nil in Hin.
  - eexists.
    assert (get_fallback_model Examples.three_services "groq" 10
            = (Ok None,
               snd (get_fallback_model Examples.three_services "groq" 10)))
      as Hrun by (vm_compute; reflexivity).
    assert ("qwen" ∈ fallback_order "groq") as Hin
      by (vm_compute; apply list_elem_of_here).
    assert (apis (snd (get_fallback_model Examples.three_services "groq" 10))
              !! "qwen" = Some [Examples.endpoint_offline]) as Hpool
      by (vm_compute; reflexivity).
    assert (Examples.endpoint_offline ∈ [Examples.endpoint_offline]) as Hapi
      by apply list_elem_of_here.
    split; [exact Hrun|]. split; [exact Hin|]. split; [exact Hpool|].
    split; [exact Hapi|].
    exact (proj2 (fallback_none Examples.three_services "groq" 10)
             _ "qwen" [Examples.endpoint_offline] Examples.endpoint_offline
             Hrun Hin Hpool Hapi).
Defined.

End enhanced_selection.

(** * Further properties of the key manager *)

Section openrouter_selection.
Import OpenRouter.

(** ** Loading the keys *)

Lemma load_loop env (l : list nat) :
  ∀ keys0,
    foldl (fun (keys : list string) (i : nat) =>
             let key := getenv env (numbered_key_variable i) in
             if truthy key then (keys ++ [default "" key])%list else keys)
          keys0 l
    = (keys0
       ++ omap (fun v => if truthy (getenv env v) then getenv env v else None)
            (numbered_key_variable <$> l))%list.
Proof.
  induction l as [|i l IH]; intros keys0; simpl.
  - by rewrite app_nil_r.
  - rewrite IH. destruct (getenv env (numbered_key_variable i)) as [k|];
      simpl; [|done].
    destruct (String.eqb k ""); simpl; [done|].
    by rewrite <- app_assoc.
Qed.

Lemma load_api_keys_configured env :
  _load_api_keys env
  = match configured_keys env with
    | [] => Raise (value_error
              "Nenhuma chave OpenRouter encontrada nas variáveis de ambiente")
    | keys => Ok keys
    end.
Proof.
  unfold _load_api_keys, configured_keys, key_variables.
  rewrite load_loop.
  set (f := fun v => if truthy (getenv env v) then getenv env v else None).
  change (omap f ("OPENROUTER_API_KEY"
                  :: (numbered_key_variable <$> seq 1 9)))
    with (match f "OPENROUTER_API_KEY" with
          | Some y => y :: omap f (numbered_key_variable <$> seq 1 9)
          | None => omap f (numbered_key_variable <$> seq 1 9)
          end).
  generalize (omap f (numbered_key_variable <$> seq 1 9)) as tail.
  intros tail. subst f. cbv beta.
  destruct (getenv env "OPENROUTER_API_KEY") as [k|]; simpl;
    [destruct (String.eqb k ""); simpl|]; try done; by destruct tail.
Qed.

(** [_load_api_keys] returns the non-empty values of [OPENROUTER_API_KEY],
    [OPENROUTER_API_KEY_1], ..., [OPENROUTER_API_KEY_9], in that order, and
    raises [ValueError] exactly when there is none.  Nothing else of the
    environment is read: two environments that agree on these ten variables
    construct the same manager. *)
Theorem load_api_keys_reads_ten_variables env :
  _load_api_keys env
  = match configured_keys env with
    | [] => Raise (value_error
              "Nenhuma chave OpenRouter encontrada nas variáveis de ambiente")
    | keys => Ok keys
    end ∧
  (∀ k, k ∈ configured_keys env →
        k ≠ "" ∧ ∃ v, v ∈ key_variables ∧ getenv env v = Some k) ∧
  (∀ env',
     (∀ v, v ∈ key_variables → getenv env' v = getenv env v) →
     __init__ env' = __init__ env).
Proof.
  pose proof load_api_keys_configured as Hload.
  split; [apply Hload|]. split.
  - intros k Hk. unfold configured_keys in Hk.
    apply list_elem_of_omap in Hk as (v & Hv & Hkv).
    destruct (getenv env v) as [k'|] eqn:Hget; simpl in Hkv; [|done].
    destruct (String.eqb k' "") eqn:He; simpl in Hkv; [done|].
    injection Hkv as ->. split; [|by exists v].
    intros ->. by rewrite String.eqb_refl in He.
  - intros env' Hagree. unfold __init__. rewrite !Hload.
    assert (configured_keys env' = configured_keys env) as ->; [|done].
    unfold configured_keys. apply list_omap_ext.
    apply Forall2_same_length_lookup. split; [done|].
    intros i v v' Hv Hv'. assert (v' = v) as -> by congruence.
    rewrite Hagree; [done|]. by eapply list_elem_of_lookup_2.
Qed.

(** ** Which key the selection returns *)

Lemma key_at_rotate s (j : nat) :
  well_formed s → key_at (_rotate_to_next_key s) j = key_at s (S j).
Proof.
  intros Hwf. unfold key_at, _rotate_to_next_key. simpl.
  assert (0 < Z.of_nat (length (api_keys s))) as Hpos
    by (destruct Hwf as [Hk _ _ _]; destruct (api_keys s); [done|simpl; lia]).
  rewrite Z.add_mod_idemp_l by lia. do 3 f_equal. lia.
Qed.

Lemma key_at_0 s :
  well_formed s →
  key_at s 0 = api_keys s !! Z.to_nat (current_key_index s).
Proof.
  intros Hwf. unfold key_at. rewrite Z.add_0_r, Z.mod_small; [done|].
  apply Hwf.
Qed.

Lemma key_at_in s (key : string) :
  well_formed s → key ∈ api_keys s →
  ∃ j : nat, (j < length (api_keys s))%nat ∧ key_at s j = Some key.
Proof.
  intros Hwf [k Hk]%list_elem_of_lookup.
  destruct (offsets_cover (current_key_index s) (length (api_keys s)) k)
    as (j & Hj & Hjk); [by eapply lookup_lt_Some|].
  exists j. split; [apply elem_of_seq in Hj; lia|].
  unfold key_at. by rewrite Hjk.
Qed.

Lemma reset_flags_clear st :
  credits_exhausted st || rate_limited st = false → reset_flags st = st.
Proof. destruct st as [r e l [] []]; simpl; done. Qed.

(** As long as one of the next [remaining] keys is out of cooldown, the
    scan returns the first such key and stops the cursor on it. *)
Lemma scan_keys_first_free now initial_index (remaining : nat) :
  ∀ s,
    well_formed s →
    (∃ (j : nat) k,
       (j < remaining)%nat ∧ key_at s j = Some k ∧ ¬ cooling_at s now k) →
    ∃ (j : nat) key s' st,
      (j < remaining)%nat ∧
      key_at s j = Some key ∧
      ¬ cooling_at s now key ∧
      (∀ (j' : nat) k,
         (j' < j)%nat → key_at s j' = Some k → cooling_at s now k) ∧
      scan_keys now initial_index remaining s = (Ok key, s') ∧
      current_key_index s'
      = (current_key_index s + Z.of_nat j) mod Z.of_nat (length (api_keys s)) ∧
      api_keys s' = api_keys s ∧
      key_cooldowns s' = delete key (key_cooldowns s) ∧
      key_usage_stats s !! key = Some st ∧
      key_usage_stats s' = <[key := reset_flags st]> (key_usage_stats s).
Proof.
  induction remaining as [|remaining IH];
    intros s Hwf (j & k & Hj & Hk & Hfree); [lia|].
  cbn [scan_keys].
  destruct (py_index_in_range (api_keys s) (current_key_index s))
    as (key0 & -> & Hkey0); [apply Hwf|].
  assert (key_at s 0 = Some key0) as Hat0 by (by rewrite key_at_0).
  assert (key0 ∈ api_keys s) as Hin by (by eapply list_elem_of_lookup_2).
  destruct (proj2 (wf_stats s Hwf key0) Hin) as [st Hst]. rewrite Hst.
  assert (current_key_index s
          = (current_key_index s + Z.of_nat 0)
            mod Z.of_nat (length (api_keys s))) as Hcur0.
  { rewrite Z.add_0_r, Z.mod_small; [done|apply Hwf]. }
  destruct (key_cooldowns s !! key0) as [until|] eqn:Hcd.
  - destruct (now <? until) eqn:Hlt.
    + apply Z.ltb_lt in Hlt.
      assert (cooling_at s now key0) as Hcool by (by exists until).
      destruct j as [|j0]; [congruence|].
      destruct (IH (_rotate_to_next_key s) (rotate_well_formed s Hwf))
        as (j1 & key & s' & st' & Hj1 & Hat & Hnot & Hbefore & -> & Hc & Hk'
            & Hcd' & Hst' & Hstats).
      { exists j0, k. split; [lia|]. by rewrite key_at_rotate. }
      exists (S j1), key, s', st'. rewrite key_at_rotate in Hat by done.
      split; [lia|]. split; [done|]. split; [done|]. split.
      { intros j' k' Hj' Hk''. destruct j' as [|j'']; [congruence|].
        apply (Hbefore j'' k'); [lia|]. by rewrite key_at_rotate. }
      split; [done|]. split.
      { rewrite Hc. simpl. rewrite Z.add_mod_idemp_l.
        - f_equal. lia.
        - destruct Hwf as [Hne _ _ _]. destruct (api_keys s); [done|].
          simpl. lia. }
      by repeat split.
    + apply Z.ltb_ge in Hlt. simpl.
      exists 0%nat, key0, (clear_cooldown key0 st s), st.
      split; [lia|]. split; [done|]. split.
      { intros (T & HT & Hnow). rewrite Hcd in HT. injection HT as <-. lia. }
      split; [intros j' k' Hj'; lia|].
      by repeat split.
  - destruct (credits_exhausted st || rate_limited st) eqn:Hflags.
    + destruct (wf_flags s Hwf key0 st Hst Hflags) as [T HT]. congruence.
    + pose proof (reset_flags_clear st Hflags) as Hsame.
      apply orb_false_elim in Hflags as [-> ->]. simpl.
      exists 0%nat, key0, s, st.
      split; [lia|]. split; [done|]. split.
      { intros (T & HT & _). congruence. }
      split; [intros j' k' Hj'; lia|].
      split; [done|]. split; [done|]. split; [done|].
      split; [by rewrite delete_id|].
      split; [done|]. by rewrite Hsame, insert_id.
Qed.

(** Whenever some key is out of cooldown, [_get_next_available_key]
    returns a key that is out of cooldown: the first one in the order of
    the rotation, starting from the cursor.  The cursor stops on it, its
    cooldown entry (an expired one, if any) is removed and its two flags
    are cleared; nothing else changes. *)
Theorem selection_returns_first_free_key s now free :
  well_formed s →
  free ∈ api_keys s →
  ¬ cooling_at s now free →
  ∃ (j : nat) key s' st,
    (j < length (api_keys s))%nat ∧
    _get_next_available_key s now = (Ok key, s') ∧
    key_at s j = Some key ∧
    ¬ cooling_at s now key ∧
    (∀ (j' : nat) k,
       (j' < j)%nat → key_at s j' = Some k → cooling_at s now k) ∧
    current_key_index s'
    = (current_key_index s + Z.of_nat j) mod Z.of_nat (length (api_keys s)) ∧
    api_keys s' = api_keys s ∧
    key_cooldowns s' = delete key (key_cooldowns s) ∧
    key_usage_stats s !! key = Some st ∧
    key_usage_stats s' = <[key := reset_flags st]> (key_usage_stats s).
Proof.
  intros Hwf Hin Hfree.
  destruct (key_at_in s free Hwf Hin) as (j0 & Hj0 & Hat0).
  destruct (scan_keys_first_free now (current_key_index s)
              (length (api_keys s)) s Hwf)
    as (j & key & s' & st & Hj & Hat & Hnot & Hbefore & Hscan & Hrest).
  { by exists j0, free. }
  destruct Hrest as (? & ? & ? & ? & ?).
  exists j, key, s', st. split_and!; done.
Qed.

Lemma first_key_cooling_well_formed :
  well_formed Examples.first_key_cooling.
Proof.
  apply (reachable_invariant 1000). apply (reach_report 1000); [|lia].
  apply (reach_init Examples.two_keys_env). vm_compute. reflexivity.
Qed.

Lemma selection_returns_first_free_key_witness :
  ∃ (j : nat) key s' st,
    (j < length (api_keys Examples.first_key_cooling))%nat ∧
    _get_next_available_key Examples.first_key_cooling 1010 = (Ok key, s') ∧
    key_at Examples.first_key_cooling j = Some key ∧
    ¬ cooling_at Examples.first_key_cooling 1010 key ∧
    (∀ (j' : nat) k,
       (j' < j)%nat → key_at Examples.first_key_cooling j' = Some k →
       cooling_at Examples.first_key_cooling 1010 k) ∧
    current_key_index s'
    = (current_key_index Examples.first_key_cooling + Z.of_nat j)
      mod Z.of_nat (length (api_keys Examples.first_key_cooling)) ∧
    api_keys s' = api_keys Examples.first_key_cooling ∧
    key_cooldowns s'
    = delete key (key_cooldowns Examples.first_key_cooling) ∧
    key_usage_stats Examples.first_key_cooling !! key = Some st ∧
    key_usage_stats s'
    = <[key := reset_flags st]>
        (key_usage_stats Examples.first_key_cooling).
Proof.
  apply (selection_returns_first_free_key Examples.first_key_cooling 1010
           "sk-or-B").
  - apply first_key_cooling_well_formed.
  - vm_compute. right. left.
  - intros (T & HT & _). vm_compute in HT. discriminate.
Defined.

Example rate_limited_key_is_skipped :
  fst (_get_next_available_key Examples.first_key_cooling 1010)
  = Ok "sk-or-B" ∧
  fst (_get_next_available_key Examples.first_key_cooling 1300)
  = Ok "sk-or-A".
Proof. split; vm_compute; reflexivity. Qed.

(** ** Retrying with another key *)

(** The first request of [chat_completion] goes out with the key under the
    cursor and fails with an error that is not a 402 status error.  If
    another key is out of cooldown, and the second attempt starts before
    the cooldown just given to the failed key has run out (thirty seconds at
    least), the second request goes out with a different key, itself out of
    cooldown; if the provider answers it, that answer is returned. *)
Theorem retry_moves_to_another_key
    {R : Type} (w : World R) s key other e (r : R) :
  well_formed s →
  2 <= max_retries s →
  key_at s 0 = Some key →
  ¬ cooling_at s (t_select w 0) key →
  provider w 0 key = Throws e →
  aborts e = false →
  other ∈ api_keys s →
  other ≠ key →
  ¬ cooling_at s (t_select w 1) other →
  t_select w 1 < t_report w 0 + 30 →
  (∀ k, provider w 1 k = Response r) →
  ∃ key2,
    result (chat_completion w s) = Ok r ∧
    sent (chat_completion w s) = [key; key2] ∧
    key2 ≠ key ∧
    ¬ cooling_at s (t_select w 1) key2.
Proof.
  intros Hwf Hmax Hat Hfree Hthrow Hgo Hother Hne Hofree Hsoon Hanswer.
  unfold chat_completion.
  destruct (Z.to_nat (max_retries s)) as [|[|m]] eqn:Hm; [lia|lia|].
  (* first attempt *)
  assert (key ∈ api_keys s) as Hin
    by (unfold key_at in Hat; by eapply list_elem_of_lookup_2).
  destruct (scan_keys_first_free (t_select w 0) (current_key_index s)
              (length (api_keys s)) s Hwf)
    as (j & key1 & s1 & st & _ & Hat1 & _ & Hbefore & Hsel & _ & Hk1 & Hcd1
        & Hst & Hstats1).
  { destruct (key_at_in s key Hwf Hin) as (j0 & Hj0 & Hat0).
    by exists j0, key. }
  fold (_get_next_available_key s (t_select w 0)) in Hsel.
  assert (j = 0%nat) as ->.
  { destruct j as [|j]; [done|]. exfalso. apply Hfree.
    apply (Hbefore 0%nat key); [lia|done]. }
  assert (key1 = key) as -> by congruence.
  destruct (get_next_available_key_well_formed s (t_select w 0) Hwf)
    as (key' & s1' & Hsel' & _ & Hwf1 & _).
  rewrite Hsel in Hsel'. injection Hsel' as <- <-.
  assert (key_usage_stats s1 !! key = Some (reset_flags st)) as Hst1
    by (rewrite Hstats1; apply lookup_insert_eq).
  pose proof (note_request_well_formed s1 key (reset_flags st)
                (t_select w 0) Hwf1 Hst1) as Hwf2.
  assert (key ∈ api_keys s1) as Hin1 by (by rewrite Hk1).
  destruct (handle_api_error_well_formed
              (note_request key (reset_flags st) (t_select w 0) s1) key e
              (t_report w 0) Hwf2 Hin1)
    as (s3 & Hhandle & Hwf3 & Hk3 & _ & Hcd3).
  cbn [attempts]. rewrite Hsel, Hst1, Hthrow, Hhandle, Hgo.
  cbn [app]. change (0 + 1) with 1.
  (* second attempt *)
  simpl in Hk3, Hcd3.
  assert (∀ k, k ≠ key → key_cooldowns s3 !! k = key_cooldowns s !! k)
    as Hsame.
  { intros k Hk. by rewrite Hcd3, lookup_insert_ne, Hcd1, lookup_delete_ne. }
  assert (cooling_at s3 (t_select w 1) key) as Hcool.
  { exists (t_report w 0 + cooldown_of (classify e)). split.
    - by rewrite Hcd3, lookup_insert_eq.
    - unfold cooldown_of, hours, minutes, seconds.
      destruct (classify e); lia. }
  assert (other ∈ api_keys s3) as Hother3 by (by rewrite Hk3, Hk1).
  assert (¬ cooling_at s3 (t_select w 1) other) as Hofree3.
  { intros (T & HT & Hnow). apply Hofree. exists T.
    by rewrite <- (Hsame other Hne). }
  destruct (scan_keys_first_free (t_select w 1) (current_key_index s3)
              (length (api_keys s3)) s3 Hwf3)
    as (j2 & key2 & s4 & st2 & _ & _ & Hfree2 & _ & Hsel2 & _ & _ & _ & _
        & Hstats4).
  { destruct (key_at_in s3 other Hwf3 Hother3) as (j0 & Hj0 & Hat0).
    by exists j0, other. }
  fold (_get_next_available_key s3 (t_select w 1)) in Hsel2.
  assert (key2 ≠ key) as Hne2 by (by intros ->).
  assert (is_Some (key_usage_stats s4 !! key2)) as [st4 Hst4]
    by (rewrite Hstats4, lookup_insert_eq; eauto).
  cbn [attempts]. rewrite Hsel2, Hst4, Hanswer. simpl.
  exists key2. split; [done|]. split; [done|]. split; [done|].
  intros (T & HT & Hnow). apply Hfree2. exists T.
  by rewrite (Hsame key2 Hne2).
Qed.

Lemma retry_moves_to_another_key_witness :
  ∃ key2,
    result (chat_completion Examples.timeout_then_answer Examples.two_keys)
    = Ok "ok" ∧
    sent (chat_completion Examples.timeout_then_answer Examples.two_keys)
    = ["sk-or-A"; key2] ∧
    key2 ≠ "sk-or-A" ∧
    ¬ cooling_at Examples.two_keys
        (t_select Examples.timeout_then_answer 1) key2.
Proof.
  apply (retry_moves_to_another_key Examples.timeout_then_answer
           Examples.two_keys "sk-or-A" "sk-or-B" Examples.timeout_error "ok").
  - apply (init_well_formed Examples.two_keys_env). vm_compute. reflexivity.
  - vm_compute. discriminate.
  - reflexivity.
  - intros (T & HT & _). vm_compute in HT. discriminate.
  - reflexivity.
  - reflexivity.
  - vm_compute. right. left.
  - discriminate.
  - intros (T & HT & _). vm_compute in HT. discriminate.
  - vm_compute. reflexivity.
  - intros k. reflexivity.
Defined.

(** ** Counting requests and errors *)

Lemma sum_insert (f : KeyStats → Z) (m : gmap string KeyStats) k st st' :
  m !! k = Some st →
  map_fold (fun (_ : string) (x : KeyStats) (acc : Z) => acc + f x) 0
    (<[k := st']> m)
  = map_fold (fun (_ : string) (x : KeyStats) (acc : Z) => acc + f x) 0 m
    - f st + f st'.
Proof.
  intros Hk.
  assert (∀ x, map_fold (fun (_ : string) (x : KeyStats) (acc : Z) =>
                           acc + f x) 0 (<[k := x]> (delete k m))
               = map_fold (fun (_ : string) (x : KeyStats) (acc : Z) =>
                             acc + f x) 0 (delete k m) + f x) as Hins.
  { intros x. apply (map_fold_insert_L
                       (fun (_ : string) (x : KeyStats) (acc : Z) =>
                          acc + f x)).
    - intros. lia.
    - apply lookup_delete_eq. }
  rewrite <- (insert_delete_eq m k st'), Hins.
  rewrite <- (insert_delete_id m k st Hk) at 2. rewrite Hins. lia.
Qed.

Lemma sum_requests_insert m k st st' :
  m !! k = Some st →
  sum_requests (<[k := st']> m) = sum_requests m - requests st + requests st'.
Proof. apply (sum_insert requests). Qed.

Lemma sum_errors_insert m k st st' :
  m !! k = Some st →
  sum_errors (<[k := st']> m) = sum_errors m - errors st + errors st'.
Proof. apply (sum_insert errors). Qed.

Lemma scan_keys_sums now initial_index remaining :
  ∀ s, well_formed s →
       sum_requests (key_usage_stats
                       (snd (scan_keys now initial_index remaining s)))
       = sum_requests (key_usage_stats s) ∧
       sum_errors (key_usage_stats
                     (snd (scan_keys now initial_index remaining s)))
       = sum_errors (key_usage_stats s).
Proof.
  induction remaining as [|remaining IH]; intros s Hwf; [done|].
  cbn [scan_keys].
  destruct (py_index_in_range (api_keys s) (current_key_index s))
    as (key & -> & Hkey); [apply Hwf|].
  assert (key ∈ api_keys s) as Hin by (by eapply list_elem_of_lookup_2).
  destruct (proj2 (wf_stats s Hwf key) Hin) as [st Hst]. rewrite Hst.
  destruct (key_cooldowns s !! key) as [until|] eqn:Hcd.
  - destruct (now <? until).
    + by destruct (IH _ (rotate_well_formed s Hwf)).
    + simpl. rewrite (sum_requests_insert _ _ st), (sum_errors_insert _ _ st)
        by done.
      simpl. split; lia.
  - destruct (credits_exhausted st || rate_limited st) eqn:Hflags.
    + destruct (wf_flags s Hwf key st Hst Hflags) as [T HT]. congruence.
    + apply orb_false_elim in Hflags as [-> ->]. done.
Qed.

(** What a call of [chat_completion] does to a well-formed manager,
    whatever the provider answers. *)
Lemma attempts_invariant {R : Type} (w : World R) remaining :
  ∀ attempt api_key last_error trace s,
    well_formed s →
    ∃ keys,
      sent (attempts w remaining attempt api_key last_error trace s)
      = (trace ++ keys)%list ∧
      (length keys <= remaining)%nat ∧
      Forall (fun k => k ∈ api_keys s) keys ∧
      well_formed
        (final (attempts w remaining attempt api_key last_error trace s)) ∧
      api_keys
        (final (attempts w remaining attempt api_key last_error trace s))
      = api_keys s ∧
      sum_requests
        (key_usage_stats
           (final (attempts w remaining attempt api_key last_error trace s)))
      = sum_requests (key_usage_stats s) + Z.of_nat (length keys) ∧
      sum_errors
        (key_usage_stats
           (final (attempts w remaining attempt api_key last_error trace s)))
      = sum_errors (key_usage_stats s) + Z.of_nat (length keys)
        - match result
                  (attempts w remaining attempt api_key last_error trace s)
          with
          | Ok _ => 1
          | Raise _ => 0
          end.
Proof.
  induction remaining as [|remaining IH];
    intros attempt api_key last_error trace s Hwf.
  - exists []. simpl. rewrite app_nil_r. split_and!; try done; lia.
  - cbn [attempts].
    destruct (get_next_available_key_well_formed s (t_select w attempt) Hwf)
      as (key & s1 & Hsel & Hin & Hwf1 & Hk1 & _).
    destruct (scan_keys_sums (t_select w attempt) (current_key_index s)
                (length (api_keys s)) s Hwf) as [Hreq1 Herr1].
    fold (_get_next_available_key s (t_select w attempt)) in Hreq1, Herr1.
    rewrite Hsel in *. simpl in Hreq1, Herr1.
    assert (key ∈ api_keys s1) as Hin1 by (by rewrite Hk1).
    destruct (proj2 (wf_stats s1 Hwf1 key) Hin1) as [st Hst]. rewrite Hst.
    pose proof (note_request_well_formed s1 key st (t_select w attempt)
                  Hwf1 Hst) as Hwf2.
    remember (note_request key st (t_select w attempt) s1) as s2 eqn:Hs2.
    assert (api_keys s2 = api_keys s1) as Hk2 by (by subst s2).
    assert (sum_requests (key_usage_stats s2)
            = sum_requests (key_usage_stats s) + 1) as Hreq2.
    { subst s2. simpl. rewrite (sum_requests_insert _ _ st) by done.
      simpl. lia. }
    assert (sum_errors (key_usage_stats s2) = sum_errors (key_usage_stats s))
      as Herr2.
    { subst s2. simpl. rewrite (sum_errors_insert _ _ st) by done.
      simpl. lia. }
    destruct (provider w attempt key) as [r|e].
    + exists [key]. simpl. split_and!; try done; try lia.
      * by repeat constructor.
      * by apply rotate_well_formed.
      * by rewrite Hk2.
    + assert (is_Some (key_usage_stats s2 !! key)) as [st2 Hst2]
        by (apply Hwf2; by rewrite Hk2).
      destruct (handle_api_error_well_formed s2 key e (t_report w attempt)
                  Hwf2)
        as (s3 & Hhandle & Hwf3 & Hk3 & _); [by rewrite Hk2|].
      assert (sum_requests (key_usage_stats s3)
              = sum_requests (key_usage_stats s2)
              ∧ sum_errors (key_usage_stats s3)
                = sum_errors (key_usage_stats s2) + 1) as [Hreq3 Herr3].
      { unfold _handle_api_error in Hhandle. rewrite Hst2 in Hhandle.
        injection Hhandle as <-. simpl.
        rewrite (sum_requests_insert _ _ st2), (sum_errors_insert _ _ st2)
          by done.
        destruct (classify e); simpl; split; lia. }
      rewrite Hhandle.
      destruct (aborts e).
      * exists [key]. simpl. split_and!; try done; try lia.
        -- by repeat constructor.
        -- by rewrite Hk3, Hk2.
      * destruct (IH (attempt + 1) (Some key) (Some e) (trace ++ [key])%list
                    s3 Hwf3)
          as (keys & Hsent & Hlen & Hall & Hwf' & Hk' & Hreq' & Herr').
        exists (key :: keys). rewrite Hsent, <- app_assoc. simpl.
        split_and!; try done; try lia.
        -- constructor; [done|]. eapply Forall_impl; [done|].
           intros k Hk. simpl in Hk. by rewrite Hk3, Hk2, Hk1 in Hk.
        -- by rewrite Hk', Hk3, Hk2.
Qed.

(** A call of [chat_completion] on a well-formed manager sends at most
    [max_retries] requests, each with one of the configured keys, and
    leaves a well-formed manager with the same keys. *)
Theorem chat_completion_bounds {R : Type} (w : World R) s :
  well_formed s →
  (length (sent (chat_completion w s)) <= Z.to_nat (max_retries s))%nat ∧
  Forall (fun k => k ∈ api_keys s) (sent (chat_completion w s)) ∧
  well_formed (final (chat_completion w s)) ∧
  api_keys (final (chat_completion w s)) = api_keys s.
Proof.
  intros Hwf. unfold chat_completion.
  destruct (attempts_invariant w (Z.to_nat (max_retries s)) 0 None None [] s
              Hwf)
    as (keys & -> & Hlen & Hall & Hwf' & Hk' & _).
  by split_and!.
Qed.

Lemma chat_completion_bounds_witness :
  (length (sent (chat_completion Examples.timeout_then_answer
                   Examples.two_keys))
   <= Z.to_nat (max_retries Examples.two_keys))%nat ∧
  Forall (fun k => k ∈ api_keys Examples.two_keys)
    (sent (chat_completion Examples.timeout_then_answer Examples.two_keys)) ∧
  well_formed
    (final (chat_completion Examples.timeout_then_answer Examples.two_keys)) ∧
  api_keys
    (final (chat_completion Examples.timeout_then_answer Examples.two_keys))
  = api_keys Examples.two_keys.
Proof.
  apply (chat_completion_bounds Examples.timeout_then_answer
           Examples.two_keys).
  apply (init_well_formed Examples.two_keys_env). vm_compute. reflexivity.
Defined.

(** The counters add up: after a call of [chat_completion] on a
    well-formed manager the requests counted over all keys have grown by
    the number of requests sent, and the errors counted by the number of
    requests that failed (all of them, or all but the last when the call
    returns an answer). *)
Theorem chat_completion_accounting {R : Type} (w : World R) s :
  well_formed s →
  sum_requests (key_usage_stats (final (chat_completion w s)))
  = sum_requests (key_usage_stats s)
    + Z.of_nat (length (sent (chat_completion w s))) ∧
  sum_errors (key_usage_stats (final (chat_completion w s)))
  = sum_errors (key_usage_stats s)
    + Z.of_nat (length (sent (chat_completion w s)))
    - match result (chat_completion w s) with
      | Ok _ => 1
      | Raise _ => 0
      end.
Proof.
  intros Hwf. unfold chat_completion.
  destruct (attempts_invariant w (Z.to_nat (max_retries s)) 0 None None [] s
              Hwf)
    as (keys & -> & _ & _ & _ & _ & Hreq & Herr).
  done.
Qed.

Lemma chat_completion_accounting_witness :
  sum_requests
    (key_usage_stats
       (final (chat_completion Examples.timeout_then_answer
                 Examples.two_keys)))
  = sum_requests (key_usage_stats Examples.two_keys)
    + Z.of_nat (length (sent (chat_completion Examples.timeout_then_answer
                                Examples.two_keys))) ∧
  sum_errors
    (key_usage_stats
       (final (chat_completion Examples.timeout_then_answer
                 Examples.two_keys)))
  = sum_errors (key_usage_stats Examples.two_keys)
    + Z.of_nat (length (sent (chat_completion Examples.timeout_then_answer
                                Examples.two_keys)))
    - match result (chat_completion Examples.timeout_then_answer
                      Examples.two_keys) with
      | Ok _ => 1
      | Raise _ => 0
      end.
Proof.
  apply (chat_completion_accounting Examples.timeout_then_answer
           Examples.two_keys).
  apply (init_well_formed Examples.two_keys_env). vm_compute. reflexivity.
Defined.

Example counters_after_one_retry :
  sum_requests
    (key_usage_stats
       (final (chat_completion Examples.timeout_then_answer
                 Examples.two_keys))) = 2 ∧
  sum_errors
    (key_usage_stats
       (final (chat_completion Examples.timeout_then_answer
                 Examples.two_keys))) = 1.
Proof. split; vm_compute; reflexivity. Qed.

(** ** Administrative resets *)

(** [reset_key_status] with an index outside the key list changes
    nothing.  With the index of a key, on a well-formed manager, it removes
    the cooldown entry of that key and clears its two flags, keeping its
    counters; every other key, the cursor and the key list stay as they
    were, and the key is out of cooldown at any time afterwards. *)
Theorem reset_key_status_one s (i : Z) :
  (i < 0 ∨ Z.of_nat (length (api_keys s)) <= i →
   reset_key_status s (Some i) = (Ok tt, s)) ∧
  (∀ key st,
     0 <= i →
     api_keys s !! Z.to_nat i = Some key →
     key_usage_stats s !! key = Some st →
     ∃ s',
       reset_key_status s (Some i) = (Ok tt, s') ∧
       key_cooldowns s' = delete key (key_cooldowns s) ∧
       key_usage_stats s' = <[key := reset_flags st]> (key_usage_stats s) ∧
       api_keys s' = api_keys s ∧
       current_key_index s' = current_key_index s ∧
       (∀ now, ¬ cooling_at s' now key) ∧
       (well_formed s → well_formed s')).
Proof.
  split.
  - intros Hout. unfold reset_key_status.
    destruct (0 <=? i) eqn:H0; [|done].
    destruct (i <? Z.of_nat (length (api_keys s))) eqn:H1; [|done].
    apply Z.leb_le in H0. apply Z.ltb_lt in H1. lia.
  - intros key st Hi Hkey Hst. unfold reset_key_status.
    assert (i < Z.of_nat (length (api_keys s))) as Hlt
      by (apply lookup_lt_Some in Hkey; lia).
    apply Z.leb_le in Hi as ->. apply Z.ltb_lt in Hlt as ->. simpl.
    rewrite Hkey, Hst. eexists. split; [done|]. simpl.
    split_and!; try done.
    + intros now (T & HT & _). simpl in HT.
      by rewrite lookup_delete_eq in HT.
    + intros Hwf. by apply (clear_cooldown_well_formed s key st).
Qed.

Lemma reset_key_status_one_witness :
  ∃ s',
    reset_key_status Examples.two_keys_cooling (Some 1) = (Ok tt, s') ∧
    key_cooldowns s'
    = delete "sk-or-B" (key_cooldowns Examples.two_keys_cooling) ∧
    key_usage_stats s'
    = <["sk-or-B" := reset_flags (mkKeyStats 0 1 None true false)]>
        (key_usage_stats Examples.two_keys_cooling) ∧
    api_keys s' = api_keys Examples.two_keys_cooling ∧
    current_key_index s' = current_key_index Examples.two_keys_cooling ∧
    (∀ now, ¬ cooling_at s' now "sk-or-B") ∧
    (well_formed Examples.two_keys_cooling → well_formed s').
Proof.
  apply (reset_key_status_one Examples.two_keys_cooling 1).
  - lia.
  - reflexivity.
  - vm_compute. reflexivity.
Defined.

(** [reset_key_status] with no index, on a well-formed manager, empties
    the cooldown table and clears the two flags of every key, keeping the
    counters; the next selection then returns the key under the cursor,
    whatever the time. *)
Theorem reset_key_status_all s :
  well_formed s →
  ∃ s',
    reset_key_status s None = (Ok tt, s') ∧
    key_cooldowns s' = ∅ ∧
    (∀ k st, key_usage_stats s !! k = Some st →
             key_usage_stats s' !! k = Some (reset_flags st)) ∧
    api_keys s' = api_keys s ∧
    current_key_index s' = current_key_index s ∧
    well_formed s' ∧
    ∀ now, ∃ key,
      key_at s 0 = Some key ∧
      fst (_get_next_available_key s' now) = Ok key.
Proof.
  intros Hwf.
  destruct (reset_key_status_well_formed s None Hwf) as [Hwf' _].
  unfold reset_key_status in *.
  destruct (reset_all_stats (api_keys s) (key_usage_stats s))
    as (m' & Hreset & Hm'); [intros k Hk; by apply Hwf|].
  rewrite Hreset in *. simpl in Hwf'.
  eexists. split; [done|]. simpl. split_and!; try done.
  - intros k st Hst. rewrite Hm', decide_True, Hst; [done|].
    apply Hwf. eauto.
  - intros now.
    destruct (py_index_in_range (api_keys s) (current_key_index s))
      as (key & _ & Hkey); [apply Hwf|].
    exists key. split; [by rewrite key_at_0|].
    set (s' := set_key_cooldowns ∅ (set_key_usage_stats m' s)) in *.
    assert (key_at s' 0 = Some key) as Hat by (by rewrite key_at_0).
    assert (∀ k, ¬ cooling_at s' now k) as Hfree.
    { intros k (T & HT & _). simpl in HT. by rewrite lookup_empty in HT. }
    destruct (scan_keys_first_free now (current_key_index s')
                (length (api_keys s')) s' Hwf')
      as (j & key' & s'' & st & _ & Hat' & _ & Hbefore & Hscan & _).
    { exists 0%nat, key. split; [|done].
      destruct Hwf as [Hne _ _ _]. simpl. destruct (api_keys s); [done|].
      simpl. lia. }
    destruct j as [|j].
    + unfold _get_next_available_key. rewrite Hscan. simpl. congruence.
    + exfalso. apply (Hfree key). apply (Hbefore 0%nat key); [lia|done].
Qed.

Lemma reset_key_status_all_witness :
  ∃ s',
    reset_key_status Examples.two_keys_cooling None = (Ok tt, s') ∧
    key_cooldowns s' = ∅ ∧
    (∀ k st, key_usage_stats Examples.two_keys_cooling !! k = Some st →
             key_usage_stats s' !! k = Some (reset_flags st)) ∧
    api_keys s' = api_keys Examples.two_keys_cooling ∧
    current_key_index s' = current_key_index Examples.two_keys_cooling ∧
    well_formed s' ∧
    ∀ now, ∃ key,
      key_at Examples.two_keys_cooling 0 = Some key ∧
      fst (_get_next_available_key s' now) = Ok key.
Proof.
  apply (reset_key_status_all Examples.two_keys_cooling).
  apply (reachable_invariant 1000), two_keys_cooling_reachable.
Defined.

(** ** The status report *)

Lemma keys_status_from_ok s (l : list string) :
  (∀ k, k ∈ l → is_Some (key_usage_stats s !! k)) →
  ∀ i,
    ∃ statuses,
      keys_status_from s i l = Ok statuses ∧
      length statuses = length l ∧
      ∀ (j : nat) key,
        l !! j = Some key →
        ∃ st,
          key_usage_stats s !! key = Some st ∧
          statuses !! j = Some (key_status s (i + Z.of_nat j) key st).
Proof.
  induction l as [|key l IH]; intros Hall i; simpl.
  - exists []. split; [done|]. split; [done|]. intros j k Hj. done.
  - destruct (Hall key ltac:(left)) as [st Hst]. rewrite Hst.
    destruct (IH (fun k Hk => Hall k (list_elem_of_further _ _ _ Hk)) (i + 1))
      as (rest & -> & Hlen & Hrest).
    eexists. split; [done|]. split; [simpl; by rewrite Hlen|].
    intros [|j] k Hj; simpl in Hj.
    + injection Hj as <-. exists st. rewrite Z.add_0_r. by split.
    + destruct (Hrest j k Hj) as (st' & Hst' & Hj').
      exists st'. split; [done|]. simpl.
      by replace (i + Z.of_nat (S j)) with (i + 1 + Z.of_nat j) by lia.
Qed.

Lemma filter_nonempty {A : Type} (P : A → Prop) `{!∀ x, Decision (P x)}
    (l : list A) :
  (0 < length (filter P l))%nat ↔ ∃ x, x ∈ l ∧ P x.
Proof.
  split.
  - destruct (filter P l) as [|x l'] eqn:Hf; simpl; [lia|]. intros _.
    exists x. assert (x ∈ filter P l) as Hin by (rewrite Hf; left).
    apply list_elem_of_filter in Hin as [HP Hx]. by split.
  - intros (x & Hx & HP).
    assert (x ∈ filter P l) as Hin by (by apply list_elem_of_filter).
    destruct (filter P l); [by apply elem_of_nil in Hin|simpl; lia].
Qed.

(** On a well-formed manager [get_api_status] succeeds and lists the keys
    in order with their indices.  A key is reported available exactly when
    it has no entry in the cooldown table -- an entry that has run out
    still counts, until a selection or a reset removes it -- and the health
    is "healthy" exactly when some key has no entry. *)
Theorem api_status_report s :
  well_formed s →
  ∃ rep,
    get_api_status s = Ok rep ∧
    total_keys rep = Z.of_nat (length (api_keys s)) ∧
    report_current_key_index rep = current_key_index s ∧
    length (keys_status rep) = length (api_keys s) ∧
    (∀ (i : nat) key,
       api_keys s !! i = Some key →
       ∃ ks,
         keys_status rep !! i = Some ks ∧
         index ks = Z.of_nat i ∧
         key_preview ks = preview key ∧
         cooldown_until ks = key_cooldowns s !! key ∧
         in_cooldown ks = bool_decide (is_Some (key_cooldowns s !! key)) ∧
         available ks = negb (in_cooldown ks)) ∧
    (health_status (summary rep) = "healthy"
     ↔ ∃ key, key ∈ api_keys s ∧ key_cooldowns s !! key = None) ∧
    total_requests (summary rep) = sum_requests (key_usage_stats s) ∧
    total_errors (summary rep) = sum_errors (key_usage_stats s).
Proof.
  intros Hwf. unfold get_api_status.
  destruct (keys_status_from_ok s (api_keys s)) with (i := 0)
    as (statuses & -> & Hlen & Hentries); [intros k Hk; by apply Hwf|].
  assert (∀ (i : nat) key,
            api_keys s !! i = Some key →
            ∃ ks,
              statuses !! i = Some ks ∧
              index ks = Z.of_nat i ∧
              key_preview ks = preview key ∧
              cooldown_until ks = key_cooldowns s !! key ∧
              in_cooldown ks
              = bool_decide (is_Some (key_cooldowns s !! key)) ∧
              available ks = negb (in_cooldown ks)) as Hkeys.
  { intros i key Hi. destruct (Hentries i key Hi) as (st & Hst & Hks).
    eexists. split; [done|]. simpl. split_and!; try done.
    destruct (credits_exhausted st || rate_limited st) eqn:Hflags.
    - pose proof (wf_flags s Hwf key st Hst Hflags) as Hcd.
      rewrite bool_decide_eq_true_2 by done. simpl. apply andb_false_r.
    - apply orb_false_elim in Hflags as [-> ->]. done. }
  eexists. split; [done|]. simpl. split_and!; try done.
  assert ((0 < length (filter (fun k => available k = true) statuses))%nat
          ↔ ∃ key, key ∈ api_keys s ∧ key_cooldowns s !! key = None)
    as Hhealthy.
  { rewrite filter_nonempty. split.
    - intros (ks & [i Hi]%list_elem_of_lookup & Hav).
      destruct (lookup_lt_is_Some_2 (api_keys s) i) as [key Hkey];
        [rewrite <- Hlen; by eapply lookup_lt_Some|].
      destruct (Hkeys i key Hkey) as (ks' & Hks' & _ & _ & _ & Hin & Havail).
      assert (ks' = ks) as -> by congruence.
      exists key. split; [by eapply list_elem_of_lookup_2|].
      rewrite Hav, Hin in Havail.
      destruct (key_cooldowns s !! key) as [T|] eqn:HT; [|done].
      rewrite bool_decide_eq_true_2 in Havail by eauto. done.
    - intros (key & [i Hi]%list_elem_of_lookup & Hnone).
      destruct (Hkeys i key Hi) as (ks & Hks & _ & _ & _ & Hin & Havail).
      exists ks. split; [by eapply list_elem_of_lookup_2|].
      rewrite Havail, Hin, Hnone.
      rewrite bool_decide_eq_false_2; [done|]. by intros [? ?]. }
  rewrite <- Hhealthy.
  destruct (0 <? Z.of_nat (length (filter (fun k => available k = true)
                                     statuses))) eqn:Hpos.
  - apply Z.ltb_lt in Hpos. split; [lia|done].
  - apply Z.ltb_ge in Hpos. split; [done|lia].
Qed.

Lemma api_status_report_witness :
  ∃ rep,
    get_api_status Examples.first_key_cooling = Ok rep ∧
    total_keys rep = Z.of_nat (length (api_keys Examples.first_key_cooling)) ∧
    report_current_key_index rep
    = current_key_index Examples.first_key_cooling ∧
    length (keys_status rep) = length (api_keys Examples.first_key_cooling) ∧
    (∀ (i : nat) key,
       api_keys Examples.first_key_cooling !! i = Some key →
       ∃ ks,
         keys_status rep !! i = Some ks ∧
         index ks = Z.of_nat i ∧
         key_preview ks = preview key ∧
         cooldown_until ks
         = key_cooldowns Examples.first_key_cooling !! key ∧
         in_cooldown ks
         = bool_decide
             (is_Some (key_cooldowns Examples.first_key_cooling !! key)) ∧
         available ks = negb (in_cooldown ks)) ∧
    (health_status (summary rep) = "healthy"
     ↔ ∃ key, key ∈ api_keys Examples.first_key_cooling
              ∧ key_cooldowns Examples.first_key_cooling !! key = None) ∧
    total_requests (summary rep)
    = sum_requests (key_usage_stats Examples.first_key_cooling) ∧
    total_errors (summary rep)
    = sum_errors (key_usage_stats Examples.first_key_cooling).
Proof.
  apply (api_status_report Examples.first_key_cooling).
  apply first_key_cooling_well_formed.
Defined.

(** The report of a manager whose only key is in cooldown is "degraded",
    also long after the cooldown has run out; the preview of a key shows
    its first ten and last four characters. *)
Example report_of_one_key_cooling :
  (fun rep => (health_status (summary rep), available_keys (summary rep),
               total_errors (summary rep)))
    <$> (match get_api_status Examples.one_key_cooling with
         | Ok rep => Some rep
         | Raise _ => None
         end)
  = Some ("degraded", 0, 1) ∧
  preview "sk-or-v1-0123456789abcdef" = "sk-or-v1-0...cdef" ∧
  preview "abc" = "abc...abc".
Proof. repeat split; vm_compute; reflexivity. Qed.

(** ** Characters and previews *)

Lemma append_String b (s1 s2 : string) :
  String b s1 +:+ s2 = String b (s1 +:+ s2).
Proof. reflexivity. Qed.

Lemma substring_string_drop (n : nat) (s : string) :
  String.substring 0 n s +:+ string_drop n s = s.
Proof.
  revert s. induction n as [|n IH]; intros [|b rest]; simpl; try done.
  by rewrite append_String, IH.
Qed.

Lemma char_width_positive b rest : (1 <= char_width (String b rest))%nat.
Proof. unfold char_width. repeat case_match; lia. Qed.

Lemma characters_from_join s :
  ∀ skip, join (characters_from skip s) = string_drop skip s.
Proof.
  induction s as [|b rest IH]; intros [|k]; try done.
  - cbn [characters_from join foldr].
    pose proof (char_width_positive b rest) as Hpos.
    destruct (char_width (String b rest)) as [|w]; [lia|].
    fold (join (characters_from (S w - 1) rest)).
    rewrite IH. replace (S w - 1)%nat with w by lia.
    simpl. by rewrite append_String, substring_string_drop.
  - simpl. apply IH.
Qed.

(** The characters of a string are consecutive pieces of it: put together
    again they give the string, so that slicing by character loses no byte
    and invents none. *)
Lemma characters_join s : join (characters s) = s.
Proof.
  unfold characters. rewrite characters_from_join. by destruct s.
Qed.

Lemma between_ascii lo hi b :
  byte_value b < 0x80 → 0x80 <= lo → between lo hi b = false.
Proof.
  intros Hb Hlo. unfold between. apply andb_false_iff. left.
  apply Z.leb_gt. lia.
Qed.

Lemma char_width_ascii b rest :
  byte_value b < 0x80 → char_width (String b rest) = 1%nat.
Proof.
  intros Hb. unfold char_width.
  by rewrite !(between_ascii _ _ b) by (done || lia).
Qed.

(** Every character of an ASCII string is one byte. *)
Lemma characters_ascii s :
  ascii_only s = true →
  characters s = (fun b => String b EmptyString) <$> list_ascii_of_string s.
Proof.
  unfold characters. induction s as [|b rest IH]; [done|].
  intros [Hb Hrest]%andb_true_iff. apply Z.ltb_lt in Hb.
  cbn [characters_from list_ascii_of_string fmap list_fmap].
  rewrite char_width_ascii by done. simpl. rewrite IH by done.
  by destruct rest.
Qed.

Lemma join_take_single (n : nat) s :
  join (take n ((fun b => String b EmptyString) <$> list_ascii_of_string s))
  = String.substring 0 n s.
Proof.
  revert n. induction s as [|b rest IH]; intros [|n]; simpl; try done.
  f_equal. apply IH.
Qed.

Lemma join_drop_single (n : nat) s :
  join (drop n ((fun b => String b EmptyString) <$> list_ascii_of_string s))
  = string_drop n s.
Proof.
  revert n. induction s as [|b rest IH]; intros [|n]; simpl; try done.
  f_equal. apply (IH 0%nat).
Qed.

Lemma substring_whole (m : nat) s :
  (String.length s <= m)%nat → String.substring 0 m s = s.
Proof.
  revert m. induction s as [|b rest IH]; intros [|m] Hm; simpl in *;
    try done; try lia.
  f_equal. apply IH. lia.
Qed.

Lemma substring_to_the_end (n m : nat) s :
  (String.length s <= n + m)%nat →
  String.substring n m s = string_drop n s.
Proof.
  revert s. induction n as [|n IH]; intros s Hlen.
  - rewrite substring_whole by done. by destruct s.
  - destruct s as [|b rest]; [done|]. simpl in *. apply IH. lia.
Qed.

Lemma length_list_ascii_of_string s :
  length (list_ascii_of_string s) = String.length s.
Proof. induction s as [|b rest IH]; simpl; [done|]. by rewrite IH. Qed.

(** For a key of ASCII characters, the only keys that the provider issues,
    the preview is cut at the tenth byte and four bytes before the end. *)
Lemma preview_ascii key :
  ascii_only key = true →
  preview key
  = String.substring 0 10 key +:+ "..."
    +:+ String.substring (String.length key - 4) 4 key.
Proof.
  intros Hascii. unfold preview, first_chars, last_chars.
  rewrite (characters_ascii key Hascii), join_take_single, join_drop_single.
  rewrite length_fmap, length_list_ascii_of_string.
  rewrite (substring_to_the_end (String.length key - 4) 4) by lia.
  done.
Qed.

(** A key with accented letters: its twenty-two characters take
    twenty-four bytes, and the preview keeps the first ten and the last four
    characters whole. *)
Example preview_cuts_by_character :
  String.length "clé-secrète-0123456789" = 24%nat ∧
  length (characters "clé-secrète-0123456789") = 22%nat ∧
  preview "clé-secrète-0123456789" = "clé-secrèt...6789" ∧
  preview "日本語のキーと鍵です一二三四" = "日本語のキーと鍵です...一二三四" ∧
  characters "a€𝄞" = ["a"; "€"; "𝄞"].
Proof. repeat split; vm_compute; reflexivity. Qed.

(** ** The manager right after construction *)

(** A manager that [__init__] has built holds the configured keys, at
    least one, with the cursor on the first; no key has a cooldown, a flag
    or a count; three attempts are allowed per call.  It is well formed, and
    the first selection returns the first key, whatever the time. *)
Theorem key_manager_after_construction env s :
  __init__ env = Ok s →
  api_keys s = configured_keys env ∧
  api_keys s ≠ [] ∧
  current_key_index s = 0 ∧
  key_cooldowns s = ∅ ∧
  max_retries s = 3 ∧
  (∀ k, k ∈ api_keys s → key_usage_stats s !! k = Some new_stats) ∧
  well_formed s ∧
  ∀ now, ∃ key,
    api_keys s !! 0%nat = Some key ∧
    fst (_get_next_available_key s now) = Ok key.
Proof.
  intros Hinit. pose proof (init_well_formed env s Hinit) as Hwf.
  unfold __init__ in Hinit. rewrite load_api_keys_configured in Hinit.
  destruct (configured_keys env) as [|k0 ks] eqn:Hkeys; [discriminate|].
  injection Hinit as <-.
  cbn [api_keys current_key_index key_cooldowns max_retries key_usage_stats].
  split_and!; try done.
  - intros k Hk. rewrite init_stats_lookup.
    destruct (decide (k ∈ ks)) as [?|Hnotin]; [done|].
    apply elem_of_cons in Hk as [->|?]; [|done].
    apply lookup_insert_eq.
  - intros now. exists k0. split; [done|].
    match type of Hwf with
    | well_formed ?m => remember m as s0 eqn:Hs0
    end.
    assert (key_at s0 0 = Some k0) as Hat0
      by (rewrite key_at_0 by done; by subst s0).
    assert (∀ k, ¬ cooling_at s0 now k) as Hfree.
    { intros k (T & HT & _). subst s0. simpl in HT.
      by rewrite lookup_empty in HT. }
    destruct (scan_keys_first_free now (current_key_index s0)
                (length (api_keys s0)) s0 Hwf)
      as (j & key & s' & st & _ & Hat & _ & Hbefore & Hscan & _).
    { exists 0%nat, k0. split; [subst s0; simpl; lia|]. by split. }
    unfold _get_next_available_key. rewrite Hscan. simpl.
    destruct j as [|j]; [congruence|].
    exfalso. apply (Hfree k0). apply (Hbefore 0%nat k0); [lia|done].
Qed.

Lemma key_manager_after_construction_witness :
  api_keys Examples.two_keys = configured_keys Examples.two_keys_env ∧
  api_keys Examples.two_keys ≠ [] ∧
  current_key_index Examples.two_keys = 0 ∧
  key_cooldowns Examples.two_keys = ∅ ∧
  max_retries Examples.two_keys = 3 ∧
  (∀ k, k ∈ api_keys Examples.two_keys →
        key_usage_stats Examples.two_keys !! k = Some new_stats) ∧
  well_formed Examples.two_keys ∧
  ∀ now, ∃ key,
    api_keys Examples.two_keys !! 0%nat = Some key ∧
    fst (_get_next_available_key Examples.two_keys now) = Ok key.
Proof.
  apply (key_manager_after_construction Examples.two_keys_env
           Examples.two_keys).
  vm_compute. reflexivity.
Defined.

End openrouter_selection.
